(** * SonicUX: the harmonic voice engine

    A shallow embedding of the harmony manager ([src/core/harmony.ts],
    class [HarmonyManager]) and of the playback and voice-management
    methods of the synth engine ([src/core/synth-engine.ts], class
    [SynthEngine]), with the properties of the specification that
    concern them.

    Conventions of the embedding.

    - A JavaScript number is an exact integer ([Num z]) or [NaN].  The
      pitches, degrees and intervals of the engine are small integers, far
      inside the range where a double is exact.  A third constructor,
      [NonNumber], stands for a value that is not a number at all: an
      object or function found on [Object.prototype], or the string that
      [+] builds from one.
    - A method that can raise a [TypeError] returns a [completion].
    - The lookup tables are object literals: association lists in the
      order of the source (the order is read by [Object.entries]), looked
      up through [get_property], which follows the prototype chain as a
      property read does.
    - An object is given by the values of its fields; the constructors
      are not embedded. *)

From Stdlib Require Import ZArith QArith List String Ascii Bool Lia.
From Stdlib Require Import DecimalString DecimalNat Qround.
From stdpp Require Import base gmap strings.
Import ListNotations.

(** ** JavaScript values *)

Module Js.

Local Open Scope Z_scope.

Inductive jsval : Type :=
| Num (z : Z)
| NaN
| NonNumber.

(** [a + b]: addition of numbers; as soon as one operand is an object, a
    function or a string the result is a string.  [undefined] as an
    operand is passed as [NaN] (with a number it gives [NaN], with a
    string it is concatenated). *)
Definition add (a b : jsval) : jsval :=
  match a, b with
  | Num x, Num y => Num (x + y)
  | NonNumber, _ | _, NonNumber => NonNumber
  | _, _ => NaN
  end.

(** [a - b], [a * b]: both operands are converted to numbers; an object,
    a function or a string that is not a numeral converts to [NaN]. *)
Definition sub (a b : jsval) : jsval :=
  match a, b with
  | Num x, Num y => Num (x - y)
  | _, _ => NaN
  end.

Definition mul (a b : jsval) : jsval :=
  match a, b with
  | Num x, Num y => Num (x * y)
  | _, _ => NaN
  end.

(** [a % n] for an integer [n]: the remainder has the sign of the
    dividend ([Z.rem]); [a % 0] is [NaN]. *)
Definition rem (a : jsval) (n : Z) : jsval :=
  match a with
  | Num x => if n =? 0 then NaN else Num (Z.rem x n)
  | _ => NaN
  end.

(** [Math.floor(a / n)] for an integer [n >= 0].  For [n = 0] the quotient
    is an infinity or [NaN]; the only place that divides by a possibly
    zero length, [getScaleNote], adds the result to a sum that is already
    [NaN] or a string, so [NaN] stands for it there. *)
Definition floor_div (a : jsval) (n : Z) : jsval :=
  match a with
  | Num x => if n =? 0 then NaN else Num (x / n)
  | _ => NaN
  end.

(** [Math.abs(a)] *)
Definition abs (a : jsval) : jsval :=
  match a with
  | Num x => Num (Z.abs x)
  | _ => NaN
  end.

(** [a < b]: false as soon as one side is [NaN]. *)
Definition lt (a b : jsval) : bool :=
  match a, b with
  | Num x, Num y => x <? y
  | _, _ => false
  end.

(** [a === b] where [b] is a number of a table. *)
Definition strict_eq_num (a : jsval) (n : Z) : bool :=
  match a with
  | Num x => x =? n
  | _ => false
  end.

(** The value of [xs[i]] used as an operand: [undefined] passes as [NaN]. *)
Definition of_option (o : option Z) : jsval :=
  match o with
  | Some z => Num z
  | None => NaN
  end.

(** [xs[i]] for an array of numbers and a computed index: an index that
    is not one of [0 .. length-1] (negative, [NaN], past the end) reads
    [undefined]. *)
Definition index (xs : list Z) (i : jsval) : option Z :=
  match i with
  | Num k => if k <? 0 then None else nth_error xs (Z.to_nat k)
  | _ => None
  end.

(** Completion of a method call: a value, or a thrown [TypeError]. *)
Inductive completion (A : Type) : Type :=
| Return (a : A)
| Throw.
Arguments Return {A} a.
Arguments Throw {A}.

Definition bind {A B} (c : completion A) (k : A -> completion B) : completion B :=
  match c with
  | Return a => k a
  | Throw => Throw
  end.

(** Reading a property of an object literal.  The literal's own entries
    come first; a name they do not have is looked up on
    [Object.prototype], whose members are listed below (ECMAScript 20.1.3
    and Annex B.2.2); any other name reads [undefined]. *)
Inductive property (A : Type) : Type :=
| Own (a : A)
| Inherited
| Undefined.
Arguments Own {A} a.
Arguments Inherited {A}.
Arguments Undefined {A}.

Definition object_prototype_keys : list string :=
  [ "constructor"; "hasOwnProperty"; "isPrototypeOf"; "propertyIsEnumerable";
    "toLocaleString"; "toString"; "valueOf"; "__proto__";
    "__defineGetter__"; "__defineSetter__"; "__lookupGetter__";
    "__lookupSetter__" ]%string.

Fixpoint own_property {A} (table : list (string * A)) (name : string) : option A :=
  match table with
  | [] => None
  | (k, v) :: rest => if String.eqb k name then Some v else own_property rest name
  end.

Definition in_prototype (name : string) : bool :=
  existsb (String.eqb name) object_prototype_keys.

Definition get_property {A} (table : list (string * A)) (name : string) : property A :=
  match own_property table name with
  | Some v => Own v
  | None => if in_prototype name then Inherited else Undefined
  end.

(** [Number.MAX_SAFE_INTEGER]: up to it a double holds every integer,
    and sums, products and floored quotients of integers that stay
    within it are exact. *)
Definition MAX_SAFE_INTEGER : Z := 2 ^ 53 - 1.

(** [s.includes(c)] for a one-character needle. *)
Fixpoint includes (s : string) (c : ascii) : bool :=
  match s with
  | EmptyString => false
  | String a rest => Ascii.eqb a c || includes rest c
  end.

End Js.

Notation "'do' x <- c ; k" := (Js.bind c (fun x => k))
  (at level 10, x name, c at level 100, k at level 200).

(** ** The harmony manager ([src/core/harmony.ts]) *)

Module Harmony.

Import Js.
Local Open Scope string_scope.
Local Open Scope Z_scope.

Definition MIDDLE_C : Z := 60.

Definition NOTE_MAP : list (string * Z) :=
  [ ("C", 0); ("C#", 1); ("Db", 1); ("D", 2); ("D#", 3); ("Eb", 3); ("E", 4);
    ("F", 5); ("F#", 6); ("Gb", 6); ("G", 7); ("G#", 8); ("Ab", 8); ("A", 9);
    ("A#", 10); ("Bb", 10); ("B", 11) ].

Record ModeDefinition : Type := { intervals : list Z }.

(** [MODES.major] and [MODES.minor], which the code also reads by name. *)
Definition MODES_major : ModeDefinition := {| intervals := [0; 2; 4; 5; 7; 9; 11] |}.
Definition MODES_minor : ModeDefinition := {| intervals := [0; 2; 3; 5; 7; 8; 10] |}.

Definition MODES : list (string * ModeDefinition) :=
  [ ("major", MODES_major);
    ("lydian", {| intervals := [0; 2; 4; 6; 7; 9; 11] |});
    ("mixolydian", {| intervals := [0; 2; 4; 5; 7; 9; 10] |});
    ("minor", MODES_minor);
    ("dorian", {| intervals := [0; 2; 3; 5; 7; 9; 10] |});
    ("phrygian", {| intervals := [0; 1; 3; 5; 7; 8; 10] |});
    ("pentatonic_major", {| intervals := [0; 2; 4; 7; 9] |});
    ("pentatonic_minor", {| intervals := [0; 3; 5; 7; 10] |}) ].

Inductive ChordType : Type := major | minor | diminished.

Record ChordInfo : Type := { degree : Z; type : ChordType }.

Definition ROMAN_TO_DEGREE : list (string * ChordInfo) :=
  [ ("I", {| degree := 0; type := major |});
    ("II", {| degree := 1; type := major |});
    ("III", {| degree := 2; type := major |});
    ("IV", {| degree := 3; type := major |});
    ("V", {| degree := 4; type := major |});
    ("VI", {| degree := 5; type := major |});
    ("VII", {| degree := 6; type := major |});
    ("i", {| degree := 0; type := minor |});
    ("ii", {| degree := 1; type := minor |});
    ("iii", {| degree := 2; type := minor |});
    ("iv", {| degree := 3; type := minor |});
    ("v", {| degree := 4; type := minor |});
    ("vi", {| degree := 5; type := minor |});
    ("vii", {| degree := 6; type := minor |});
    ("viiÂ°", {| degree := 6; type := diminished |});
    ("viio", {| degree := 6; type := diminished |}) ].

(** [state.scale] is [None] when it holds [undefined] (the [intervals] of
    a mode definition that is not one). *)
Record HarmonyState : Type := {
  key : string;
  mode : string;
  scale : option (list Z);
  chord : list jsval;
  isLocked : bool
}.

Record HarmonyManager : Type := {
  state : HarmonyState;
  rootNote : jsval;
  chordPool : list string
}.

Definition with_state (m : HarmonyManager) (s : HarmonyState) : HarmonyManager :=
  {| state := s; rootNote := rootNote m; chordPool := chordPool m |}.

Definition with_rootNote (m : HarmonyManager) (r : jsval) : HarmonyManager :=
  {| state := state m; rootNote := r; chordPool := chordPool m |}.

Definition with_key (s : HarmonyState) (k : string) : HarmonyState :=
  {| key := k; mode := mode s; scale := scale s; chord := chord s;
     isLocked := isLocked s |}.

Definition with_mode (s : HarmonyState) (md : string) : HarmonyState :=
  {| key := key s; mode := md; scale := scale s; chord := chord s;
     isLocked := isLocked s |}.

Definition with_scale (s : HarmonyState) (sc : option (list Z)) : HarmonyState :=
  {| key := key s; mode := mode s; scale := sc; chord := chord s;
     isLocked := isLocked s |}.

Definition with_chord (s : HarmonyState) (c : list jsval) : HarmonyState :=
  {| key := key s; mode := mode s; scale := scale s; chord := c;
     isLocked := isLocked s |}.

Definition with_isLocked (s : HarmonyState) (b : bool) : HarmonyState :=
  {| key := key s; mode := mode s; scale := scale s; chord := chord s;
     isLocked := b |}.

(** [NOTE_MAP[key] ?? 0] *)
Definition note_or_zero (k : string) : jsval :=
  match get_property NOTE_MAP k with
  | Own n => Num n
  | Inherited => NonNumber
  | Undefined => Num 0
  end.

(** [(MODES[mode] ?? MODES.major).intervals]: an inherited member of
    [Object.prototype] is not nullish and has no [intervals]. *)
Definition mode_intervals (md : string) : option (list Z) :=
  match get_property MODES md with
  | Own d => Some (intervals d)
  | Inherited => None
  | Undefined => Some (intervals MODES_major)
  end.

(** *** Scale degree to MIDI conversion *)

Definition getScaleNote (m : HarmonyManager) (deg : jsval) (octave : Z)
  : completion jsval :=
  match scale (state m) with
  | None => Throw
  | Some sc =>
      let scaleLength := Z.of_nat (length sc) in
      let octaveOffset := floor_div deg scaleLength in
      let scaleDegree := rem deg scaleLength in
      let baseNote := MIDDLE_C + (octave - 4) * 12 in
      let noteOffset := add (rootNote m) (of_option (index sc scaleDegree)) in
      Return (add (add (Num baseNote) noteOffset) (mul octaveOffset (Num 12)))
  end.

(** The loop of [quantizeToScale]: one iteration, on the pair
    [(nearest, minDiff)]. *)
Definition quantize_step (keyOffset : jsval) (acc : option Z * jsval) (interval : Z)
  : option Z * jsval :=
  let diff := abs (sub keyOffset (Num interval)) in
  if lt diff (snd acc) then (Some interval, diff) else acc.

Definition quantizeToScale (m : HarmonyManager) (note : jsval) : completion jsval :=
  let octave := sub (floor_div note 12) (Num 1) in
  let semitone := rem note 12 in
  let keyOffset := rem (add (sub semitone (rootNote m)) (Num 12)) 12 in
  match scale (state m) with
  | None => Throw
  | Some sc =>
      let nearest0 := nth_error sc 0 in
      let minDiff0 := abs (sub keyOffset (of_option nearest0)) in
      let nearest := fst (fold_left (quantize_step keyOffset) sc (nearest0, minDiff0)) in
      Return (add (add (add (mul octave (Num 12)) (Num 12)) (rootNote m))
                  (of_option nearest))
  end.

(** *** Chords *)

(** The three notes every branch of [buildChord] returns. *)
Definition triad (m : HarmonyManager) (deg : jsval) (octave : Z)
  : completion (list jsval) :=
  do root <- getScaleNote m deg octave;
  do third <- getScaleNote m (add deg (Num 2)) octave;
  do fifth <- getScaleNote m (add deg (Num 4)) octave;
  Return [root; third; fifth].

(** [buildChord] once [ROMAN_TO_DEGREE[roman]] is read: an own entry gives
    its degree and type; an inherited member is truthy, and its [degree]
    and [type] are [undefined], which takes the last branch. *)
Definition buildChord_with (m : HarmonyManager) (chordInfo : property ChordInfo)
    (octave : Z) : completion (list jsval) :=
  match chordInfo with
  | Own info =>
      match type info with
      | major => triad m (Num (degree info)) octave
      | minor => triad m (Num (degree info)) octave
      | diminished => triad m (Num (degree info)) octave
      end
  | Inherited => triad m NaN octave
  | Undefined => Throw
  end.

(** [buildChord]: a label that reads [undefined] is built as ['I'], which
    the table has (the [Undefined] case of [buildChord_with] is not
    reached from here). *)
Definition buildChord (m : HarmonyManager) (roman : string) (octave : Z)
  : completion (list jsval) :=
  match get_property ROMAN_TO_DEGREE roman with
  | Undefined => buildChord_with m (get_property ROMAN_TO_DEGREE "I") octave
  | chordInfo => buildChord_with m chordInfo octave
  end.

Definition getChord (m : HarmonyManager) (roman : string) (octave : Z)
  : completion (list jsval) :=
  buildChord m roman octave.

(** *** Key and scale management.  A mutator returns its completion and
    the manager as the call leaves it (an exception does not undo the
    assignments made before it). *)

Definition setKey (m : HarmonyManager) (k md : string)
  : completion unit * HarmonyManager :=
  let m1 := with_rootNote m (note_or_zero k) in
  let s1 := with_scale (with_mode (with_key (state m1) k) md) (mode_intervals md) in
  let m2 := with_state m1 s1 in
  if negb (isLocked (state m2)) then
    match buildChord m2 "I" 4 with
    | Return c => (Return tt, with_state m2 (with_chord (state m2) c))
    | Throw => (Throw, m2)
    end
  else (Return tt, m2).

Definition setScale (m : HarmonyManager) (ivs : list Z) : HarmonyManager :=
  with_state m (with_mode (with_scale (state m) (Some ivs)) "custom").

Definition setChord (m : HarmonyManager) (notes : list jsval) : HarmonyManager :=
  with_state m (with_chord (state m) notes).

Definition setChordFromRoman (m : HarmonyManager) (roman : string) (octave : Z)
  : completion unit * HarmonyManager :=
  if negb (isLocked (state m)) then
    match buildChord m roman octave with
    | Return c => (Return tt, with_state m (with_chord (state m) c))
    | Throw => (Throw, m)
    end
  else (Return tt, m).

Definition lockHarmony (m : HarmonyManager) : HarmonyManager :=
  with_state m (with_isLocked (state m) true).

Definition unlockHarmony (m : HarmonyManager) : HarmonyManager :=
  with_state m (with_isLocked (state m) false).

Definition setChordPool (m : HarmonyManager) (chords : list string) : HarmonyManager :=
  {| state := state m; rootNote := rootNote m; chordPool := chords |}.

(** *** Modulation *)

Inductive ModulationType : Type := relative | dominant | subdominant.

Definition is_natural (name : string) : bool :=
  negb (includes name "#"%char) && negb (includes name "b"%char).

(** [updateKeyName]: the first natural name of the root in
    [Object.entries(NOTE_MAP)], else the first name of it, else no change. *)
Definition updateKeyName (m : HarmonyManager) : HarmonyManager :=
  match find (fun e => strict_eq_num (rootNote m) (snd e) && is_natural (fst e)) NOTE_MAP with
  | Some (name, _) => with_state m (with_key (state m) name)
  | None =>
      match find (fun e => strict_eq_num (rootNote m) (snd e)) NOTE_MAP with
      | Some (name, _) => with_state m (with_key (state m) name)
      | None => m
      end
  end.

Definition modulateRelative (m : HarmonyManager) : HarmonyManager :=
  let m' :=
    if String.eqb (mode (state m)) "major" then
      let m1 := with_rootNote m (rem (add (rootNote m) (Num 9)) 12) in
      with_state m1 (with_scale (with_mode (state m1) "minor") (Some (intervals MODES_minor)))
    else if String.eqb (mode (state m)) "minor" then
      let m1 := with_rootNote m (rem (add (rootNote m) (Num 3)) 12) in
      with_state m1 (with_scale (with_mode (state m1) "major") (Some (intervals MODES_major)))
    else m in
  updateKeyName m'.

Definition modulateDominant (m : HarmonyManager) : HarmonyManager :=
  updateKeyName (with_rootNote m (rem (add (rootNote m) (Num 7)) 12)).

Definition modulateSubdominant (m : HarmonyManager) : HarmonyManager :=
  updateKeyName (with_rootNote m (rem (add (rootNote m) (Num 5)) 12)).

Definition modulate (m : HarmonyManager) (t : ModulationType) : HarmonyManager :=
  match t with
  | relative => modulateRelative m
  | dominant => modulateDominant m
  | subdominant => modulateSubdominant m
  end.

(** *** Calls of the host on a manager (the mutators of the class).  A
    call that throws leaves the manager as it was at the exception. *)

Inductive call : Type :=
| SetKey (k md : string)
| SetScale (ivs : list Z)
| SetChord (notes : list jsval)
| SetChordFromRoman (roman : string) (octave : Z)
| LockHarmony
| UnlockHarmony
| Modulate (t : ModulationType)
| SetChordPool (chords : list string).

Definition exec (m : HarmonyManager) (c : call) : HarmonyManager :=
  match c with
  | SetKey k md => snd (setKey m k md)
  | SetScale ivs => setScale m ivs
  | SetChord notes => setChord m notes
  | SetChordFromRoman roman octave => snd (setChordFromRoman m roman octave)
  | LockHarmony => lockHarmony m
  | UnlockHarmony => unlockHarmony m
  | Modulate t => modulate m t
  | SetChordPool chords => setChordPool m chords
  end.

Definition run (m : HarmonyManager) (cs : list call) : HarmonyManager :=
  fold_left exec cs m.

(** The call that lifts the lock. *)
Definition is_unlock (c : call) : bool :=
  match c with
  | UnlockHarmony => true
  | _ => false
  end.

(** *** Properties of a manager used in the statements *)

(** The root is a pitch class. *)
Definition root_is (m : HarmonyManager) (r : Z) : Prop :=
  rootNote m = Num r /\ 0 <= r < 12.

(** The pitch the specification gives for [getScaleNote(degree, octave)]:
    the degree wrapped modulo the scale length (mathematical modulo), a
    shift of 12 per full wrap, octave 4 at MIDI 60 plus the root. *)
Definition getScaleNote_spec (root : Z) (sc : list Z) (deg octave : Z) : Z :=
  let len := Z.of_nat (length sc) in
  60 + (octave - 4) * 12 + root + nth (Z.to_nat (deg mod len)) sc 0
  + 12 * (deg / len).

(** An integer of magnitude below 2^32.  The root, the intervals, the
    degree and the octave being such, every number [getScaleNote]
    computes is an integer of magnitude below 2^53, which the numbers
    of the code hold exactly. *)
Definition small (z : Z) : bool := Z.abs z <? 2 ^ 32.

(** The triad of the specification at a chord degree: the tones of the
    scale at the degree and two and four degrees above it. *)
Definition triad_spec (root : Z) (sc : list Z) (deg octave : Z) : list jsval :=
  [Num (getScaleNote_spec root sc deg octave);
   Num (getScaleNote_spec root sc (deg + 2) octave);
   Num (getScaleNote_spec root sc (deg + 4) octave)].



(** What a name stands for: the entry of the table, or the default for a
    name that reads [undefined] (root C, the major intervals, the label
    ['I']). *)
Definition key_root (k : string) (r : Z) : Prop :=
  get_property NOTE_MAP k = Own r \/
  (get_property NOTE_MAP k = Undefined /\ r = 0).

Definition mode_scale (md : string) (sc : list Z) : Prop :=
  (exists d, get_property MODES md = Own d /\ sc = intervals d) \/
  (get_property MODES md = Undefined /\ sc = [0; 2; 4; 5; 7; 9; 11]).

Definition label_degree (roman : string) (d : Z) : Prop :=
  (exists info, get_property ROMAN_TO_DEGREE roman = Own info /\ d = degree info) \/
  (get_property ROMAN_TO_DEGREE roman = Undefined /\ d = 0).

(** *** Managers used as examples *)

(** C major with its tonic triad, unlocked. *)
Definition C_major : HarmonyManager :=
  {| state := {| key := "C"; mode := "major"; scale := Some [0; 2; 4; 5; 7; 9; 11];
                 chord := [Num 60; Num 64; Num 67]; isLocked := false |};
     rootNote := Num 0;
     chordPool := ["I"; "IV"; "V"; "vi"] |}.

(** B major, as [setKey('B', 'major')] leaves the manager: root 11, tonic
    triad [71, 75, 78]. *)
Definition B_major : HarmonyManager := snd (setKey C_major "B" "major").



(** *** The readers and the random picks *)

(** [getCurrentScale]: a copy of the scale; the spread of [undefined]
    throws. *)
Definition getCurrentScale (m : HarmonyManager) : completion (list Z) :=
  match scale (state m) with
  | None => Throw
  | Some sc => Return sc
  end.

Definition getCurrentChord (m : HarmonyManager) : list jsval := chord (state m).

Definition getChordPool (m : HarmonyManager) : list string := chordPool m.

(** [Math.floor(Math.random() * n)], where [random] is the value
    [Math.random()] returns, a number of [0, 1) taken as a rational. *)
Definition random_below (random : Q) (n : nat) : Z :=
  Qfloor (random * inject_Z (Z.of_nat n)).


(** [chordPool[i]] passed to [buildChord]: past the end it is
    [undefined], which reads the table at the key ['undefined']. *)
Definition pool_label (pool : list string) (i : Z) : string :=
  if i <? 0 then "undefined"
  else match nth_error pool (Z.to_nat i) with
       | Some roman => roman
       | None => "undefined"
       end.

Definition getRandomChordFromPool (m : HarmonyManager) (random : Q) (octave : Z)
  : completion (list jsval) :=
  buildChord m (pool_label (chordPool m) (random_below random (length (chordPool m))))
             octave.

(** *** The constructor.  While the object literal assigned to
    [this.state] is evaluated, [this.state] itself is still unassigned:
    [this] is a receiver whose state may be missing, and the methods
    called on it read [this.state.scale] first. *)

Record Receiver : Type := {
  this_state : option HarmonyState;
  this_rootNote : jsval;
  this_chordPool : list string
}.

Definition getScaleNote_this (this : Receiver) (deg : jsval) (octave : Z)
  : completion jsval :=
  match this_state this with
  | None => Throw
  | Some s =>
      getScaleNote {| state := s; rootNote := this_rootNote this;
                      chordPool := this_chordPool this |} deg octave
  end.

Definition triad_this (this : Receiver) (deg : jsval) (octave : Z)
  : completion (list jsval) :=
  do root <- getScaleNote_this this deg octave;
  do third <- getScaleNote_this this (add deg (Num 2)) octave;
  do fifth <- getScaleNote_this this (add deg (Num 4)) octave;
  Return [root; third; fifth].

Definition buildChord_this (this : Receiver) (roman : string) (octave : Z)
  : completion (list jsval) :=
  let build chordInfo :=
    match chordInfo with
    | Own info =>
        match type info with
        | major => triad_this this (Num (degree info)) octave
        | minor => triad_this this (Num (degree info)) octave
        | diminished => triad_this this (Num (degree info)) octave
        end
    | Inherited => triad_this this NaN octave
    | Undefined => Throw
    end in
  match get_property ROMAN_TO_DEGREE roman with
  | Undefined => build (get_property ROMAN_TO_DEGREE "I")
  | chordInfo => build chordInfo
  end.

(** [new HarmonyManager(key, mode)] *)
Definition constructor (k md : string) : completion HarmonyManager :=
  let this1 := {| this_state := None; this_rootNote := note_or_zero k;
                  this_chordPool := ["I"; "IV"; "V"; "vi"] |} in
  let scale1 := mode_intervals md in
  do chord1 <- buildChord_this this1 "I" 4;
  Return {| state := {| key := k; mode := md; scale := scale1; chord := chord1;
                        isLocked := false |};
            rootNote := this_rootNote this1;
            chordPool := this_chordPool this1 |}.

(** *** Properties used in the further statements *)

(** The intervals of a scale ascend strictly and lie within one octave
    (what the mode tables satisfy). *)
Fixpoint ascending_from (low : Z) (sc : list Z) : bool :=
  match sc with
  | [] => true
  | iv :: rest => (low <? iv) && (iv <? 12) && ascending_from iv rest
  end.

Definition ascending_in_octave (sc : list Z) : bool := ascending_from (-1) sc.


(** The pitch classes of the scale of a manager. *)
Definition pitch_classes (m : HarmonyManager) : list Z :=
  match rootNote m, scale (state m) with
  | Num r, Some sc => map (fun iv => (r + iv) mod 12) sc
  | _, _ => []
  end.

(** A scale with an interval or more, all of them small. *)
Definition usable_scale (sc : list Z) : bool :=
  negb (Nat.eqb (length sc) 0) && forallb small sc.

(** A call whose key and mode names are not members of
    [Object.prototype], and whose scale is usable. *)
Definition plain_call (c : call) : bool :=
  match c with
  | SetKey k md => negb (in_prototype k) && negb (in_prototype md)
  | SetScale ivs => usable_scale ivs
  | _ => true
  end.

(** The completion of a call. *)
Definition completion_of (m : HarmonyManager) (c : call) : completion unit :=
  match c with
  | SetKey k md => fst (setKey m k md)
  | SetChordFromRoman roman octave => fst (setChordFromRoman m roman octave)
  | _ => Return tt
  end.

(** The completions of the calls of a run, in order. *)
Fixpoint completions (m : HarmonyManager) (cs : list call) : list (completion unit) :=
  match cs with
  | [] => []
  | c :: rest => completion_of m c :: completions (exec m c) rest
  end.

(** The root is a pitch class and a usable scale is in place. *)
Definition well_formed (m : HarmonyManager) : Prop :=
  (exists r, root_is m r) /\
  (exists sc, scale (state m) = Some sc /\ usable_scale sc = true).

End Harmony.

(** ** The synth engine (class [SynthEngine])

    Times are counted in milliseconds, so that the release times of the
    source (0.1 s by default, 0.05 s for a stolen voice) and the delays
    given to [setTimeout] are integers.  Every call receives [now], the
    reading of [Tone.now()] during the call.  The Tone.js synths are
    external: the engine state keeps the list of the calls made on them
    ([backend]) and the callbacks handed to [setTimeout] that have not
    fired yet ([timers]). *)

Module Synth.

Local Open Scope string_scope.
Local Open Scope Z_scope.

(** A registered voice: its [create] function, named by a tag. *)
Definition VoiceDefinition : Type := nat.

Record ActiveVoice : Type := {
  id : string;
  synth : nat;
  startTime : Z;
  note : Z;
  velocity : Q
}.

Inductive BackendCall : Type :=
| Create (definition : VoiceDefinition) (handle : nat)
| Connect (handle : nat)
| TriggerAttack (handle : nat) (note : Z) (time : Z) (velocity : Q)
| TriggerAttackRelease (handle : nat) (note : Z) (duration : Z) (time : Z) (velocity : Q)
| TriggerRelease (handle : nat) (time : Z)
| Dispose (handle : nat).

Record NoteEvent : Type := {
  ev_note : Z;
  ev_velocity : Q;
  ev_duration : option Z;
  ev_voice : string
}.

(** [activeVoices] is a [Map]: its entries in insertion order, which
    [entries()] and [keys()] follow.  [voices] is only read by key.
    [onNotePlayCallback] tells whether a callback is set; [emitted] lists
    the events it was given. *)
Record SynthEngine : Type := {
  polyphony : Z;
  voices : gmap string VoiceDefinition;
  activeVoices : list (string * ActiveVoice);
  nextVoiceId : nat;
  isInitialized : bool;
  onNotePlayCallback : bool;
  backend : list BackendCall;
  timers : list (Z * string);
  emitted : list NoteEvent
}.

Definition with_activeVoices (e : SynthEngine) (a : list (string * ActiveVoice))
  : SynthEngine :=
  {| polyphony := polyphony e; voices := voices e; activeVoices := a;
     nextVoiceId := nextVoiceId e; isInitialized := isInitialized e;
     onNotePlayCallback := onNotePlayCallback e; backend := backend e;
     timers := timers e; emitted := emitted e |}.

Definition with_nextVoiceId (e : SynthEngine) (n : nat) : SynthEngine :=
  {| polyphony := polyphony e; voices := voices e; activeVoices := activeVoices e;
     nextVoiceId := n; isInitialized := isInitialized e;
     onNotePlayCallback := onNotePlayCallback e; backend := backend e;
     timers := timers e; emitted := emitted e |}.

(** The calls [cs] are made on the synths, in this order. *)
Definition call_backend (e : SynthEngine) (cs : list BackendCall) : SynthEngine :=
  {| polyphony := polyphony e; voices := voices e; activeVoices := activeVoices e;
     nextVoiceId := nextVoiceId e; isInitialized := isInitialized e;
     onNotePlayCallback := onNotePlayCallback e; backend := backend e ++ cs;
     timers := timers e; emitted := emitted e |}.

(** [setTimeout(() => this.cleanupVoice(voiceId), delay)] *)
Definition setTimeout (e : SynthEngine) (delay : Z) (voiceId : string) : SynthEngine :=
  {| polyphony := polyphony e; voices := voices e; activeVoices := activeVoices e;
     nextVoiceId := nextVoiceId e; isInitialized := isInitialized e;
     onNotePlayCallback := onNotePlayCallback e; backend := backend e;
     timers := timers e ++ [(delay, voiceId)]; emitted := emitted e |}.

Definition with_timers (e : SynthEngine) (ts : list (Z * string)) : SynthEngine :=
  {| polyphony := polyphony e; voices := voices e; activeVoices := activeVoices e;
     nextVoiceId := nextVoiceId e; isInitialized := isInitialized e;
     onNotePlayCallback := onNotePlayCallback e; backend := backend e;
     timers := ts; emitted := emitted e |}.

Definition emit (e : SynthEngine) (ev : NoteEvent) : SynthEngine :=
  {| polyphony := polyphony e; voices := voices e; activeVoices := activeVoices e;
     nextVoiceId := nextVoiceId e; isInitialized := isInitialized e;
     onNotePlayCallback := onNotePlayCallback e; backend := backend e;
     timers := timers e; emitted := emitted e ++ [ev] |}.

(** *** The [Map] of active voices *)

Fixpoint map_get {A} (m : list (string * A)) (k : string) : option A :=
  match m with
  | [] => None
  | (k', v) :: rest => if String.eqb k' k then Some v else map_get rest k
  end.

(** [Map.set]: an existing key keeps its place, a new one goes last. *)
Fixpoint map_set {A} (m : list (string * A)) (k : string) (v : A) : list (string * A) :=
  match m with
  | [] => [(k, v)]
  | (k', v') :: rest =>
      if String.eqb k' k then (k, v) :: rest else (k', v') :: map_set rest k v
  end.

Fixpoint map_delete {A} (m : list (string * A)) (k : string) : list (string * A) :=
  match m with
  | [] => []
  | (k', v') :: rest =>
      if String.eqb k' k then map_delete rest k else (k', v') :: map_delete rest k
  end.

Definition map_size {A} (m : list (string * A)) : Z := Z.of_nat (length m).

(** *** Voice management *)

Definition DEFAULT_RELEASE : Z := 100.
Definition QUICK_RELEASE : Z := 50.

Definition stopNote (e : SynthEngine) (now : Z) (voiceId : string) (releaseTime : Z)
  : SynthEngine :=
  match map_get (activeVoices e) voiceId with
  | None => e
  | Some voice =>
      let e1 := call_backend e [TriggerRelease (synth voice) (now + releaseTime)] in
      setTimeout e1 (releaseTime + 1000) voiceId
  end.

Definition stopAllNotes (e : SynthEngine) (now : Z) : SynthEngine :=
  fold_left (fun e' voiceId => stopNote e' now voiceId DEFAULT_RELEASE)
            (map fst (activeVoices e)) e.

(** The loop of [stealVoice], on the pair [(oldestId, oldestTime)];
    [oldestTime = None] is [Infinity]. *)
Definition oldest_step (acc : option string * option Z) (entry : string * ActiveVoice)
  : option string * option Z :=
  let '(voiceId, voice) := entry in
  match snd acc with
  | None => (Some voiceId, Some (startTime voice))
  | Some oldestTime =>
      if startTime voice <? oldestTime
      then (Some voiceId, Some (startTime voice))
      else acc
  end.

Definition oldest (m : list (string * ActiveVoice)) : option string :=
  fst (fold_left oldest_step m (None, None)).

(** [if (oldestId)]: [null] and the empty string are falsy. *)
Definition stealVoice (e : SynthEngine) (now : Z) : SynthEngine :=
  match oldest (activeVoices e) with
  | None => e
  | Some oldestId =>
      if String.eqb oldestId "" then e else stopNote e now oldestId QUICK_RELEASE
  end.

Definition cleanupVoice (e : SynthEngine) (voiceId : string) : SynthEngine :=
  match map_get (activeVoices e) voiceId with
  | None => e
  | Some voice =>
      let e1 := call_backend e [Dispose (synth voice)] in
      with_activeVoices e1 (map_delete (activeVoices e1) voiceId)
  end.

Definition getActiveVoiceCount (e : SynthEngine) : Z := map_size (activeVoices e).

(** *** Note playback *)

(** The template string [`voice_${n}`] *)
Definition voice_id (n : nat) : string :=
  "voice_" ++ NilEmpty.string_of_uint (Nat.to_uint n).

(** [duration] is the duration in milliseconds when one is given (a
    notation string is resolved by [Tone.Time]). *)
Definition playNote (e : SynthEngine) (now : Z) (note : Z) (velocity : Q)
    (duration : option Z) (voiceName : string) : string * SynthEngine :=
  if negb (isInitialized e) then ("", e)
  else
    let e1 :=
      if map_size (activeVoices e) >=? polyphony e then stealVoice e now else e in
    match voices e1 !! voiceName with
    | None => ("", e1)
    | Some voiceDefinition =>
        let handle := nextVoiceId e1 in
        let e2 := call_backend e1 [Create voiceDefinition handle; Connect handle] in
        let voiceId := voice_id (nextVoiceId e2) in
        let e3 := with_nextVoiceId e2 (S (nextVoiceId e2)) in
        let e4 := with_activeVoices e3
                    (map_set (activeVoices e3) voiceId
                       {| id := voiceId; synth := handle; startTime := now;
                          note := note; velocity := velocity |}) in
        let e5 :=
          match duration with
          | Some d =>
              setTimeout
                (call_backend e4 [TriggerAttackRelease handle note d now velocity])
                (d + 100) voiceId
          | None => call_backend e4 [TriggerAttack handle note now velocity]
          end in
        let e6 :=
          if onNotePlayCallback e5
          then emit e5 {| ev_note := note; ev_velocity := velocity;
                          ev_duration := duration; ev_voice := voiceName |}
          else e5 in
        (voiceId, e6)
    end.

(** *** What happens to an engine: calls of the host and timers firing. *)

Inductive event : Type :=
| PlayNote (note : Z) (velocity : Q) (duration : option Z) (voiceName : string)
| StopNote (voiceId : string) (releaseTime : Z)
| StopAllNotes
| TimerFires (k : nat).

(** The [k]-th pending callback runs (and is no longer pending). *)
Definition fire (e : SynthEngine) (k : nat) : SynthEngine :=
  match nth_error (timers e) k with
  | None => e
  | Some (_, voiceId) =>
      let e1 := with_timers e (firstn k (timers e) ++ skipn (S k) (timers e)) in
      cleanupVoice e1 voiceId
  end.

Definition step (e : SynthEngine) (now : Z) (ev : event) : SynthEngine :=
  match ev with
  | PlayNote n v d name => snd (playNote e now n v d name)
  | StopNote i r => stopNote e now i r
  | StopAllNotes => stopAllNotes e now
  | TimerFires k => fire e k
  end.

(** A run: events with the clock reading at each. *)
Definition run (e : SynthEngine) (evs : list (Z * event)) : SynthEngine :=
  fold_left (fun e' '(now, ev) => step e' now ev) evs e.

(** *** Properties of an engine used in the statements *)

(** The keys of the [Map] are distinct, and none is the empty string
    (every key is a [voice_id]). *)
Definition registry_ok (m : list (string * ActiveVoice)) : Prop :=
  List.NoDup (map fst m) /\ Forall (fun entry => fst entry <> "") m.


(** Every key of the registry is the id of a voice minted earlier. *)
Definition ids_minted (e : SynthEngine) : Prop :=
  Forall (fun entry => exists k, (k < nextVoiceId e)%nat /\ fst entry = voice_id k)
         (activeVoices e).

(** What a caller and the backend can see of an engine: the voices of the
    registry and the calls made on the synths. *)
Definition observable (e : SynthEngine)
  : list (string * ActiveVoice) * list BackendCall :=
  (activeVoices e, backend e).

(** *** Engines used as examples *)

(** An initialised engine with the voice ['synth'] registered and no
    active voice. *)
Definition engine (ceiling : Z) : SynthEngine :=
  {| polyphony := ceiling; voices := {[ "synth" := 0%nat ]};
     activeVoices := []; nextVoiceId := 0; isInitialized := true;
     onNotePlayCallback := false; backend := []; timers := []; emitted := [] |}.

Definition default_velocity : Q := 7 # 10.

Definition sustained (pitch : Z) : event :=
  PlayNote pitch default_velocity None "synth".

(** Ceiling 2; voices A, B, C requested at 0 s, 1 s and 2 s. *)
Definition three_requests : SynthEngine :=
  run (engine 2) [(0, sustained 60); (1000, sustained 64); (2000, sustained 67)].


(** Ceiling 1 reached by one sustained voice. *)
Definition one_voice : SynthEngine :=
  run (engine 1) [(0, sustained 60)].

(** *** Registration, and the timers all fired *)

Definition with_voices (e : SynthEngine) (v : gmap string VoiceDefinition)
  : SynthEngine :=
  {| polyphony := polyphony e; voices := v; activeVoices := activeVoices e;
     nextVoiceId := nextVoiceId e; isInitialized := isInitialized e;
     onNotePlayCallback := onNotePlayCallback e; backend := backend e;
     timers := timers e; emitted := emitted e |}.

Definition with_isInitialized (e : SynthEngine) (b : bool) : SynthEngine :=
  {| polyphony := polyphony e; voices := voices e; activeVoices := activeVoices e;
     nextVoiceId := nextVoiceId e; isInitialized := b;
     onNotePlayCallback := onNotePlayCallback e; backend := backend e;
     timers := timers e; emitted := emitted e |}.

Definition with_polyphony (e : SynthEngine) (n : Z) : SynthEngine :=
  {| polyphony := n; voices := voices e; activeVoices := activeVoices e;
     nextVoiceId := nextVoiceId e; isInitialized := isInitialized e;
     onNotePlayCallback := onNotePlayCallback e; backend := backend e;
     timers := timers e; emitted := emitted e |}.

Definition registerVoice (e : SynthEngine) (name : string)
    (definition : VoiceDefinition) : SynthEngine :=
  with_voices e (<[name := definition]> (voices e)).

Definition hasVoice (e : SynthEngine) (name : string) : bool :=
  match voices e !! name with
  | Some _ => true
  | None => false
  end.

(** The pending callbacks run one after the other, first scheduled
    first, until none is left ([n] of them). *)
Fixpoint fire_first (n : nat) (e : SynthEngine) : SynthEngine :=
  match n with
  | O => e
  | S n' => fire_first n' (fire e 0)
  end.

Definition drain (e : SynthEngine) : SynthEngine :=
  fire_first (length (timers e)) e.

(** The synth a call is made on. *)
Definition handle_of (c : BackendCall) : nat :=
  match c with
  | Create _ h => h
  | Connect h => h
  | TriggerAttack h _ _ _ => h
  | TriggerAttackRelease h _ _ _ _ => h
  | TriggerRelease h _ => h
  | Dispose h => h
  end.

(** After [dispose()] on a synth, no later call is made on it. *)
Fixpoint no_use_after_dispose (log : list BackendCall) : Prop :=
  match log with
  | [] => True
  | c :: rest =>
      match c with
      | Dispose h => ~ In h (map handle_of rest)
      | _ => True
      end /\ no_use_after_dispose rest
  end.

(** The call is a [dispose()]. *)
Definition is_dispose (c : BackendCall) : Prop := exists h, c = Dispose h.

(** The synths disposed, in order. *)
Definition disposed (log : list BackendCall) : list nat :=
  flat_map (fun c => match c with Dispose h => [h] | _ => [] end) log.

(** What a run keeps true of an engine: every record sits under the id
    of its synth, minted earlier; ids are distinct; the backend has seen
    only minted synths; no registered synth is disposed; and no synth is
    used after its disposal. *)
Definition sound (e : SynthEngine) : Prop :=
  Forall (fun entry => fst entry = voice_id (synth (snd entry)) /\
                       (synth (snd entry) < nextVoiceId e)%nat)
         (activeVoices e) /\
  List.NoDup (map fst (activeVoices e)) /\
  Forall (fun c => (handle_of c < nextVoiceId e)%nat) (backend e) /\
  Forall (fun entry => ~ In (Dispose (synth (snd entry))) (backend e))
         (activeVoices e) /\
  no_use_after_dispose (backend e).

(** The ids [playNote] hands back along a run, in order. *)
Fixpoint ids_returned (e : SynthEngine) (evs : list (Z * event)) : list string :=
  match evs with
  | [] => []
  | (now, ev) :: rest =>
      (match ev with
       | PlayNote n v d name => [fst (playNote e now n v d name)]
       | _ => []
       end ++ ids_returned (step e now ev) rest)%list
  end.

(** The record has a cleanup pending. *)
Definition has_timer (e : SynthEngine) (voiceId : string) : bool :=
  existsb (fun t => String.eqb (snd t) voiceId) (timers e).

End Synth.

(** ** The audio chain of the synth engine: configuration, volume, mute
    ([src/core/synth-engine.ts]).  Decibels and times are rationals; they
    are stored and passed on, never computed with. *)

Module Mixer.

Local Open Scope Q_scope.

Inductive Level : Type :=
| Db (db : Q)
| MinusInfinity.

(** [config], without [polyphony], which the voice engine holds. *)
Record Config : Type := {
  masterVolume : Q;
  reverbWet : Q;
  reverbDecay : Q
}.

(** [Partial<SynthEngineConfig>]: a missing field is [undefined]. *)
Record PartialConfig : Type := {
  p_polyphony : option Z;
  p_masterVolume : option Q;
  p_reverbWet : option Q;
  p_reverbDecay : option Q
}.

(** The calls made on the nodes of the chain. *)
Inductive ChainCall : Type :=
| NewReverb (decay wet : Q)
| NewCompressor
| NewLimiter
| NewVolume (db : Q)
| VolumeRampTo (target : Level) (seconds : Q)
| WetRampTo (wet : Q) (seconds : Q)
| SetDecay (decay : Q).

(** The engine as a whole: the voice engine, the configuration, whether
    the nodes ([this.reverb], [this.masterVolume], ...) are set, the mute
    flag and the calls made on the nodes. *)
Record Engine : Type := {
  core : Synth.SynthEngine;
  config : Config;
  hasNodes : bool;
  isMuted : bool;
  chain : list ChainCall
}.

Definition with_core (g : Engine) (e : Synth.SynthEngine) : Engine :=
  {| core := e; config := config g; hasNodes := hasNodes g; isMuted := isMuted g;
     chain := chain g |}.

Definition with_config (g : Engine) (c : Config) : Engine :=
  {| core := core g; config := c; hasNodes := hasNodes g; isMuted := isMuted g;
     chain := chain g |}.

Definition with_isMuted (g : Engine) (b : bool) : Engine :=
  {| core := core g; config := config g; hasNodes := hasNodes g; isMuted := b;
     chain := chain g |}.

Definition call_chain (g : Engine) (cs : list ChainCall) : Engine :=
  {| core := core g; config := config g; hasNodes := hasNodes g;
     isMuted := isMuted g; chain := (chain g ++ cs)%list |}.

Definition from_option {A} (o : option A) (default : A) : A :=
  match o with
  | Some a => a
  | None => default
  end.

(** [new SynthEngine(config)] *)
Definition new_SynthEngine (c : PartialConfig) : Engine :=
  {| core := {| Synth.polyphony := from_option (p_polyphony c) 16%Z;
                Synth.voices := ∅; Synth.activeVoices := [];
                Synth.nextVoiceId := 0%nat; Synth.isInitialized := false;
                Synth.onNotePlayCallback := false; Synth.backend := [];
                Synth.timers := []; Synth.emitted := [] |};
     config := {| masterVolume := from_option (p_masterVolume c) (-12);
                  reverbWet := from_option (p_reverbWet c) (2 # 10);
                  reverbDecay := from_option (p_reverbDecay c) (25 # 10) |};
     hasNodes := false; isMuted := false; chain := [] |}.

(** [init()] up to its [await]: [None] when it returns at the guard. *)
Definition init_begin (g : Engine) : option Engine :=
  if Synth.isInitialized (core g) then None
  else
    let g1 := call_chain g [NewReverb (reverbDecay (config g)) (reverbWet (config g));
                            NewCompressor; NewLimiter;
                            NewVolume (masterVolume (config g))] in
    Some {| core := core g1; config := config g1; hasNodes := true;
            isMuted := isMuted g1; chain := chain g1 |}.

(** [init()] after its [await]. *)
Definition init_end (g : Engine) : Engine :=
  with_core g (Synth.with_isInitialized (core g) true).

Definition init (g : Engine) : Engine :=
  match init_begin g with
  | None => g
  | Some g1 => init_end g1
  end.

Definition setVolume (g : Engine) (db : Q) : Engine :=
  let g1 := with_config g {| masterVolume := db; reverbWet := reverbWet (config g);
                             reverbDecay := reverbDecay (config g) |} in
  if hasNodes g1 then call_chain g1 [VolumeRampTo (Db db) (1 # 10)] else g1.

Definition getVolume (g : Engine) : Q := masterVolume (config g).

Definition mute (g : Engine) : Engine :=
  if negb (isMuted g) && hasNodes g
  then with_isMuted (call_chain g [VolumeRampTo MinusInfinity (1 # 2)]) true
  else g.

Definition unmute (g : Engine) : Engine :=
  if isMuted g && hasNodes g
  then with_isMuted
         (call_chain g [VolumeRampTo (Db (masterVolume (config g))) (1 # 2)]) false
  else g.

Definition setReverbWet (g : Engine) (wet : Q) : Engine :=
  let g1 := with_config g {| masterVolume := masterVolume (config g);
                             reverbWet := wet;
                             reverbDecay := reverbDecay (config g) |} in
  if hasNodes g1 then call_chain g1 [WetRampTo wet (1 # 2)] else g1.

Definition setReverbDecay (g : Engine) (decay : Q) : Engine :=
  let g1 := with_config g {| masterVolume := masterVolume (config g);
                             reverbWet := reverbWet (config g);
                             reverbDecay := decay |} in
  if hasNodes g1 then call_chain g1 [SetDecay decay] else g1.

Definition updateConfig (g : Engine) (c : PartialConfig) : Engine :=
  let g1 := match p_masterVolume c with Some db => setVolume g db | None => g end in
  let g2 := match p_reverbWet c with Some wet => setReverbWet g1 wet | None => g1 end in
  let g3 := match p_reverbDecay c with
            | Some decay => setReverbDecay g2 decay
            | None => g2
            end in
  match p_polyphony c with
  | Some n => with_core g3 (Synth.with_polyphony (core g3) n)
  | None => g3
  end.

(** The level the volume node was last sent to. *)
Definition level_after (level : option Level) (c : ChainCall) : option Level :=
  match c with
  | NewVolume db => Some (Db db)
  | VolumeRampTo target _ => Some target
  | _ => level
  end.

Definition level (g : Engine) : option Level := fold_left level_after (chain g) None.

(** The volume node exists and, unless the engine is muted, was last
    sent to the configured volume. *)
Definition volume_in_step (g : Engine) : Prop :=
  hasNodes g = true /\
  (isMuted g = false -> level g = Some (Db (masterVolume (config g)))).

(** No node exists: the engine cannot be muted. *)
Definition before_init (g : Engine) : Prop :=
  hasNodes g = false /\ isMuted g = false /\ Synth.isInitialized (core g) = false.

(** Calls of the host on the audio chain. *)
Inductive call : Type :=
| SetVolume (db : Q)
| Mute
| Unmute
| SetReverbWet (wet : Q)
| SetReverbDecay (decay : Q)
| UpdateConfig (c : PartialConfig).

Definition exec (g : Engine) (c : call) : Engine :=
  match c with
  | SetVolume db => setVolume g db
  | Mute => mute g
  | Unmute => unmute g
  | SetReverbWet wet => setReverbWet g wet
  | SetReverbDecay decay => setReverbDecay g decay
  | UpdateConfig c' => updateConfig g c'
  end.

Definition run (g : Engine) (cs : list call) : Engine := fold_left exec cs g.

(** *** Presets ([src/presets/index.ts]) and the facade calls that use
    them ([src/index.ts]) *)

Record PresetPack : Type := {
  name : string;
  preset_voices : list (string * string);
  preset_reverbWet : Q;
  preset_reverbDecay : Q;
  preset_masterVolume : Q;
  defaultVelocity : Q
}.

Local Open Scope string_scope.

Definition ambient : PresetPack :=
  {| name := "ambient";
     preset_voices := [("drone", "pad"); ("pluck", "bell"); ("continuous", "synth");
                       ("arpeggio", "bell"); ("hoverSound", "bell"); ("chordPad", "pad")];
     preset_reverbWet := 35 # 100; preset_reverbDecay := 3;
     preset_masterVolume := -15; defaultVelocity := 5 # 10 |}.

Definition playful : PresetPack :=
  {| name := "playful";
     preset_voices := [("drone", "synth"); ("pluck", "pluck"); ("continuous", "synth");
                       ("arpeggio", "marimba"); ("hoverSound", "pluck");
                       ("chordPad", "synth")];
     preset_reverbWet := 15 # 100; preset_reverbDecay := 15 # 10;
     preset_masterVolume := -10; defaultVelocity := 75 # 100 |}.

Definition dramatic : PresetPack :=
  {| name := "dramatic";
     preset_voices := [("drone", "pad"); ("pluck", "synth"); ("continuous", "synth");
                       ("arpeggio", "synth"); ("hoverSound", "synth");
                       ("chordPad", "pad")];
     preset_reverbWet := 45 # 100; preset_reverbDecay := 4;
     preset_masterVolume := -8; defaultVelocity := 85 # 100 |}.

Definition glitchy : PresetPack :=
  {| name := "glitchy";
     preset_voices := [("drone", "synth"); ("pluck", "pluck"); ("continuous", "synth");
                       ("arpeggio", "pluck"); ("hoverSound", "pluck");
                       ("chordPad", "synth")];
     preset_reverbWet := 1 # 10; preset_reverbDecay := 8 # 10;
     preset_masterVolume := -12; defaultVelocity := 9 # 10 |}.

Definition presets : list (string * PresetPack) :=
  [("ambient", ambient); ("playful", playful); ("dramatic", dramatic);
   ("glitchy", glitchy)].

(** [getPreset(name)], that is [presets[name] || ambient]: [None] stands
    for an inherited member of [Object.prototype], which is truthy and
    has none of the fields of a preset. *)
Definition getPreset (n : string) : option PresetPack :=
  match Js.get_property presets n with
  | Js.Own preset => Some preset
  | Js.Inherited => None
  | Js.Undefined => Some ambient
  end.

Definition listPresets : list string := map fst presets.

(** The facade: [isEnabled], [currentPreset] and the engine. *)
Record SonicUX : Type := {
  isEnabled : bool;
  currentPreset : string;
  synthEngine : Engine
}.

Definition applyPreset (u : SonicUX) (n : string) : SonicUX :=
  let settings :=
    match getPreset n with
    | Some preset =>
        {| p_polyphony := None;
           p_masterVolume := Some (preset_masterVolume preset);
           p_reverbWet := Some (preset_reverbWet preset);
           p_reverbDecay := Some (preset_reverbDecay preset) |}
    | None =>
        {| p_polyphony := None; p_masterVolume := None; p_reverbWet := None;
           p_reverbDecay := None |}
    end in
  {| isEnabled := isEnabled u; currentPreset := currentPreset u;
     synthEngine := updateConfig (synthEngine u) settings |}.

Definition setPreset (u : SonicUX) (n : string) : SonicUX :=
  applyPreset {| isEnabled := isEnabled u; currentPreset := n;
                 synthEngine := synthEngine u |} n.

Definition enable (u : SonicUX) : SonicUX :=
  {| isEnabled := true; currentPreset := currentPreset u;
     synthEngine := unmute (synthEngine u) |}.

Definition disable (u : SonicUX) : SonicUX :=
  {| isEnabled := false; currentPreset := currentPreset u;
     synthEngine := mute (synthEngine u) |}.

End Mixer.

(** ** The behaviours that call the harmony manager and the synth
    engine.  A DOM element is named by a number. *)

(** [PluckBehavior.selectNote] ([src/behaviors/pluck.ts]) *)
Module Pluck.

Import Js Harmony.
Local Open Scope Z_scope.






End Pluck.

(** [ContinuousBehavior.calculateNoteFromPosition]
    ([src/behaviors/continuous.ts]): [x] is the pointer position across
    the element, 0 at its left edge and 1 at its right edge.  It is a
    quotient of two measurements, so any double, and the code floors
    the product [x * scale.length * 2] as the doubles round it. *)
Module Continuous.

Import Js Harmony.
Local Open Scope Z_scope.

(** A double.  [Finite m e] is [m * 2^e]; it is a double when [m] has
    53 bits or fewer and [e] is an exponent of the format.
    [NotFinite] stands for [NaN] and the two infinities. *)
Inductive double : Type :=
| Finite (mant expo : Z)
| NotFinite.

Definition representable (x : double) : Prop :=
  match x with
  | Finite m e => Z.abs m < 2 ^ 53 /\ -1074 <= e <= 971
  | NotFinite => True
  end.

(** [a / 2^k] rounded to the nearest integer, a tie to the even one
    ([0 <= a], [1 <= k]). *)
Definition round_half_even (a k : Z) : Z :=
  let q := Z.shiftr a k in
  let r := a mod 2 ^ k in
  let half := 2 ^ (k - 1) in
  if (half <? r) || ((r =? half) && Z.odd q) then q + 1 else q.

(** The double nearest to [p * 2^e]: [p] is cut to 53 bits. *)
Definition round53 (p e : Z) : Z * Z :=
  let a := Z.abs p in
  if a <? 2 ^ 53 then (p, e)
  else let k := Z.log2 a - 52 in (Z.sgn p * round_half_even a k, e + k).

(** [x * n] for an integer [n]: the exact product, rounded; a product
    of magnitude [2^1024] or more is an infinity.  An operand that is
    not finite gives a result that is not finite. *)
Definition times (x : double) (n : Z) : double :=
  match x with
  | NotFinite => NotFinite
  | Finite m e =>
      let '(q, e') := round53 (m * n) e in
      if negb (q =? 0) && (1024 <=? Z.log2 (Z.abs q) + e') then NotFinite
      else Finite q e'
  end.

(** [Math.floor(x)].  An infinity is passed on as [NaN]: as a degree
    either makes [getScaleNote] return [NaN]. *)
Definition Math_floor (x : double) : jsval :=
  match x with
  | Finite m e => Num (Z.shiftl m e)
  | NotFinite => NaN
  end.

Definition calculateNoteFromPosition (m : HarmonyManager) (x : double) (octave : Z)
  : completion jsval :=
  match getCurrentScale m with
  | Throw => Throw
  | Return sc =>
      let scaleDegree := Math_floor (times (times x (Z.of_nat (length sc))) 2) in
      getScaleNote m scaleDegree octave
  end.

(** *** Properties used in the statements *)

(** [x <= y] for finite doubles. *)
Definition double_le (x y : double) : Prop :=
  match x, y with
  | Finite mx ex, Finite my ey =>
      let E := Z.min ex ey in mx * 2 ^ (ex - E) <= my * 2 ^ (ey - E)
  | _, _ => False
  end.

(** The integer of 53 significant bits nearest to [P >= 0], a tie to
    the even significand. *)
Definition nearest53 (P : Z) : Z :=
  if P <? 2 ^ 53 then P
  else let k := Z.log2 P - 52 in round_half_even P k * 2 ^ k.

(** The position 0.14285714285714285, the double nearest to 1/7, and
    the position 0.75. *)
Definition one_seventh : double := Finite 5146971002709138 (-55).
Definition three_quarters : double := Finite 3 (-2).

End Continuous.

(** [ChordPadBehavior] ([src/behaviors/chord-pad.ts]): the handlers of
    [attach], on the notes of the chord once resolved to MIDI numbers. *)
Module ChordPad.

Import Synth.
Local Open Scope Z_scope.

(** [activeChords]: the voice ids stored for an element. *)
Record ChordPadBehavior : Type := {
  activeChords : gmap nat (list string)
}.

(** [chordNotes.forEach(note => voiceIds.push(playNote(note, volume,
    undefined, voice)))] *)
Definition play_chord (e : SynthEngine) (now : Z) (chordNotes : list Z)
    (volume : Q) (voice : string) : list string * SynthEngine :=
  fold_left
    (fun acc note =>
       let '(voiceId, e') := playNote (snd acc) now note volume None voice in
       ((fst acc ++ [voiceId])%list, e'))
    chordNotes ([], e).

Definition onEnter (b : ChordPadBehavior) (e : SynthEngine) (now : Z)
    (element : nat) (chordNotes : list Z) (volume : Q) (voice : string)
  : ChordPadBehavior * SynthEngine :=
  let '(voiceIds, e') := play_chord e now chordNotes volume voice in
  ({| activeChords := <[element := voiceIds]> (activeChords b) |}, e').

(** [voiceIds.forEach(voiceId => stopNote(voiceId, fadeOut))] *)
Definition stop_chord (e : SynthEngine) (now : Z) (voiceIds : list string)
    (fadeOut : Z) : SynthEngine :=
  fold_left (fun e' voiceId => stopNote e' now voiceId fadeOut) voiceIds e.

Definition onLeave (b : ChordPadBehavior) (e : SynthEngine) (now : Z)
    (element : nat) (fadeOut : Z) : ChordPadBehavior * SynthEngine :=
  match activeChords b !! element with
  | None => (b, e)
  | Some voiceIds =>
      ({| activeChords := delete element (activeChords b) |},
       stop_chord e now voiceIds fadeOut)
  end.

End ChordPad.

(** [EventEmitter] ([src/index.ts]): a [Map] from event names to [Set]s
    of callbacks; a [Set] lists its members once, in insertion order.  A
    callback is named by a number. *)
Module Emitter.

Record EventEmitter : Type := {
  events : gmap string (list nat)
}.

(** [Set.add] *)
Definition set_add (members : list nat) (x : nat) : list nat :=
  if existsb (Nat.eqb x) members then members else (members ++ [x])%list.

(** [Set.delete] *)
Definition set_delete (members : list nat) (x : nat) : list nat :=
  List.filter (fun y => negb (Nat.eqb y x)) members.

Definition on (t : EventEmitter) (event : string) (callback : nat) : EventEmitter :=
  let callbacks :=
    match events t !! event with
    | Some members => members
    | None => []
    end in
  {| events := <[event := set_add callbacks callback]> (events t) |}.

Definition off (t : EventEmitter) (event : string) (callback : nat) : EventEmitter :=
  match events t !! event with
  | Some members =>
      {| events := <[event := set_delete members callback]> (events t) |}
  | None => t
  end.

(** [emit(event, data)]: the callbacks called, in order. *)
Definition emit (t : EventEmitter) (event : string) : list nat :=
  match events t !! event with
  | Some members => members
  | None => []
  end.

(** The sets of the emitter list no callback twice. *)
Definition sets_ok (t : EventEmitter) : Prop :=
  forall event members, events t !! event = Some members -> List.NoDup members.

End Emitter.

(** * Properties of the harmony manager *)

Module HarmonyFacts.

Import Js Harmony.
Local Open Scope string_scope.
Local Open Scope Z_scope.

(** ** Projections of the record updates *)

Ltac updateKeyName_cases :=
  unfold updateKeyName;
  repeat match goal with
         | |- context [find ?f NOTE_MAP] => destruct (find f NOTE_MAP) as [[? ?]|]
         end;
  reflexivity.

Lemma updateKeyName_rootNote m : rootNote (updateKeyName m) = rootNote m.
Proof. updateKeyName_cases. Qed.

Lemma updateKeyName_chord m : chord (state (updateKeyName m)) = chord (state m).
Proof. updateKeyName_cases. Qed.

Lemma updateKeyName_isLocked m :
  isLocked (state (updateKeyName m)) = isLocked (state m).
Proof. updateKeyName_cases. Qed.

Lemma modulate_chord m t : chord (state (modulate m t)) = chord (state m).
Proof.
  destruct t; cbn [modulate];
    unfold modulateRelative, modulateDominant, modulateSubdominant;
    rewrite updateKeyName_chord; [|reflexivity|reflexivity].
  destruct (String.eqb (mode (state m)) "major"); [reflexivity|].
  destruct (String.eqb (mode (state m)) "minor"); reflexivity.
Qed.

Lemma modulate_isLocked m t : isLocked (state (modulate m t)) = isLocked (state m).
Proof.
  destruct t; cbn [modulate];
    unfold modulateRelative, modulateDominant, modulateSubdominant;
    rewrite updateKeyName_isLocked; [|reflexivity|reflexivity].
  destruct (String.eqb (mode (state m)) "major"); [reflexivity|].
  destruct (String.eqb (mode (state m)) "minor"); reflexivity.
Qed.

(** ** [getScaleNote] *)

Section ScaleNote.

Variable m : HarmonyManager.
Variable r : Z.
Variable sc : list Z.
Hypothesis Hroot : rootNote m = Num r.
Hypothesis Hscale : scale (state m) = Some sc.
Hypothesis Hne : sc <> [].

Let len := Z.of_nat (length sc).

Lemma scale_length_pos : 0 < len.
Proof. subst len. destruct sc; [congruence|cbn [length]; lia]. Qed.

Lemma index_in_range k :
  0 <= k < len -> index sc (Num k) = Some (nth (Z.to_nat k) sc 0).
Proof.
  intros Hk. cbn [index].
  destruct (Z.ltb_spec k 0) as [Hlt|_]; [lia|].
  apply nth_error_nth'. subst len. lia.
Qed.

(** For a degree that is not negative the code computes the pitch of the
    specification. *)
Lemma getScaleNote_nonneg d octave :
  0 <= d ->
  getScaleNote m (Num d) octave = Return (Num (getScaleNote_spec r sc d octave)).
Proof.
  intros Hd. pose proof scale_length_pos as Hlen.
  unfold getScaleNote, getScaleNote_spec. rewrite Hscale, Hroot.
  fold len. cbn [floor_div rem].
  destruct (Z.eqb_spec len 0) as [H0|_]; [lia|].
  rewrite Z.rem_mod_nonneg by lia.
  rewrite index_in_range by (apply Z.mod_pos_bound; lia).
  cbn [of_option add mul]. unfold MIDDLE_C. do 2 f_equal. ring.
Qed.

(** A negative degree that is not a multiple of the scale length reads
    the scale at a negative index: the result is [NaN]. *)
Lemma getScaleNote_negative d octave :
  d < 0 -> d mod len <> 0 ->
  getScaleNote m (Num d) octave = Return NaN.
Proof.
  intros Hd Hmod. pose proof scale_length_pos as Hlen.
  unfold getScaleNote. rewrite Hscale, Hroot.
  fold len. cbn [floor_div rem].
  destruct (Z.eqb_spec len 0) as [H0|_]; [lia|].
  assert (Hrem : Z.rem d len < 0).
  { pose proof (Z.rem_bound_pos_neg d len ltac:(lia) ltac:(lia)) as Hb.
    destruct (Z.eq_dec (Z.rem d len) 0) as [E|E]; [|lia].
    exfalso. apply Hmod. apply Z.rem_divide in E; [|lia].
    apply Z.mod_divide; [lia|exact E]. }
  cbn [index]. destruct (Z.ltb_spec (Z.rem d len) 0) as [_|Hge]; [|lia].
  reflexivity.
Qed.

End ScaleNote.

(** C4, at a negative degree.  In C major [getScaleNote(-1, 4)] reads
    [scale[-1]], which is [undefined], and returns [NaN]; the pitch the
    specification gives there is 59 (the B below middle C). *)
Theorem getScaleNote_negative_degree_is_NaN :
  getScaleNote C_major (Num (-1)) 4 = Return NaN /\
  getScaleNote_spec 0 [0; 2; 4; 5; 7; 9; 11] (-1) 4 = 59.
Proof. split; reflexivity. Qed.

(** ** [quantizeToScale] on the tones of the scale *)

(** A tone of the active mode, an interval [iv] above the root in octave
    4, is returned unchanged when [root + iv] stays below 12, and an
    octave higher otherwise: the octave is taken from the note, the
    interval from the root. *)
Lemma quantize_scale_tone m r name def iv :
  root_is m r ->
  In (name, def) MODES ->
  scale (state m) = Some (intervals def) ->
  In iv (intervals def) ->
  quantizeToScale m (Num (60 + r + iv)) =
  Return (Num (if r + iv <? 12 then 60 + r + iv else 72 + r + iv)).
Proof.
  intros [Hroot Hr] Hmode Hscale Hiv.
  unfold quantizeToScale. rewrite Hroot, Hscale. clear Hroot Hscale.
  assert (Hin : In r [0; 1; 2; 3; 4; 5; 6; 7; 8; 9; 10; 11]) by (cbn [In]; lia).
  clear Hr. cbn [In] in Hin. cbn [In MODES] in Hmode.
  repeat (destruct Hmode as [Hmode|Hmode];
          [injection Hmode as <- <-; cbn [In intervals] in Hiv|]);
    try contradiction;
    repeat (destruct Hiv as [<-|Hiv]); try contradiction;
    repeat (destruct Hin as [<-|Hin]); try contradiction; reflexivity.
Qed.

(** C3, in B major.  The tonic chord is [71, 75, 78]; its third, 75, is a
    tone of the scale, and [quantizeToScale(75)] returns 87. *)
Theorem quantize_moves_chord_tone :
  getChord B_major "I" 4 = Return [Num 71; Num 75; Num 78] /\
  quantizeToScale B_major (Num 75) = Return (Num 87).
Proof. split; reflexivity. Qed.

(** ** Modulation *)

Lemma rem12_shift r k :
  0 <= r < 12 -> 0 <= k ->
  rem (add (Num r) (Num k)) 12 = Num ((r + k) mod 12).
Proof.
  intros Hr Hk. cbn [add rem].
  change (12 =? 0) with false. cbn iota.
  rewrite Z.rem_mod_nonneg by lia. reflexivity.
Qed.

(** Modulation keeps the root a pitch class. *)
Lemma modulate_root_is m r t : root_is m r -> exists r', root_is (modulate m t) r'.
Proof.
  intros [Hroot Hr].
  assert (Hshift : forall k, 0 <= k ->
            root_is (with_rootNote m (rem (add (rootNote m) (Num k)) 12))
                    ((r + k) mod 12)).
  { intros k Hk. split; [|apply Z.mod_pos_bound; lia].
    cbn [rootNote with_rootNote]. rewrite Hroot. apply rem12_shift; lia. }
  unfold root_is.
  destruct t; cbn [modulate];
    unfold modulateRelative, modulateDominant, modulateSubdominant;
    rewrite updateKeyName_rootNote.
  - destruct (String.eqb (mode (state m)) "major");
      [exists ((r + 9) mod 12); apply (Hshift 9); lia|].
    destruct (String.eqb (mode (state m)) "minor");
      [exists ((r + 3) mod 12); apply (Hshift 3); lia|].
    exists r. split; assumption.
  - exists ((r + 7) mod 12). apply (Hshift 7). lia.
  - exists ((r + 5) mod 12). apply (Hshift 5). lia.
Qed.

(** C9.  From a root that is a pitch class, [modulate('dominant')] moves
    the root to [(root + 7) mod 12], [modulate('subdominant')] to
    [(root + 5) mod 12], and a dominant modulation followed by a
    subdominant one gives the root back. *)
Theorem modulate_dominant_then_subdominant m r :
  root_is m r ->
  rootNote (modulate m dominant) = Num ((r + 7) mod 12) /\
  rootNote (modulate m subdominant) = Num ((r + 5) mod 12) /\
  rootNote (modulate (modulate m dominant) subdominant) = Num r.
Proof.
  intros [Hroot Hr].
  assert (Hdom : rootNote (modulate m dominant) = Num ((r + 7) mod 12)).
  { cbn [modulate]. unfold modulateDominant.
    rewrite updateKeyName_rootNote. cbn [rootNote with_rootNote].
    rewrite Hroot. apply rem12_shift; lia. }
  split; [exact Hdom|]. split.
  - cbn [modulate]. unfold modulateSubdominant.
    rewrite updateKeyName_rootNote. cbn [rootNote with_rootNote].
    rewrite Hroot. apply rem12_shift; lia.
  - cbn [modulate] in *. unfold modulateSubdominant.
    rewrite updateKeyName_rootNote. cbn [rootNote with_rootNote].
    rewrite Hdom. rewrite rem12_shift; [|apply Z.mod_pos_bound; lia|lia].
    f_equal. rewrite Zplus_mod_idemp_l.
    replace (r + 7 + 5) with (r + 1 * 12) by ring.
    rewrite Z_mod_plus_full. apply Z.mod_small. exact Hr.
Qed.

Lemma modulate_dominant_then_subdominant_witness :
  rootNote (modulate (modulate B_major dominant) subdominant) = Num 11.
Proof.
  apply (modulate_dominant_then_subdominant B_major 11).
  split; [reflexivity|lia].
Defined.

(** ** Chords *)

Lemma getScaleNote_ext m1 m2 d octave :
  rootNote m1 = rootNote m2 -> scale (state m1) = scale (state m2) ->
  getScaleNote m1 d octave = getScaleNote m2 d octave.
Proof. intros Hr Hs. unfold getScaleNote. rewrite Hr, Hs. reflexivity. Qed.

Lemma buildChord_ext m1 m2 roman octave :
  rootNote m1 = rootNote m2 -> scale (state m1) = scale (state m2) ->
  buildChord m1 roman octave = buildChord m2 roman octave.
Proof.
  intros Hr Hs. unfold buildChord, buildChord_with, triad.
  assert (E : forall d, getScaleNote m1 d octave = getScaleNote m2 d octave)
    by (intros d; apply getScaleNote_ext; assumption).
  destruct (get_property ROMAN_TO_DEGREE roman) as [info| |];
    [destruct (type info)| |destruct (get_property ROMAN_TO_DEGREE "I") as [info| |];
                             [destruct (type info)| |]];
    rewrite ?E; reflexivity.
Qed.

Lemma triad_defined m sc d octave :
  scale (state m) = Some sc -> exists c, triad m d octave = Return c.
Proof.
  intros Hs. unfold triad, getScaleNote. rewrite Hs. cbn [bind]. eauto.
Qed.

(** With a scale in place [buildChord] returns a chord for every label. *)
Lemma buildChord_defined m sc roman octave :
  scale (state m) = Some sc -> exists c, buildChord m roman octave = Return c.
Proof.
  intros Hs. unfold buildChord.
  change (get_property ROMAN_TO_DEGREE "I")
    with (Own {| degree := 0; type := major |}).
  destruct (get_property ROMAN_TO_DEGREE roman) as [info| |];
    cbn [buildChord_with type]; [destruct (type info)| |];
    eapply triad_defined; eassumption.
Qed.

(** Unlocked, [setKey] with a mode that has intervals stores the tonic
    triad of the new key. *)
Lemma setKey_unlocked m k md sc :
  isLocked (state m) = false ->
  mode_intervals md = Some sc ->
  fst (setKey m k md) = Return tt /\
  buildChord (snd (setKey m k md)) "I" 4
  = Return (chord (state (snd (setKey m k md)))) /\
  rootNote (snd (setKey m k md)) = note_or_zero k /\
  scale (state (snd (setKey m k md))) = Some sc.
Proof.
  intros Hl Hmd. unfold setKey.
  cbn [isLocked state with_state with_scale with_mode with_key with_rootNote].
  rewrite Hl, Hmd. cbn [negb].
  match goal with |- context [buildChord ?m2 "I" 4] => set (m2' := m2) end.
  destruct (buildChord_defined m2' sc "I" 4 eq_refl) as [c Hc].
  rewrite Hc. cbn [fst snd]. split; [reflexivity|]. split; [|split; reflexivity].
  cbn [state chord with_state with_chord].
  rewrite <- Hc. apply buildChord_ext; reflexivity.
Qed.

(** ** The lock *)

Lemma setKey_locked m k md :
  isLocked (state m) = true ->
  setKey m k md =
  (Return tt,
   {| state := {| key := k; mode := md; scale := mode_intervals md;
                  chord := chord (state m); isLocked := true |};
      rootNote := note_or_zero k;
      chordPool := chordPool m |}).
Proof.
  intros Hl. unfold setKey.
  cbn [isLocked state with_state with_scale with_mode with_key with_rootNote].
  rewrite Hl. cbn [negb].
  unfold with_state, with_rootNote, with_scale, with_mode, with_key.
  cbn [state key mode scale chord isLocked rootNote chordPool].
  rewrite Hl. reflexivity.
Qed.

(** A call that neither unlocks nor writes the chord by hand keeps a
    locked manager locked and its chord in place. *)
Lemma exec_locked m c :
  is_unlock c = false ->
  isLocked (state m) = true ->
  isLocked (state (exec m c)) = true.
Proof.
  intros Hc Hl. destruct c; try discriminate Hc; cbn [exec].
  - rewrite setKey_locked by exact Hl. reflexivity.
  - exact Hl.
  - exact Hl.
  - unfold setChordFromRoman. rewrite Hl. exact Hl.
  - reflexivity.
  - rewrite modulate_isLocked. exact Hl.
  - exact Hl.
Qed.

Lemma run_locked cs : forall m,
  existsb is_unlock cs = false ->
  isLocked (state m) = true ->
  isLocked (state (run m cs)) = true.
Proof.
  induction cs as [|c cs IH]; intros m Hcs Hl; [exact Hl|].
  cbn [existsb] in Hcs. apply orb_false_iff in Hcs as [Hc Hcs].
  cbn [run fold_left]. fold (run (exec m c) cs).
  apply IH; [exact Hcs|]. apply exec_locked; assumption.
Qed.

(** ** What the names stand for *)

Lemma own_degree_range roman info :
  own_property ROMAN_TO_DEGREE roman = Some info -> 0 <= degree info <= 6.
Proof.
  unfold ROMAN_TO_DEGREE. cbn [own_property].
  repeat (destruct (String.eqb _ roman);
          [intros [= <-]; cbn [degree]; lia|]).
  discriminate.
Qed.

Lemma get_property_own {A} (table : list (string * A)) name a :
  get_property table name = Own a -> own_property table name = Some a.
Proof.
  unfold get_property. destruct (own_property table name); [congruence|].
  destruct (in_prototype name); discriminate.
Qed.

Lemma key_root_note k r : key_root k r -> note_or_zero k = Num r.
Proof. unfold note_or_zero. intros [->|[-> ->]]; reflexivity. Qed.

Lemma mode_scale_intervals md sc : mode_scale md sc -> mode_intervals md = Some sc.
Proof. unfold mode_intervals. intros [(d & -> & ->)|[-> ->]]; reflexivity. Qed.

(** Every mode of the table has five intervals or more. *)
Lemma mode_scale_length md sc : mode_scale md sc -> (5 <= length sc)%nat.
Proof.
  intros [(d & Hown & ->)|[_ ->]]; [|cbn [length]; lia].
  apply get_property_own in Hown. revert Hown.
  unfold MODES. cbn [own_property].
  repeat (destruct (String.eqb _ md);
          [intros [= <-]; cbn [intervals MODES_major MODES_minor length]; lia|]).
  discriminate.
Qed.

(** With a numeric root and a scale that is not empty, the three notes
    the code builds at a degree that is not negative are the triad of
    the specification. *)
Lemma triad_numeric m r sc d octave :
  rootNote m = Num r -> scale (state m) = Some sc -> sc <> [] -> 0 <= d ->
  triad m (Num d) octave = Return (triad_spec r sc d octave).
Proof.
  intros Hr Hs Hne Hd. unfold triad. cbn [add].
  rewrite !(getScaleNote_nonneg m r sc Hr Hs Hne) by lia. reflexivity.
Qed.

Lemma buildChord_label m r sc roman d octave :
  rootNote m = Num r -> scale (state m) = Some sc -> sc <> [] ->
  label_degree roman d ->
  0 <= d <= 6 /\ buildChord m roman octave = Return (triad_spec r sc d octave).
Proof.
  intros Hr Hs Hne [(info & Hown & ->)|[Hund ->]]; unfold buildChord.
  - rewrite Hown. cbn [buildChord_with].
    pose proof (own_degree_range roman info (get_property_own _ _ _ Hown)) as Hd.
    split; [exact Hd|].
    destruct (type info); apply triad_numeric; (assumption || lia).
  - rewrite Hund.
    change (get_property ROMAN_TO_DEGREE "I")
      with (Own {| degree := 0; type := major |}).
    cbn [buildChord_with type degree]. split; [lia|].
    apply triad_numeric; (assumption || lia).
Qed.

(** The tonic triad in octave 4, for a scale of five intervals or more. *)
Lemma triad_spec_tonic r sc :
  (5 <= length sc)%nat ->
  triad_spec r sc 0 4 =
  [Num (60 + r + nth 0 sc 0); Num (60 + r + nth 2 sc 0); Num (60 + r + nth 4 sc 0)].
Proof.
  intros Hlen. unfold triad_spec, getScaleNote_spec.
  rewrite !Z.mod_small, !Z.div_small by lia.
  change (Z.to_nat 0) with 0%nat. change (Z.to_nat (0 + 2)) with 2%nat.
  change (Z.to_nat (0 + 4)) with 4%nat.
  f_equal; [f_equal; ring|]. f_equal; [f_equal; ring|]. f_equal. f_equal. ring.
Qed.

(** Unlocked, [setKey] with names that stand for a root and a scale
    stores them and the tonic triad of the new key. *)
Lemma setKey_unlocked_chord m k md r sc :
  isLocked (state m) = false -> key_root k r -> mode_scale md sc ->
  setKey m k md =
  (Return tt,
   {| state := {| key := k; mode := md; scale := Some sc;
                  chord := triad_spec r sc 0 4; isLocked := false |};
      rootNote := Num r;
      chordPool := chordPool m |}).
Proof.
  intros Hl Hk Hmd. unfold setKey.
  cbn [isLocked state with_state with_scale with_mode with_key with_rootNote].
  rewrite Hl, (key_root_note k r Hk), (mode_scale_intervals md sc Hmd). cbn [negb].
  match goal with |- context [buildChord ?m2 "I" 4] => set (m2' := m2) end.
  assert (Hne : sc <> []).
  { pose proof (mode_scale_length md sc Hmd). destruct sc; [cbn in *; lia|discriminate]. }
  destruct (buildChord_label m2' r sc "I" 0 4 eq_refl eq_refl Hne) as [_ Hb].
  { left. eexists. split; reflexivity. }
  rewrite Hb. subst m2'.
  unfold with_state, with_rootNote, with_scale, with_mode, with_key, with_chord.
  cbn [state rootNote chordPool key mode scale chord isLocked].
  rewrite Hl. reflexivity.
Qed.

(** C6.  Once [lockHarmony()] was called, and whatever is called after
    it short of [unlockHarmony()] ([setChord] included), [setKey(k, md)]
    returns, stores the key, the mode, the root and the intervals the
    names stand for, and leaves the stored chord exactly as it was; so
    does [setChordFromRoman].  [setChord] stores its notes under the
    lock, and a following [setKey] keeps them.  After [unlockHarmony()]
    the same [setKey] stores the tonic triad of the new key: root plus
    the first, third and fifth interval, above middle C. *)
Theorem locked_setKey_keeps_chord m cs k md :
  existsb is_unlock cs = false ->
  let locked := run (lockHarmony m) cs in
  let after := snd (setKey locked k md) in
  isLocked (state locked) = true /\
  fst (setKey locked k md) = Return tt /\
  chord (state after) = chord (state locked) /\
  isLocked (state after) = true /\
  key (state after) = k /\
  mode (state after) = md /\
  (forall r, key_root k r -> rootNote after = Num r) /\
  (forall sc, mode_scale md sc -> scale (state after) = Some sc) /\
  (forall roman octave, setChordFromRoman locked roman octave = (Return tt, locked)) /\
  (forall notes,
     chord (state (setChord locked notes)) = notes /\
     chord (state (snd (setKey (setChord locked notes) k md))) = notes) /\
  (forall r sc, key_root k r -> mode_scale md sc ->
     let unlocked := snd (setKey (unlockHarmony locked) k md) in
     chord (state unlocked) =
     [Num (60 + r + nth 0 sc 0); Num (60 + r + nth 2 sc 0);
      Num (60 + r + nth 4 sc 0)]).
Proof.
  intros Hcs locked after.
  pose proof (run_locked cs (lockHarmony m) Hcs eq_refl) as Hl.
  fold locked in Hl. subst after.
  rewrite (setKey_locked locked k md Hl).
  cbn [fst snd state chord scale key mode rootNote isLocked].
  split; [exact Hl|]. do 5 (split; [reflexivity|]).
  split; [intros r Hr; exact (key_root_note k r Hr)|].
  split; [intros sc Hsc; exact (mode_scale_intervals md sc Hsc)|].
  split.
  { intros roman octave. unfold setChordFromRoman. rewrite Hl. reflexivity. }
  split.
  { intros notes. split; [reflexivity|].
    rewrite (setKey_locked (setChord locked notes) k md Hl). reflexivity. }
  intros r sc Hr Hsc.
  rewrite (setKey_unlocked_chord (unlockHarmony locked) k md r sc eq_refl Hr Hsc).
  cbn [snd state chord]. apply triad_spec_tonic.
  exact (mode_scale_length md sc Hsc).
Qed.

Lemma locked_setKey_keeps_chord_witness :
  let cs := [Modulate dominant; SetChord [Num 50; Num 57; Num 62]; SetScale [0; 7]] in
  let locked := run (lockHarmony C_major) cs in
  let after := snd (setKey locked "A" "minor") in
  let unlocked := snd (setKey (unlockHarmony locked) "A" "minor") in
  chord (state after) = [Num 50; Num 57; Num 62] /\
  rootNote after = Num 9 /\
  scale (state after) = Some [0; 2; 3; 5; 7; 8; 10] /\
  chord (state unlocked) = [Num 69; Num 72; Num 76].
Proof.
  intros cs locked after unlocked.
  destruct (locked_setKey_keeps_chord C_major cs "A" "minor" eq_refl)
    as (_ & _ & Hkeep & _ & _ & _ & Hroot & Hscale & _ & _ & Hunlocked).
  split; [exact Hkeep|]. split; [|split].
  - apply Hroot. left. reflexivity.
  - apply Hscale. left. exists MODES_minor. split; reflexivity.
  - apply (Hunlocked 9 [0; 2; 3; 5; 7; 8; 10]).
    + left. reflexivity.
    + left. exists MODES_minor. split; reflexivity.
Defined.

(** ** The stored chord and the current key *)







(** ** Names the tables do not have *)

(** A name that is neither an entry of the table nor a member of
    [Object.prototype] takes the default: root 0, the major intervals,
    the chord of ['I']. *)
Lemma undefined_name_defaults name m octave :
  in_prototype name = false ->
  (own_property NOTE_MAP name = None -> note_or_zero name = Num 0) /\
  (own_property MODES name = None ->
   mode_intervals name = Some [0; 2; 4; 5; 7; 9; 11]) /\
  (own_property ROMAN_TO_DEGREE name = None ->
   buildChord m name octave = buildChord m "I" octave).
Proof.
  intros Hp. unfold note_or_zero, mode_intervals, buildChord, get_property.
  rewrite Hp. repeat split; intros ->; reflexivity.
Qed.

(** C10, at names that [Object.prototype] has.  [MODES['constructor']] is
    the inherited [Object] function, not [undefined]: [setKey('C',
    'constructor')] stores [undefined] as the scale and throws while it
    rebuilds the chord.  [NOTE_MAP['toString']] is a function, stored as
    the root.  [getChord('constructor', 4)] is not the tonic chord. *)
Theorem setKey_inherited_name_no_default :
  fst (setKey C_major "C" "constructor") = Throw /\
  scale (state (snd (setKey C_major "C" "constructor"))) = None /\
  rootNote (snd (setKey C_major "toString" "major")) = NonNumber /\
  getChord C_major "constructor" 4 = Return [NaN; NaN; NaN] /\
  getChord C_major "I" 4 = Return [Num 60; Num 64; Num 67].
Proof. repeat split; reflexivity. Qed.

End HarmonyFacts.

(** * Properties of the synth engine *)

Module SynthFacts.

Import Synth.
Local Open Scope string_scope.
Local Open Scope Z_scope.

(** ** The [Map] of active voices *)

Lemma map_get_delete {A} (m : list (string * A)) k : map_get (map_delete m k) k = None.
Proof.
  induction m as [|[k' v'] m IH]; [reflexivity|]. cbn [map_delete].
  destruct (String.eqb k' k) eqn:E; [exact IH|].
  cbn [map_get]. rewrite E. exact IH.
Qed.

Lemma map_get_not_in {A} (m : list (string * A)) k :
  ~ In k (map fst m) -> map_get m k = None.
Proof.
  induction m as [|[k' v'] m IH]; intros Hn; [reflexivity|].
  cbn [map_get]. destruct (String.eqb_spec k' k) as [->|_].
  - exfalso. apply Hn. left. reflexivity.
  - apply IH. intros Hin. apply Hn. right. exact Hin.
Qed.


Lemma map_set_keys {A} (m : list (string * A)) k v :
  map fst (map_set m k v) =
  if existsb (String.eqb k) (map fst m) then map fst m else (map fst m ++ [k])%list.
Proof.
  induction m as [|[k' v'] m IH]; [reflexivity|].
  cbn [map_set map fst existsb]. rewrite (String.eqb_sym k k').
  destruct (String.eqb_spec k' k) as [->|Hne]; [reflexivity|].
  cbn [orb map fst]. rewrite IH.
  destruct (existsb (String.eqb k) (map fst m)); reflexivity.
Qed.

Lemma map_delete_subset {A} (m : list (string * A)) k entry :
  In entry (map_delete m k) -> In entry m.
Proof.
  induction m as [|[k' v'] m IH]; [intros []|]. cbn [map_delete].
  destruct (String.eqb k' k).
  - intros H. right. exact (IH H).
  - intros [<-|H]; [left; reflexivity|right; exact (IH H)].
Qed.

Lemma map_delete_keys_NoDup {A} (m : list (string * A)) k :
  List.NoDup (map fst m) -> List.NoDup (map fst (map_delete m k)).
Proof.
  induction m as [|[k' v'] m IH]; [intros H; exact H|].
  cbn [map fst map_delete]. intros H. inversion H as [|? ? Hn Hd]; subst.
  destruct (String.eqb k' k); [exact (IH Hd)|].
  cbn [map fst]. constructor; [|exact (IH Hd)].
  intros Hin. apply Hn. apply in_map_iff in Hin as ([k1 v1] & <- & Hin).
  apply in_map_iff. exists (k1, v1). split; [reflexivity|].
  exact (map_delete_subset m k _ Hin).
Qed.

Lemma voice_id_not_empty n : voice_id n <> "".
Proof. unfold voice_id. cbn [append]. discriminate. Qed.

(** ** The registry of a running engine *)

Lemma map_set_registry_ok m n voice :
  registry_ok m -> registry_ok (map_set m (voice_id n) voice).
Proof.
  intros [Hd Hne]. split.
  - rewrite map_set_keys.
    destruct (existsb (String.eqb (voice_id n)) (map fst m)) eqn:E; [exact Hd|].
    apply List.NoDup_app; [exact Hd|constructor; [intros []|constructor]|].
    intros k Hin [<-|[]].
    assert (existsb (String.eqb (voice_id n)) (map fst m) = true); [|congruence].
    apply existsb_exists. exists (voice_id n). split; [exact Hin|apply String.eqb_refl].
  - clear Hd. induction m as [|[k' v'] m IH]; cbn [map_set].
    + constructor; [apply voice_id_not_empty|constructor].
    + inversion Hne as [|? ? Hk Hrest]; subst.
      destruct (String.eqb k' (voice_id n)).
      * constructor; [apply voice_id_not_empty|exact Hrest].
      * constructor; [exact Hk|exact (IH Hrest)].
Qed.

Lemma map_delete_registry_ok m k : registry_ok m -> registry_ok (map_delete m k).
Proof.
  intros [Hd Hne]. split; [apply map_delete_keys_NoDup; exact Hd|].
  apply List.Forall_forall. intros entry Hin.
  apply (proj1 (List.Forall_forall _ _) Hne). exact (map_delete_subset m k _ Hin).
Qed.

Lemma stopNote_activeVoices e now voiceId releaseTime :
  activeVoices (stopNote e now voiceId releaseTime) = activeVoices e.
Proof.
  unfold stopNote. destruct (map_get (activeVoices e) voiceId); reflexivity.
Qed.

Lemma stealVoice_activeVoices e now :
  activeVoices (stealVoice e now) = activeVoices e.
Proof.
  unfold stealVoice. destruct (oldest (activeVoices e)) as [k|]; [|reflexivity].
  destruct (String.eqb k ""); [reflexivity|apply stopNote_activeVoices].
Qed.

Lemma stopAllNotes_activeVoices e now :
  activeVoices (stopAllNotes e now) = activeVoices e.
Proof.
  unfold stopAllNotes. generalize (map fst (activeVoices e)) as ks.
  intros ks. revert e. induction ks as [|k ks IH]; intros e; [reflexivity|].
  cbn [fold_left]. rewrite IH. apply stopNote_activeVoices.
Qed.

Lemma cleanupVoice_registry_ok e voiceId :
  registry_ok (activeVoices e) -> registry_ok (activeVoices (cleanupVoice e voiceId)).
Proof.
  intros H. unfold cleanupVoice.
  destruct (map_get (activeVoices e) voiceId); [|exact H].
  cbn [activeVoices with_activeVoices call_backend].
  apply map_delete_registry_ok. exact H.
Qed.

(** [stealVoice] writes to the backend and to the timers only. *)
Lemma stealVoice_frame e now :
  voices (stealVoice e now) = voices e /\
  nextVoiceId (stealVoice e now) = nextVoiceId e /\
  isInitialized (stealVoice e now) = isInitialized e /\
  polyphony (stealVoice e now) = polyphony e.
Proof.
  unfold stealVoice. destruct (oldest (activeVoices e)) as [k|]; [|repeat split].
  destruct (String.eqb k ""); [repeat split|].
  unfold stopNote. destruct (map_get (activeVoices e) k); repeat split.
Qed.

(** The end of [playNote], after the lookup of the voice: with or without
    a duration, with or without a callback. *)
Ltac playNote_tail e1 duration :=
  destruct duration as [?|];
  cbn [onNotePlayCallback setTimeout call_backend with_activeVoices with_nextVoiceId];
  destruct (onNotePlayCallback e1);
  cbn [snd activeVoices nextVoiceId isInitialized voices polyphony backend
       emit setTimeout call_backend with_activeVoices with_nextVoiceId].

(** What [playNote] does to the registry: nothing, or one [Map.set] of
    the new record; the ceiling plays no part. *)
Lemma playNote_activeVoices e now pitch vel duration name :
  activeVoices (snd (playNote e now pitch vel duration name)) =
  if isInitialized e then
    match voices e !! name with
    | Some _ =>
        map_set (activeVoices e) (voice_id (nextVoiceId e))
          {| id := voice_id (nextVoiceId e); synth := nextVoiceId e;
             startTime := now; note := pitch; velocity := vel |}
    | None => activeVoices e
    end
  else activeVoices e.
Proof.
  unfold playNote. destruct (isInitialized e); cbn [negb snd]; [|reflexivity].
  set (e1 := if map_size (activeVoices e) >=? polyphony e
             then stealVoice e now else e).
  assert (H1 : activeVoices e1 = activeVoices e /\ voices e1 = voices e /\
               nextVoiceId e1 = nextVoiceId e).
  { subst e1. destruct (map_size (activeVoices e) >=? polyphony e);
      [|repeat split].
    pose proof (stealVoice_frame e now) as (Hv & Hn & _).
    rewrite stealVoice_activeVoices. repeat split; assumption. }
  destruct H1 as (Ha & Hv & Hn). rewrite <- Hv, <- Ha, <- Hn.
  destruct (voices e1 !! name) as [def|]; [|reflexivity].
  playNote_tail e1 duration; reflexivity.
Qed.

(** The other fields [playNote] leaves or advances. *)
Lemma playNote_frame e now pitch vel duration name :
  voices (snd (playNote e now pitch vel duration name)) = voices e /\
  isInitialized (snd (playNote e now pitch vel duration name)) = isInitialized e /\
  polyphony (snd (playNote e now pitch vel duration name)) = polyphony e /\
  (nextVoiceId e <= nextVoiceId (snd (playNote e now pitch vel duration name)))%nat /\
  (isInitialized e = true -> is_Some (voices e !! name) ->
   nextVoiceId (snd (playNote e now pitch vel duration name)) = S (nextVoiceId e)).
Proof.
  unfold playNote. destruct (isInitialized e) eqn:Hinit; cbn [negb snd].
  2: { split; [reflexivity|]. split; [exact Hinit|]. split; [reflexivity|].
       split; [lia|]. intros H. discriminate H. }
  set (e1 := if map_size (activeVoices e) >=? polyphony e
             then stealVoice e now else e).
  assert (H1 : voices e1 = voices e /\ nextVoiceId e1 = nextVoiceId e /\
               isInitialized e1 = true /\ polyphony e1 = polyphony e).
  { subst e1. destruct (map_size (activeVoices e) >=? polyphony e).
    - pose proof (stealVoice_frame e now) as (Hv & Hn & Hi & Hp).
      repeat split; congruence.
    - repeat split; exact Hinit. }
  destruct H1 as (Hv & Hn & Hi & Hp). rewrite <- Hv, <- Hn, <- Hp.
  destruct (voices e1 !! name) as [def|]; cbn [snd].
  - playNote_tail e1 duration; repeat split; (exact Hi || lia).
  - repeat split; [exact Hi|lia|]. intros _ [x Hx]. discriminate Hx.
Qed.

Lemma playNote_registry_ok e now pitch vel duration name :
  registry_ok (activeVoices e) ->
  registry_ok (activeVoices (snd (playNote e now pitch vel duration name))).
Proof.
  intros H. rewrite playNote_activeVoices.
  destruct (isInitialized e); [|exact H].
  destruct (voices e !! name); [|exact H].
  apply map_set_registry_ok. exact H.
Qed.

(** The keys of the registry stay distinct and non-empty along a run. *)
Lemma step_registry_ok e now ev :
  registry_ok (activeVoices e) -> registry_ok (activeVoices (step e now ev)).
Proof.
  intros H. destruct ev as [n v d name|i r| |k]; cbn [step].
  - apply playNote_registry_ok. exact H.
  - rewrite stopNote_activeVoices. exact H.
  - rewrite stopAllNotes_activeVoices. exact H.
  - unfold fire. destruct (nth_error (timers e) k) as [[delay voiceId]|]; [|exact H].
    apply cleanupVoice_registry_ok. exact H.
Qed.

Lemma run_registry_ok evs : forall e,
  registry_ok (activeVoices e) -> registry_ok (activeVoices (run e evs)).
Proof.
  induction evs as [|[now ev] evs IH]; intros e H; [exact H|].
  cbn [run fold_left]. apply IH. apply step_registry_ok. exact H.
Qed.

(** ** The oldest voice *)









(** Below the ceiling [playNote] releases nothing: the calls it makes
    are those of the new synth. *)
Lemma playNote_below_ceiling e now pitch vel duration name definition :
  isInitialized e = true ->
  map_size (activeVoices e) < polyphony e ->
  voices e !! name = Some definition ->
  exists attack,
    backend (snd (playNote e now pitch vel duration name)) =
    (backend e ++ [Create definition (nextVoiceId e); Connect (nextVoiceId e); attack])%list.
Proof.
  intros Hinit Hlt Hvoice. unfold playNote. rewrite Hinit. cbn [negb].
  destruct (Z.geb_spec (map_size (activeVoices e)) (polyphony e)) as [Hge|_]; [lia|].
  rewrite Hvoice.
  playNote_tail e duration; eexists; rewrite <- !app_assoc; reflexivity.
Qed.

(** The voices allocated at 5, 2 and 9: the one allocated at 2 is
    released, its cleanup leaves the voices of 5 and 9, and a request at
    the ceiling releases it before the new synth is created. *)
(** ** The polyphony ceiling *)

(** C1, in the scenario of the specification: ceiling 2, voices A, B and
    C requested at 0 s, 1 s and 2 s.  The third request releases A but
    leaves it in the registry until its timer fires 1.05 s later: three
    voices are active, above the ceiling of two. *)
Theorem polyphony_ceiling_exceeded :
  polyphony three_requests = 2 /\
  getActiveVoiceCount three_requests = 3 /\
  map fst (activeVoices three_requests) = ["voice_0"; "voice_1"; "voice_2"] /\
  timers three_requests = [(1050, "voice_0")] /\
  map fst (activeVoices (fire three_requests 0)) = ["voice_1"; "voice_2"].
Proof. repeat split; reflexivity. Qed.

Lemma map_set_length {A} (m : list (string * A)) k v :
  (length m <= length (map_set m k v))%nat.
Proof.
  induction m as [|[k' v'] m IH]; cbn [map_set length]; [lia|].
  destruct (String.eqb k' k); cbn [length]; lia.
Qed.

(** No call of [playNote] takes a voice out of the registry, whatever the
    ceiling: only a timer does. *)
Lemma playNote_never_frees e now pitch vel duration name :
  getActiveVoiceCount e <= getActiveVoiceCount (snd (playNote e now pitch vel duration name)).
Proof.
  unfold getActiveVoiceCount, map_size. rewrite playNote_activeVoices.
  destruct (isInitialized e); [|lia].
  destruct (voices e !! name); [|lia].
  apply inj_le. apply map_set_length.
Qed.

Lemma voice_id_inj a b : voice_id a = voice_id b -> a = b.
Proof.
  unfold voice_id. cbn [append]. intros [= H].
  change (NilEmpty.string_of_uint (Nat.to_uint a)
          = NilEmpty.string_of_uint (Nat.to_uint b)) in H.
  apply (f_equal NilEmpty.uint_of_string) in H. rewrite !NilEmpty.usu in H.
  injection H as H. apply (f_equal Nat.of_uint) in H.
  rewrite !Unsigned.of_to in H. exact H.
Qed.

Lemma map_set_fresh {A} (m : list (string * A)) k v :
  map_get m k = None -> map_set m k v = (m ++ [(k, v)])%list.
Proof.
  induction m as [|[k' v'] m IH]; [reflexivity|]. cbn [map_get map_set app].
  destruct (String.eqb k' k); [discriminate|]. intros H. rewrite (IH H). reflexivity.
Qed.

Lemma next_id_fresh e :
  ids_minted e -> map_get (activeVoices e) (voice_id (nextVoiceId e)) = None.
Proof.
  intros H. apply map_get_not_in. intros Hin.
  apply in_map_iff in Hin as (entry & Hk & Hin).
  destruct (proj1 (List.Forall_forall _ _) H entry Hin) as (k & Hlt & Hid).
  rewrite Hid in Hk. apply voice_id_inj in Hk. lia.
Qed.

(** A request for a registered voice adds its record at the end of the
    registry, at the ceiling as below it. *)
Lemma playNote_appends e now pitch vel duration name definition :
  isInitialized e = true ->
  voices e !! name = Some definition ->
  ids_minted e ->
  let e' := snd (playNote e now pitch vel duration name) in
  activeVoices e' =
  (activeVoices e ++
   [(voice_id (nextVoiceId e),
     {| id := voice_id (nextVoiceId e); synth := nextVoiceId e;
        startTime := now; note := pitch; velocity := vel |})])%list /\
  isInitialized e' = true /\
  voices e' !! name = Some definition /\
  ids_minted e'.
Proof.
  intros Hinit Hvoice Hids e'.
  pose proof (playNote_frame e now pitch vel duration name)
    as (Hv & Hi & _ & _ & Hn).
  specialize (Hn Hinit (ex_intro _ definition Hvoice)).
  assert (Ha : activeVoices e' =
               (activeVoices e ++
                [(voice_id (nextVoiceId e),
                  {| id := voice_id (nextVoiceId e); synth := nextVoiceId e;
                     startTime := now; note := pitch; velocity := vel |})])%list).
  { subst e'. rewrite playNote_activeVoices, Hinit, Hvoice.
    apply map_set_fresh. apply next_id_fresh. exact Hids. }
  split; [exact Ha|]. split; [subst e'; congruence|].
  split; [subst e'; rewrite Hv; exact Hvoice|].
  unfold ids_minted. rewrite Ha. fold e' in Hn. rewrite Hn.
  apply List.Forall_app. split.
  - eapply List.Forall_impl; [|exact Hids]. cbn beta.
    intros entry (k & Hk & Hid). exists k. split; [lia|exact Hid].
  - constructor; [|constructor]. exists (nextVoiceId e). split; [lia|reflexivity].
Qed.

(** Requests that come faster than the cleanup timers fire pile up: from
    an empty engine, whatever its ceiling, [n] requests for sustained
    notes leave [n] active voices. *)
Lemma requests_accumulate ceiling pitch (nows : list Z) :
  getActiveVoiceCount
    (run (engine ceiling) (map (fun now => (now, sustained pitch)) nows))
  = Z.of_nat (length nows).
Proof.
  assert (G : forall e,
             isInitialized e = true -> voices e !! "synth" = Some 0%nat ->
             ids_minted e ->
             getActiveVoiceCount
               (run e (map (fun now => (now, sustained pitch)) nows))
             = getActiveVoiceCount e + Z.of_nat (length nows)).
  { induction nows as [|now nows IH]; intros e Hi Hv Hm.
    - cbn [map run fold_left length]. lia.
    - cbn [map run fold_left step sustained].
      destruct (playNote_appends e now pitch default_velocity None "synth" 0%nat
                  Hi Hv Hm) as (Ha & Hi' & Hv' & Hm').
      fold (run (snd (playNote e now pitch default_velocity None "synth"))
                (map (fun now => (now, sustained pitch)) nows)).
      rewrite (IH _ Hi' Hv' Hm').
      unfold getActiveVoiceCount, map_size. rewrite Ha, length_app.
      cbn [length]. lia. }
  rewrite (G (engine ceiling)); [reflexivity|reflexivity|reflexivity|constructor].
Qed.

(** ** An unregistered voice *)

(** Below the ceiling, [playNote] with a name that is not registered
    returns the empty string and leaves the engine as it was. *)
Lemma playNote_unregistered_below_ceiling e now pitch vel duration name :
  voices e !! name = None ->
  map_size (activeVoices e) < polyphony e ->
  playNote e now pitch vel duration name = ("", e).
Proof.
  intros Hv Hlt. unfold playNote. destruct (isInitialized e); [|reflexivity].
  cbn [negb].
  destruct (Z.geb_spec (map_size (activeVoices e)) (polyphony e)) as [Hge|_]; [lia|].
  rewrite Hv. reflexivity.
Qed.

(** C7, at the ceiling: ceiling 1 reached by one sustained voice, then
    [playNote(64, 0.7, undefined, 'nope')] with ['nope'] not registered.
    The call returns the empty string and stores no record, but the
    ceiling check comes before the lookup: the sounding voice is released
    and its cleanup scheduled, and the timer empties the registry. *)
Theorem playNote_unregistered_at_ceiling :
  voices one_voice !! "nope" = None /\
  fst (playNote one_voice 500 64 default_velocity None "nope") = "" /\
  activeVoices (snd (playNote one_voice 500 64 default_velocity None "nope"))
  = activeVoices one_voice /\
  backend (snd (playNote one_voice 500 64 default_velocity None "nope"))
  = (backend one_voice ++ [TriggerRelease 0 550])%list /\
  timers (snd (playNote one_voice 500 64 default_velocity None "nope"))
  = [(1050, "voice_0")] /\
  activeVoices (fire (snd (playNote one_voice 500 64 default_velocity None "nope")) 0)
  = [].
Proof. repeat split; reflexivity. Qed.

(** ** Stopping and disposing *)

(** C8 as stated fails on a voice that is released and not yet disposed:
    the second [stopNote] calls [triggerRelease] on the backend again. *)
Lemma stopNote_twice_differs :
  ~ (forall e now voiceId releaseTime,
       observable (stopNote (stopNote e now voiceId releaseTime) now voiceId releaseTime)
       = observable (stopNote e now voiceId releaseTime)).
Proof.
  intros H. specialize (H one_voice 10 "voice_0" DEFAULT_RELEASE).
  discriminate H.
Qed.

Lemma cleanupVoice_absent e voiceId :
  map_get (activeVoices e) voiceId = None -> cleanupVoice e voiceId = e.
Proof. intros H. unfold cleanupVoice. rewrite H. reflexivity. Qed.

Lemma cleanupVoice_removes e voiceId :
  map_get (activeVoices (cleanupVoice e voiceId)) voiceId = None.
Proof.
  unfold cleanupVoice. destruct (map_get (activeVoices e) voiceId) eqn:E; [|exact E].
  cbn [activeVoices with_activeVoices call_backend]. apply map_get_delete.
Qed.

(** C8, amended.  [stopNote] on an id that is not in the registry
    (unknown, or already disposed) changes nothing, and so does a second
    [cleanupVoice] of the same id.  [stopNote] never changes the
    registry; on a voice that is still registered a second
    [stopNote(id, t)] calls [triggerRelease] a second time and schedules
    a second cleanup. *)
Theorem stopNote_stale_or_repeated e now voiceId releaseTime :
  (map_get (activeVoices e) voiceId = None ->
   stopNote e now voiceId releaseTime = e) /\
  stopNote (cleanupVoice e voiceId) now voiceId releaseTime = cleanupVoice e voiceId /\
  cleanupVoice (cleanupVoice e voiceId) voiceId = cleanupVoice e voiceId /\
  activeVoices (stopNote (stopNote e now voiceId releaseTime) now voiceId releaseTime)
  = activeVoices (stopNote e now voiceId releaseTime) /\
  (forall voice, map_get (activeVoices e) voiceId = Some voice ->
     backend (stopNote (stopNote e now voiceId releaseTime) now voiceId releaseTime)
     = (backend e ++ [TriggerRelease (synth voice) (now + releaseTime);
                      TriggerRelease (synth voice) (now + releaseTime)])%list /\
     timers (stopNote (stopNote e now voiceId releaseTime) now voiceId releaseTime)
     = (timers e ++ [(releaseTime + 1000, voiceId); (releaseTime + 1000, voiceId)])%list).
Proof.
  assert (Hstale : forall e', map_get (activeVoices e') voiceId = None ->
                              stopNote e' now voiceId releaseTime = e').
  { intros e' H. unfold stopNote. rewrite H. reflexivity. }
  split; [apply Hstale|].
  split; [apply Hstale; apply cleanupVoice_removes|].
  split; [apply cleanupVoice_absent; apply cleanupVoice_removes|].
  split; [apply stopNote_activeVoices|].
  intros voice Hget. unfold stopNote. rewrite Hget.
  cbn [activeVoices setTimeout call_backend]. rewrite Hget.
  cbn [backend timers setTimeout call_backend].
  rewrite <- !app_assoc. split; reflexivity.
Qed.

Lemma stopNote_stale_or_repeated_witness :
  stopNote one_voice 10 "voice_7" DEFAULT_RELEASE = one_voice /\
  backend (stopNote (stopNote one_voice 10 "voice_0" DEFAULT_RELEASE) 10 "voice_0"
                    DEFAULT_RELEASE)
  = (backend one_voice ++ [TriggerRelease 0 110; TriggerRelease 0 110])%list.
Proof.
  split.
  - destruct (stopNote_stale_or_repeated one_voice 10 "voice_7" DEFAULT_RELEASE)
      as [Hstale _].
    apply Hstale. reflexivity.
  - destruct (stopNote_stale_or_repeated one_voice 10 "voice_0" DEFAULT_RELEASE)
      as (_ & _ & _ & _ & Hagain).
    apply (Hagain {| id := "voice_0"; synth := 0; startTime := 0; note := 60;
                     velocity := default_velocity |}).
    reflexivity.
Defined.

(** ** Stealing: release now, removal when the timer fires *)







End SynthFacts.

(** * Further properties of the harmony manager *)

Module HarmonyMore.

Import Js Harmony HarmonyFacts.
Local Open Scope string_scope.
Local Open Scope Z_scope.

(** ** Degrees, octaves and pitch order *)

Section Degrees.

Variable m : HarmonyManager.
Variable r : Z.
Variable sc : list Z.
Hypothesis Hroot : rootNote m = Num r.
Hypothesis Hscale : scale (state m) = Some sc.
Hypothesis Hne : sc <> [].

Let len := Z.of_nat (length sc).

Lemma len_pos : 0 < len.
Proof. subst len. destruct sc; [congruence|cbn [length]; lia]. Qed.


Lemma ascending_from_nth low l :
  ascending_from low l = true ->
  forall i, (i < length l)%nat ->
    low < nth i l 0 < 12 /\
    forall j, (i < j)%nat -> (j < length l)%nat -> nth i l 0 < nth j l 0.
Proof.
  revert low. induction l as [|iv rest IH]; intros low H i Hi; [cbn in Hi; lia|].
  cbn [ascending_from] in H.
  apply andb_true_iff in H as [H Hrest]. apply andb_true_iff in H as [Hlow Hhigh].
  apply Z.ltb_lt in Hlow, Hhigh.
  destruct i as [|i]; cbn [nth length] in *.
  - split; [lia|]. intros [|j] Hij Hj; [lia|].
    destruct (IH iv Hrest j ltac:(lia)) as [Hb _]. lia.
  - destruct (IH iv Hrest i ltac:(lia)) as [Hb Hinc]. split; [lia|].
    intros [|j] Hij Hj; [lia|]. apply Hinc; lia.
Qed.

Hypothesis Hasc : ascending_in_octave sc = true.

Lemma getScaleNote_spec_increasing d d' octave :
  0 <= d < d' ->
  getScaleNote_spec r sc d octave < getScaleNote_spec r sc d' octave.
Proof.
  intros Hd. pose proof len_pos as Hlen.
  unfold getScaleNote_spec. fold len.
  pose proof (Z.mod_pos_bound d len Hlen) as Hi.
  pose proof (Z.mod_pos_bound d' len Hlen) as Hi'.
  pose proof (Z.div_mod d len ltac:(lia)) as Ed.
  pose proof (Z.div_mod d' len ltac:(lia)) as Ed'.
  pose proof (Z.div_le_mono d d' len Hlen ltac:(lia)) as Hq.
  unfold ascending_in_octave in Hasc.
  destruct (ascending_from_nth (-1) sc Hasc (Z.to_nat (d mod len))
              ltac:(subst len; lia)) as [Hb Hinc].
  destruct (ascending_from_nth (-1) sc Hasc (Z.to_nat (d' mod len))
              ltac:(subst len; lia)) as [Hb' _].
  destruct (Z.eq_dec (d / len) (d' / len)) as [Eq|Nq].
  - rewrite <- Eq in *.
    assert (Hlt : nth (Z.to_nat (d mod len)) sc 0 < nth (Z.to_nat (d' mod len)) sc 0).
    { apply Hinc; [|subst len; lia]. apply Z2Nat.inj_lt; lia. }
    lia.
  - lia.
Qed.

(** X2.  On a scale that ascends within one octave (every mode of the
    table does), with a pitch class as the root, a higher degree is a
    higher pitch, for degrees from 0 to below 2^32 and octaves of
    magnitude below 2^32.  In that range the degree, the quotient, the
    summands and the pitches are integers of magnitude below 2^53,
    which the numbers of the code hold exactly. *)
Theorem getScaleNote_increasing d d' octave :
  0 <= r < 12 ->
  0 <= d < d' -> d' < 2 ^ 32 -> Z.abs octave < 2 ^ 32 ->
  exists p p',
    getScaleNote m (Num d) octave = Return (Num p) /\
    getScaleNote m (Num d') octave = Return (Num p') /\
    p < p' /\
    Z.abs p <= MAX_SAFE_INTEGER /\ Z.abs p' <= MAX_SAFE_INTEGER.
Proof.
  intros Hr Hd Hmax Hoct. pose proof len_pos as Hlen.
  exists (getScaleNote_spec r sc d octave), (getScaleNote_spec r sc d' octave).
  rewrite !(getScaleNote_nonneg m r sc Hroot Hscale Hne) by lia.
  split; [reflexivity|]. split; [reflexivity|].
  split; [apply getScaleNote_spec_increasing; exact Hd|].
  assert (Hbound : forall x, 0 <= x < 2 ^ 32 ->
            Z.abs (getScaleNote_spec r sc x octave) <= MAX_SAFE_INTEGER).
  { intros x Hx. unfold getScaleNote_spec. fold len.
    pose proof (Z.mod_pos_bound x len Hlen) as Hi.
    unfold ascending_in_octave in Hasc.
    destruct (ascending_from_nth (-1) sc Hasc (Z.to_nat (x mod len))
                ltac:(subst len; lia)) as [Hb _].
    pose proof (Z.div_pos x len ltac:(lia) Hlen) as Hq0.
    pose proof (Z.div_le_upper_bound x len x Hlen ltac:(nia)) as Hq.
    unfold MAX_SAFE_INTEGER.
    change (2 ^ 53 - 1) with 9007199254740991.
    change (2 ^ 32) with 4294967296 in *. lia. }
  split; apply Hbound; lia.
Qed.


End Degrees.

(** ** [quantizeToScale] *)




(** Every mode of the table ascends within one octave. *)
Lemma modes_ascending name def :
  In (name, def) MODES -> ascending_in_octave (intervals def) = true.
Proof.
  cbn [In MODES]. intros H.
  repeat (destruct H as [H|H]; [injection H as <- <-; reflexivity|]).
  contradiction.
Qed.


Lemma getScaleNote_increasing_witness :
  exists p p',
    getScaleNote B_major (Num 6) 4 = Return (Num p) /\
    getScaleNote B_major (Num 7) 4 = Return (Num p') /\
    p < p' /\
    Z.abs p <= MAX_SAFE_INTEGER /\ Z.abs p' <= MAX_SAFE_INTEGER.
Proof.
  apply (getScaleNote_increasing B_major 11 [0; 2; 4; 5; 7; 9; 11]
           eq_refl eq_refl ltac:(discriminate) eq_refl 6 7 4);
    [lia|lia|reflexivity|reflexivity].
Defined.



(** ** Chord labels *)

(** X5.  The quality of a label plays no part: two labels of the table
    on the same degree (['vi'] and ['VI'], ['vii'] and ['viio']) build
    the same chord. *)
Theorem buildChord_ignores_quality m roman1 roman2 info1 info2 octave :
  own_property ROMAN_TO_DEGREE roman1 = Some info1 ->
  own_property ROMAN_TO_DEGREE roman2 = Some info2 ->
  degree info1 = degree info2 ->
  buildChord m roman1 octave = buildChord m roman2 octave.
Proof.
  intros H1 H2 Hd. unfold buildChord, get_property. rewrite H1, H2.
  cbn [buildChord_with]. rewrite Hd.
  destruct (type info1), (type info2); reflexivity.
Qed.

Lemma buildChord_ignores_quality_witness :
  buildChord C_major "vii" 4 = buildChord C_major "viio" 4.
Proof.
  apply (buildChord_ignores_quality C_major "vii" "viio"
           {| degree := 6; type := minor |} {| degree := 6; type := diminished |});
    reflexivity.
Defined.

(** ** Key names *)

Lemma updateKeyName_mode m : mode (state (updateKeyName m)) = mode (state m).
Proof. updateKeyName_cases. Qed.

Lemma updateKeyName_scale m : scale (state (updateKeyName m)) = scale (state m).
Proof. updateKeyName_cases. Qed.

(** The name [updateKeyName] stores is a name of the root, and never a
    flat. *)
Lemma updateKeyName_key m r :
  root_is m r ->
  own_property NOTE_MAP (key (state (updateKeyName m))) = Some r /\
  includes (key (state (updateKeyName m))) "b"%char = false.
Proof.
  intros [Hroot Hr]. destruct m as [st root pool]. cbn [rootNote] in Hroot. subst root.
  assert (Hin : In r [0; 1; 2; 3; 4; 5; 6; 7; 8; 9; 10; 11]) by (cbn [In]; lia).
  cbn [In] in Hin.
  repeat (destruct Hin as [<-|Hin]); try contradiction; split; reflexivity.
Qed.

(** Every modulation ends with [updateKeyName] on a root that is a pitch
    class. *)
Lemma modulate_is_updateKeyName m r t :
  root_is m r ->
  exists m' r', modulate m t = updateKeyName m' /\ root_is m' r'.
Proof.
  intros [Hroot Hr].
  assert (Hshift : forall k, 0 <= k ->
            root_is (with_rootNote m (rem (add (rootNote m) (Num k)) 12))
                    ((r + k) mod 12)).
  { intros k Hk. split; [|apply Z.mod_pos_bound; lia].
    cbn [rootNote with_rootNote]. rewrite Hroot. apply rem12_shift; lia. }
  destruct t; cbn [modulate];
    unfold modulateRelative, modulateDominant, modulateSubdominant.
  - destruct (String.eqb (mode (state m)) "major").
    + eexists; exists ((r + 9) mod 12). split; [reflexivity|].
      apply (Hshift 9). lia.
    + destruct (String.eqb (mode (state m)) "minor").
      * eexists; exists ((r + 3) mod 12). split; [reflexivity|].
        apply (Hshift 3). lia.
      * exists m, r. split; [reflexivity|split; assumption].
  - eexists; exists ((r + 7) mod 12). split; [reflexivity|]. apply (Hshift 7). lia.
  - eexists; exists ((r + 5) mod 12). split; [reflexivity|]. apply (Hshift 5). lia.
Qed.

(** X6.  After a modulation from a root that is a pitch class, the key
    name is a name of the new root in [NOTE_MAP], and it is never a
    flat: a root without a natural name gets its sharp name. *)
Theorem modulate_key_name m r t :
  root_is m r ->
  exists r',
    root_is (modulate m t) r' /\
    own_property NOTE_MAP (key (state (modulate m t))) = Some r' /\
    includes (key (state (modulate m t))) "b"%char = false.
Proof.
  intros H. destruct (modulate_is_updateKeyName m r t H) as (m' & r' & -> & H').
  exists r'. split; [|apply updateKeyName_key; exact H'].
  destruct H' as [Hroot Hr]. split; [|exact Hr].
  rewrite updateKeyName_rootNote. exact Hroot.
Qed.

Lemma modulate_key_name_witness :
  exists r',
    root_is (modulate B_major dominant) r' /\
    own_property NOTE_MAP (key (state (modulate B_major dominant))) = Some r' /\
    includes (key (state (modulate B_major dominant))) "b"%char = false.
Proof.
  apply (modulate_key_name B_major 11 dominant). split; [reflexivity|lia].
Defined.

(** ** The relative key *)

Lemma modulateRelative_fields m :
  (mode (state m) = "major" ->
   rootNote (modulateRelative m) = rem (add (rootNote m) (Num 9)) 12 /\
   mode (state (modulateRelative m)) = "minor" /\
   scale (state (modulateRelative m)) = Some (intervals MODES_minor)) /\
  (mode (state m) = "minor" ->
   rootNote (modulateRelative m) = rem (add (rootNote m) (Num 3)) 12 /\
   mode (state (modulateRelative m)) = "major" /\
   scale (state (modulateRelative m)) = Some (intervals MODES_major)).
Proof.
  unfold modulateRelative.
  rewrite updateKeyName_rootNote, updateKeyName_mode, updateKeyName_scale.
  split; intros E; rewrite E; repeat split.
Qed.

(** X7.  From a major or a minor key, two relative modulations give the
    root and the mode back, with the intervals of that mode, and leave
    the stored chord and the lock alone; one relative modulation of a
    major key moves the root 9 semitones up and makes the mode minor. *)
Theorem modulate_relative_round_trip m r :
  root_is m r ->
  mode (state m) = "major" \/ mode (state m) = "minor" ->
  let back := modulate (modulate m relative) relative in
  rootNote back = Num r /\
  mode (state back) = mode (state m) /\
  scale (state back) = mode_intervals (mode (state m)) /\
  chord (state back) = chord (state m) /\
  isLocked (state back) = isLocked (state m) /\
  (mode (state m) = "major" ->
   rootNote (modulate m relative) = Num ((r + 9) mod 12) /\
   mode (state (modulate m relative)) = "minor").
Proof.
  intros [Hroot Hr] Hmode. cbv zeta.
  rewrite !modulate_chord, !modulate_isLocked. cbn [modulate].
  assert (Hback : forall k k', k + k' = 12 -> 0 <= k -> 0 <= k' ->
            rem (add (rem (add (rootNote m) (Num k)) 12) (Num k')) 12 = Num r).
  { intros k k' Hk H0 H0'. rewrite Hroot, rem12_shift by lia.
    rewrite rem12_shift; [|apply Z.mod_pos_bound; lia|lia].
    f_equal. rewrite Zplus_mod_idemp_l.
    replace (r + k + k') with (r + 1 * 12) by lia.
    rewrite Z_mod_plus_full. apply Z.mod_small. exact Hr. }
  destruct (modulateRelative_fields m) as [Hmaj Hmin].
  destruct Hmode as [E|E].
  - destruct (Hmaj E) as (R1 & M1 & S1).
    destruct (modulateRelative_fields (modulateRelative m)) as [_ Hmin2].
    destruct (Hmin2 M1) as (R2 & M2 & S2).
    rewrite R2, R1, M2, S2, E, (Hback 9 3) by lia.
    repeat split; try reflexivity; try assumption.
    rewrite Hroot. apply rem12_shift; lia.
  - destruct (Hmin E) as (R1 & M1 & S1).
    destruct (modulateRelative_fields (modulateRelative m)) as [Hmaj2 _].
    destruct (Hmaj2 M1) as (R2 & M2 & S2).
    rewrite R2, R1, M2, S2, E, (Hback 3 9) by lia.
    repeat split; try reflexivity; discriminate.
Qed.

Lemma modulate_relative_round_trip_witness :
  rootNote (modulate (modulate B_major relative) relative) = Num 11 /\
  rootNote (modulate B_major relative) = Num ((11 + 9) mod 12).
Proof.
  destruct (modulate_relative_round_trip B_major 11) as (Hroot & _ & _ & _ & _ & Hfirst).
  - split; [reflexivity|lia].
  - left. reflexivity.
  - split; [exact Hroot|]. apply Hfirst. reflexivity.
Defined.

Lemma pitch_classes_updateKeyName m : pitch_classes (updateKeyName m) = pitch_classes m.
Proof.
  unfold pitch_classes. rewrite updateKeyName_rootNote, updateKeyName_scale.
  reflexivity.
Qed.

(** X8.  The relative minor of a major key has the pitch classes of the
    major key, and the relative major of a minor key those of the minor
    key. *)
Theorem modulate_relative_pitch_classes m r :
  root_is m r ->
  (mode (state m) = "major" /\ scale (state m) = Some (intervals MODES_major)) \/
  (mode (state m) = "minor" /\ scale (state m) = Some (intervals MODES_minor)) ->
  forall p, In p (pitch_classes (modulate m relative)) <-> In p (pitch_classes m).
Proof.
  intros [Hroot Hr] Hmode p. cbn [modulate]. unfold modulateRelative.
  rewrite pitch_classes_updateKeyName.
  assert (Hin : In r [0; 1; 2; 3; 4; 5; 6; 7; 8; 9; 10; 11]) by (cbn [In]; lia).
  clear Hr. cbn [In] in Hin.
  destruct Hmode as [[E Hsc]|[E Hsc]]; rewrite E;
    cbn [String.eqb Ascii.eqb Bool.eqb]; unfold pitch_classes;
    cbn [rootNote scale state with_state with_scale with_mode with_rootNote];
    rewrite Hroot, Hsc;
    repeat (destruct Hin as [<-|Hin]); try contradiction;
    vm_compute; tauto.
Qed.

Lemma modulate_relative_pitch_classes_witness :
  In 3 (pitch_classes (modulate B_major relative)) <-> In 3 (pitch_classes B_major).
Proof.
  apply (modulate_relative_pitch_classes B_major 11).
  - split; [reflexivity|lia].
  - left. split; reflexivity.
Defined.

(** ** Runs of calls with plain names *)

Lemma own_note_range name n : own_property NOTE_MAP name = Some n -> 0 <= n < 12.
Proof.
  unfold NOTE_MAP. cbn [own_property].
  repeat (destruct (String.eqb _ name); [intros [= <-]; lia|]).
  discriminate.
Qed.

Lemma note_or_zero_pitch_class name :
  in_prototype name = false -> exists n, note_or_zero name = Num n /\ 0 <= n < 12.
Proof.
  intros Hp. unfold note_or_zero, get_property. rewrite Hp.
  destruct (own_property NOTE_MAP name) as [n|] eqn:E.
  - exists n. split; [reflexivity|]. exact (own_note_range name n E).
  - exists 0. split; [reflexivity|lia].
Qed.

Lemma usable_scale_nonempty sc : usable_scale sc = true -> sc <> [].
Proof. destruct sc; [discriminate|discriminate]. Qed.

(** The scales of the mode table are usable. *)
Lemma mode_scale_usable md sc : mode_scale md sc -> usable_scale sc = true.
Proof.
  intros [(d & Hown & ->)|[_ ->]]; [|reflexivity].
  apply get_property_own in Hown. revert Hown.
  unfold MODES. cbn [own_property].
  repeat (destruct (String.eqb _ md); [intros [= <-]; reflexivity|]).
  discriminate.
Qed.

Lemma mode_intervals_defined name :
  in_prototype name = false ->
  exists sc, mode_intervals name = Some sc /\ usable_scale sc = true.
Proof.
  intros Hp.
  assert (H : exists sc, mode_scale name sc).
  { unfold mode_scale, get_property. rewrite Hp.
    destruct (own_property MODES name) as [d|]; eauto. }
  destruct H as [sc Hsc]. exists sc.
  split; [exact (mode_scale_intervals _ _ Hsc)|exact (mode_scale_usable _ _ Hsc)].
Qed.

Lemma modulate_scale_defined m t sc :
  scale (state m) = Some sc -> usable_scale sc = true ->
  exists sc', scale (state (modulate m t)) = Some sc' /\ usable_scale sc' = true.
Proof.
  intros Hs Hne. destruct t; cbn [modulate];
    unfold modulateRelative, modulateDominant, modulateSubdominant;
    rewrite updateKeyName_scale; [|exists sc; split; assumption..].
  destruct (String.eqb (mode (state m)) "major");
    [eexists; split; reflexivity|].
  destruct (String.eqb (mode (state m)) "minor");
    [eexists; split; reflexivity|].
  exists sc. split; assumption.
Qed.

Lemma exec_well_formed m c :
  well_formed m -> plain_call c = true ->
  well_formed (exec m c) /\ completion_of m c = Return tt.
Proof.
  intros [[r Hr] (sc & Hsc & Hne)] Hc.
  assert (Hsame : (exists r', root_is m r') /\
                  (exists sc', scale (state m) = Some sc' /\ usable_scale sc' = true)).
  { split; [exists r; exact Hr|exists sc; split; assumption]. }
  destruct c as [k md|ivs|notes|roman octave| | |t|chords];
    cbn [exec completion_of plain_call] in *.
  - apply andb_true_iff in Hc as [Hk Hmd]. apply negb_true_iff in Hk, Hmd.
    destruct (note_or_zero_pitch_class k Hk) as (n & Hn & Hrange).
    destruct (mode_intervals_defined md Hmd) as (sc' & Hsc' & Hne').
    destruct (isLocked (state m)) eqn:Hl.
    + rewrite (setKey_locked m k md Hl). cbn [fst snd]. split; [|reflexivity].
      split; [exists n; split; [exact Hn|exact Hrange]|].
      exists sc'. split; [exact Hsc'|exact Hne'].
    + destruct (setKey_unlocked m k md sc' Hl Hsc') as (Hret & _ & Hroot & Hscale).
      split; [|exact Hret].
      split; [exists n; split; [congruence|exact Hrange]|].
      exists sc'. split; [exact Hscale|exact Hne'].
  - split; [|reflexivity]. split; [exists r; exact Hr|].
    exists ivs. split; [reflexivity|exact Hc].
  - split; [exact Hsame|reflexivity].
  - unfold setChordFromRoman. destruct (isLocked (state m)); cbn [negb].
    + split; [exact Hsame|reflexivity].
    + destruct (buildChord_defined m sc roman octave Hsc) as [c Hbuild].
      rewrite Hbuild. cbn [fst snd]. split; [exact Hsame|reflexivity].
  - split; [exact Hsame|reflexivity].
  - split; [exact Hsame|reflexivity].
  - split; [|reflexivity]. split; [apply (modulate_root_is m r t Hr)|].
    exact (modulate_scale_defined m t sc Hsc Hne).
  - split; [exact Hsame|reflexivity].
Qed.

(** X9.  From a manager whose root is a pitch class and whose scale is
    usable (an interval or more, all of magnitude below 2^32), a run of
    calls whose key and mode names are not members of
    [Object.prototype] and whose scales are usable keeps both, no call
    of it throws, and [getChord] then returns three numbers for every
    label that is not a member of [Object.prototype] and every octave
    of magnitude below 2^32: the triad of the degree the label stands
    for. *)
Theorem run_well_formed cs : forall m,
  well_formed m ->
  forallb plain_call cs = true ->
  well_formed (run m cs) /\
  Forall (fun c => c = Return tt) (completions m cs) /\
  (forall roman octave d, label_degree roman d -> small octave = true ->
     exists r sc,
       rootNote (run m cs) = Num r /\ scale (state (run m cs)) = Some sc /\
       getChord (run m cs) roman octave = Return (triad_spec r sc d octave)).
Proof.
  induction cs as [|c cs IH]; intros m Hwf Hcs.
  - split; [exact Hwf|]. split; [constructor|].
    intros roman octave d Hd _. destruct Hwf as [[r [Hr _]] (sc & Hsc & Hne)].
    exists r, sc. split; [exact Hr|]. split; [exact Hsc|].
    exact (proj2 (buildChord_label m r sc roman d octave Hr Hsc
                    (usable_scale_nonempty sc Hne) Hd)).
  - cbn [forallb] in Hcs. apply andb_true_iff in Hcs as [Hc Hcs].
    destruct (exec_well_formed m c Hwf Hc) as [Hwf' Hret].
    destruct (IH (exec m c) Hwf' Hcs) as (Hfinal & Hall & Hread).
    cbn [run fold_left completions]. fold (run (exec m c) cs).
    split; [exact Hfinal|]. split; [constructor; assumption|exact Hread].
Qed.

Lemma run_well_formed_witness :
  let cs := [SetKey "H" "blues"; Modulate relative; SetScale [0; 7]] in
  Forall (fun c => c = Return tt) (completions C_major cs) /\
  getChord (run C_major cs) "V" 4 = Return [Num 84; Num 96; Num 108].
Proof.
  intros cs.
  destruct (run_well_formed cs C_major) as (_ & Hall & Hread).
  - split; [exists 0; split; [reflexivity|lia]|].
    eexists. split; reflexivity.
  - reflexivity.
  - split; [exact Hall|].
    destruct (Hread "V" 4 4) as (r & sc & Hr & Hsc & Hchord).
    + left. eexists. split; reflexivity.
    + reflexivity.
    + rewrite Hchord. injection Hr as <-. injection Hsc as <-. reflexivity.
Defined.

(** ** Random picks *)

Lemma random_below_range random n :
  (0 <= random)%Q -> (random < 1)%Q -> (0 < n)%nat ->
  0 <= random_below random n < Z.of_nat n.
Proof.
  intros H0 H1 Hn. unfold random_below.
  assert (Hpos : (0 < inject_Z (Z.of_nat n))%Q).
  { rewrite <- (Zlt_Qlt 0). lia. }
  split.
  - change 0 with (Qfloor 0). apply Qfloor_resp_le.
    apply Qmult_le_0_compat; [exact H0|apply Qlt_le_weak; exact Hpos].
  - rewrite Zlt_Qlt. eapply Qle_lt_trans; [apply Qfloor_le|].
    rewrite <- (Qmult_1_l (inject_Z (Z.of_nat n))) at 2.
    apply Qmult_lt_compat_r; assumption.
Qed.



(** X11.  [getRandomChordFromPool] builds the chord of a label of the
    pool; when the pool is empty the label read is [undefined] and the
    chord is that of ['I']. *)
Theorem getRandomChordFromPool_label m random octave :
  (0 <= random)%Q -> (random < 1)%Q ->
  (chordPool m = [] ->
   getRandomChordFromPool m random octave = buildChord m "I" octave) /\
  (chordPool m <> [] ->
   exists roman, In roman (chordPool m) /\
                 getRandomChordFromPool m random octave = buildChord m roman octave).
Proof.
  intros H0 H1. unfold getRandomChordFromPool. split.
  - intros ->. unfold pool_label. cbn [length nth_error].
    destruct (random_below random 0 <? 0);
      [reflexivity|destruct (Z.to_nat (random_below random 0)); reflexivity].
  - intros Hne.
    pose proof (random_below_range random (length (chordPool m)) H0 H1) as Hi.
    destruct (chordPool m) as [|x rest] eqn:E; [congruence|]. rewrite <- E in *.
    specialize (Hi ltac:(rewrite E; cbn [length]; lia)).
    unfold pool_label.
    destruct (Z.ltb_spec (random_below random (length (chordPool m))) 0); [lia|].
    destruct (nth_error (chordPool m)
                (Z.to_nat (random_below random (length (chordPool m)))))
      as [roman|] eqn:En.
    + exists roman. split; [eapply nth_error_In; exact En|reflexivity].
    + apply nth_error_None in En. lia.
Qed.

Lemma getRandomChordFromPool_label_witness :
  getRandomChordFromPool (setChordPool C_major []) (1 # 2) 4
  = buildChord (setChordPool C_major []) "I" 4 /\
  exists roman, In roman (chordPool C_major) /\
                getRandomChordFromPool C_major (1 # 2) 4 = buildChord C_major roman 4.
Proof.
  split.
  - destruct (getRandomChordFromPool_label (setChordPool C_major []) (1 # 2) 4)
      as [Hempty _]; [discriminate|reflexivity|].
    apply Hempty. reflexivity.
  - destruct (getRandomChordFromPool_label C_major (1 # 2) 4)
      as [_ Hpool]; [discriminate|reflexivity|].
    apply Hpool. discriminate.
Defined.

(** ** Construction *)

(** X12.  [new HarmonyManager(key, mode)] throws for every key and mode:
    the object literal assigned to [this.state] calls [buildChord], whose
    [getScaleNote] reads [this.state.scale] while [this.state] is still
    unassigned. *)
Theorem constructor_throws k md : constructor k md = Throw.
Proof. reflexivity. Qed.

End HarmonyMore.

(** * Further properties of the synth engine *)

Module SynthMore.

Import Synth SynthFacts.
Local Open Scope string_scope.
Local Open Scope Z_scope.

(** ** The id [playNote] returns *)

Lemma map_get_set {A} (m : list (string * A)) k v : map_get (map_set m k v) k = Some v.
Proof.
  induction m as [|[k' v'] m IH]; cbn [map_set map_get].
  - rewrite String.eqb_refl. reflexivity.
  - destruct (String.eqb k' k) eqn:E; cbn [map_get].
    + rewrite String.eqb_refl. reflexivity.
    + rewrite E. exact IH.
Qed.

Lemma map_get_In {A} (m : list (string * A)) k v : map_get m k = Some v -> In (k, v) m.
Proof.
  induction m as [|[k' v'] m IH]; cbn [map_get]; [discriminate|].
  destruct (String.eqb_spec k' k) as [->|_].
  - intros [= ->]. left. reflexivity.
  - intros H. right. exact (IH H).
Qed.

Lemma map_get_key {A} (m : list (string * A)) k :
  In k (map fst m) -> exists v, map_get m k = Some v.
Proof.
  induction m as [|[k' v'] m IH]; cbn [map fst map_get]; [intros []|].
  destruct (String.eqb_spec k' k) as [->|Hne]; [eauto|].
  intros [E|H]; [contradiction|exact (IH H)].
Qed.

Lemma playNote_id e now pitch vel duration name :
  fst (playNote e now pitch vel duration name) =
  if isInitialized e then
    match voices e !! name with
    | Some _ => voice_id (nextVoiceId e)
    | None => ""
    end
  else "".
Proof.
  unfold playNote. destruct (isInitialized e); cbn [negb fst]; [|reflexivity].
  set (e1 := if map_size (activeVoices e) >=? polyphony e
             then stealVoice e now else e).
  assert (H1 : voices e1 = voices e /\ nextVoiceId e1 = nextVoiceId e).
  { subst e1. destruct (map_size (activeVoices e) >=? polyphony e);
      [|split; reflexivity].
    pose proof (stealVoice_frame e now) as (Hv & Hn & _). split; assumption. }
  destruct H1 as [Hv Hn]. rewrite <- Hv, <- Hn.
  destruct (voices e1 !! name); reflexivity.
Qed.

(** X13.  [playNote] returns the empty string exactly when the engine is
    not initialised or the voice is not registered; any other id it
    returns is in the registry right after the call, with the pitch, the
    velocity and the clock reading of the call. *)
Theorem playNote_sentinel e now pitch vel duration name :
  (fst (playNote e now pitch vel duration name) = "" <->
   isInitialized e = false \/ voices e !! name = None) /\
  (fst (playNote e now pitch vel duration name) <> "" ->
   map_get (activeVoices (snd (playNote e now pitch vel duration name)))
           (fst (playNote e now pitch vel duration name))
   = Some {| id := fst (playNote e now pitch vel duration name);
             synth := nextVoiceId e; startTime := now; note := pitch;
             velocity := vel |}).
Proof.
  rewrite playNote_id, playNote_activeVoices.
  destruct (isInitialized e); [destruct (voices e !! name) as [def|]|].
  - split.
    + split; [intros H; exfalso; exact (voice_id_not_empty _ H)|].
      intros [H|H]; discriminate H.
    + intros _. apply map_get_set.
  - split; [split; [right; reflexivity|reflexivity]|congruence].
  - split; [split; [left; reflexivity|reflexivity]|congruence].
Qed.

Lemma playNote_sentinel_witness :
  map_get (activeVoices (snd (playNote one_voice 7 64 default_velocity None "synth")))
          (fst (playNote one_voice 7 64 default_velocity None "synth"))
  = Some {| id := fst (playNote one_voice 7 64 default_velocity None "synth");
            synth := nextVoiceId one_voice; startTime := 7; note := 64;
            velocity := default_velocity |}.
Proof.
  apply (playNote_sentinel one_voice 7 64 default_velocity None "synth").
  discriminate.
Defined.

(** ** Synths and their disposal *)

Lemma no_use_after_dispose_app log cs :
  no_use_after_dispose log ->
  Forall (fun c => ~ is_dispose c /\
                   forall h, In (Dispose h) log -> handle_of c <> h) cs ->
  no_use_after_dispose (log ++ cs).
Proof.
  intros Hlog Hcs. induction log as [|c0 log IH]; cbn [app].
  - clear Hlog. induction cs as [|c cs IHcs]; [exact I|].
    pose proof (List.Forall_inv Hcs) as [Hnd _].
    cbn [no_use_after_dispose]. split.
    + destruct c; try exact I. exfalso. apply Hnd. eexists. reflexivity.
    + apply IHcs. eapply List.Forall_impl; [|exact (List.Forall_inv_tail Hcs)].
      cbn beta. intros c' [H1 _]. split; [exact H1|]. intros h [].
  - cbn [no_use_after_dispose] in Hlog |- *. destruct Hlog as [H0 Hrest]. split.
    + destruct c0; try exact I. rewrite map_app. intros Hin.
      apply in_app_or in Hin as [Hin|Hin]; [exact (H0 Hin)|].
      apply in_map_iff in Hin as (c & Hc & Hin).
      destruct (proj1 (List.Forall_forall _ _) Hcs c Hin) as [_ Hne].
      apply (Hne handle); [left; reflexivity|exact Hc].
    + apply IH; [exact Hrest|].
      eapply List.Forall_impl; [|exact Hcs]. cbn beta.
      intros c [H1 H2]. split; [exact H1|]. intros h Hin. apply H2. right. exact Hin.
Qed.

Lemma no_use_after_dispose_snoc log h :
  no_use_after_dispose log -> ~ In (Dispose h) log ->
  no_use_after_dispose (log ++ [Dispose h]).
Proof.
  intros Hlog Hn. induction log as [|c0 log IH]; cbn [app no_use_after_dispose].
  - split; [intros []|exact I].
  - cbn [no_use_after_dispose] in Hlog. destruct Hlog as [H0 Hrest]. split.
    + destruct c0; try exact I. rewrite map_app. intros Hin.
      apply in_app_or in Hin as [Hin|[E|[]]]; [exact (H0 Hin)|].
      cbn [handle_of] in E. subst. apply Hn. left. reflexivity.
    + apply IH; [exact Hrest|]. intros Hin. apply Hn. right. exact Hin.
Qed.

Lemma disposed_In log h : In h (disposed log) <-> In (Dispose h) log.
Proof.
  unfold disposed. rewrite in_flat_map. split.
  - intros (c & Hc & Hin). destruct c; cbn [In] in Hin; try contradiction.
    destruct Hin as [<-|[]]. exact Hc.
  - intros H. exists (Dispose h). split; [exact H|left; reflexivity].
Qed.

Lemma no_use_after_dispose_NoDup log :
  no_use_after_dispose log -> List.NoDup (disposed log).
Proof.
  induction log as [|c log IH]; [intros _; constructor|].
  cbn [no_use_after_dispose]. intros [H0 Hrest]. specialize (IH Hrest).
  unfold disposed. cbn [flat_map]. fold (disposed log).
  destruct c; cbn [app]; try exact IH. constructor; [|exact IH].
  intros Hin. apply H0. apply disposed_In in Hin.
  apply in_map_iff. exists (Dispose handle). split; [reflexivity|exact Hin].
Qed.

Lemma map_delete_key_ne {A} (m : list (string * A)) k k' v' :
  In (k', v') (map_delete m k) -> k' <> k.
Proof.
  induction m as [|[k0 v0] m IH]; cbn [map_delete]; [intros []|].
  destruct (String.eqb_spec k0 k) as [->|Hne]; [exact IH|].
  intros [[= <- <-]|H]; [exact Hne|exact (IH H)].
Qed.

Lemma Forall_map_set {A} (P : string * A -> Prop) m k v :
  Forall P m -> P (k, v) -> Forall P (map_set m k v).
Proof.
  intros Hm Hkv. induction m as [|[k' v'] m IH]; cbn [map_set].
  - constructor; [exact Hkv|constructor].
  - destruct (String.eqb k' k).
    + constructor; [exact Hkv|exact (List.Forall_inv_tail Hm)].
    + constructor; [exact (List.Forall_inv Hm)|].
      exact (IH (List.Forall_inv_tail Hm)).
Qed.

Lemma sound_registry_ok e : sound e -> registry_ok (activeVoices e).
Proof.
  intros (I1 & I2 & _). split; [exact I2|].
  eapply List.Forall_impl; [|exact I1]. cbn beta. intros entry [E _].
  rewrite E. apply voice_id_not_empty.
Qed.

Lemma sound_ids_minted e : sound e -> ids_minted e.
Proof.
  intros (I1 & _). unfold ids_minted.
  eapply List.Forall_impl; [|exact I1]. cbn beta. intros entry [E Hlt].
  exists (synth (snd entry)). split; assumption.
Qed.

(** A call that is not a disposal, on the synth of a registered voice. *)
Lemma sound_call_registered e k v c :
  sound e -> map_get (activeVoices e) k = Some v ->
  ~ is_dispose c -> handle_of c = synth v ->
  sound (call_backend e [c]).
Proof.
  intros (I1 & I2 & I3 & I4 & I5) Hget Hnd Hh.
  apply map_get_In in Hget.
  pose proof (proj1 (List.Forall_forall _ _) I1 _ Hget) as [_ Hlt].
  pose proof (proj1 (List.Forall_forall _ _) I4 _ Hget) as Hlive.
  cbn [snd] in Hlt, Hlive.
  unfold sound. cbn [activeVoices nextVoiceId backend call_backend].
  split; [exact I1|]. split; [exact I2|]. split; [|split].
  - apply List.Forall_app. split; [exact I3|]. constructor; [lia|constructor].
  - eapply List.Forall_impl; [|exact I4]. cbn beta. intros entry Hn Hin.
    apply in_app_or in Hin as [Hin|[E|[]]]; [exact (Hn Hin)|].
    apply Hnd. eexists. exact E.
  - apply no_use_after_dispose_app; [exact I5|].
    constructor; [|constructor]. split; [exact Hnd|].
    intros h Hin E. apply Hlive. rewrite <- Hh, E. exact Hin.
Qed.

Lemma stopNote_sound e now k r : sound e -> sound (stopNote e now k r).
Proof.
  intros H. unfold stopNote. destruct (map_get (activeVoices e) k) as [v|] eqn:E;
    [|exact H].
  apply (sound_call_registered e k v (TriggerRelease (synth v) (now + r)) H E);
    [intros [h Hh]; discriminate Hh|reflexivity].
Qed.

Lemma stealVoice_sound e now : sound e -> sound (stealVoice e now).
Proof.
  intros H. unfold stealVoice. destruct (oldest (activeVoices e)) as [k|]; [|exact H].
  destruct (String.eqb k ""); [exact H|apply stopNote_sound; exact H].
Qed.

Lemma stopAllNotes_sound e now : sound e -> sound (stopAllNotes e now).
Proof.
  unfold stopAllNotes. generalize (map fst (activeVoices e)) as ks.
  intros ks. revert e. induction ks as [|k ks IH]; intros e H; [exact H|].
  cbn [fold_left]. apply IH. apply stopNote_sound. exact H.
Qed.

Lemma cleanupVoice_sound e k : sound e -> sound (cleanupVoice e k).
Proof.
  intros H. unfold cleanupVoice.
  destruct (map_get (activeVoices e) k) as [v|] eqn:E; [|exact H].
  destruct H as (I1 & I2 & I3 & I4 & I5). apply map_get_In in E.
  pose proof (proj1 (List.Forall_forall _ _) I1 _ E) as [Hk Hlt].
  pose proof (proj1 (List.Forall_forall _ _) I4 _ E) as Hlive.
  cbn [fst snd] in Hk, Hlt, Hlive.
  unfold sound.
  cbn [activeVoices nextVoiceId backend with_activeVoices call_backend].
  split; [|split; [|split; [|split]]].
  - apply List.Forall_forall. intros entry Hin.
    apply (proj1 (List.Forall_forall _ _) I1). exact (map_delete_subset _ _ _ Hin).
  - apply map_delete_keys_NoDup. exact I2.
  - apply List.Forall_app. split; [exact I3|]. constructor; [exact Hlt|constructor].
  - apply List.Forall_forall. intros [k' v'] Hin Hd. cbn [snd] in Hd.
    pose proof (map_delete_key_ne _ _ _ _ Hin) as Hne.
    pose proof (map_delete_subset _ _ _ Hin) as Hin'.
    apply in_app_or in Hd as [Hd|[Hd|[]]].
    + exact (proj1 (List.Forall_forall _ _) I4 _ Hin' Hd).
    + injection Hd as Hd.
      pose proof (proj1 (List.Forall_forall _ _) I1 _ Hin') as [Hk' _].
      cbn [fst snd] in Hk'. apply Hne. rewrite Hk', Hk, Hd. reflexivity.
  - apply no_use_after_dispose_snoc; assumption.
Qed.

(** A new synth: its record is stored and calls are made on it. *)
Lemma sound_new_voice e e' rec cs :
  sound e ->
  nextVoiceId e' = S (nextVoiceId e) ->
  activeVoices e' = map_set (activeVoices e) (voice_id (nextVoiceId e)) rec ->
  synth rec = nextVoiceId e ->
  backend e' = (backend e ++ cs)%list ->
  Forall (fun c => handle_of c = nextVoiceId e /\ ~ is_dispose c) cs ->
  sound e'.
Proof.
  intros He Hn Ha Hs Hb Hcs. pose proof (sound_registry_ok e He) as Hok.
  destruct He as (I1 & I2 & I3 & I4 & I5).
  assert (Hfresh : forall h, In (Dispose h) (backend e) -> (h < nextVoiceId e)%nat).
  { intros h Hin. exact (proj1 (List.Forall_forall _ _) I3 _ Hin). }
  unfold sound. rewrite Hn, Ha, Hb.
  split; [|split; [|split; [|split]]].
  - apply Forall_map_set.
    + eapply List.Forall_impl; [|exact I1]. cbn beta. intros entry [E Hlt].
      split; [exact E|lia].
    + cbn [fst snd]. rewrite Hs. split; [reflexivity|lia].
  - exact (proj1 (map_set_registry_ok _ (nextVoiceId e) rec Hok)).
  - apply List.Forall_app. split.
    + eapply List.Forall_impl; [|exact I3]. cbn beta. intros c Hc. lia.
    + eapply List.Forall_impl; [|exact Hcs]. cbn beta. intros c [Hc _]. lia.
  - apply Forall_map_set.
    + eapply List.Forall_impl; [|exact I4]. cbn beta. intros entry Hlive Hin.
      apply in_app_or in Hin as [Hin|Hin]; [exact (Hlive Hin)|].
      destruct (proj1 (List.Forall_forall _ _) Hcs _ Hin) as [_ Hnd].
      apply Hnd. eexists. reflexivity.
    + cbn [snd]. rewrite Hs. intros Hin.
      apply in_app_or in Hin as [Hin|Hin].
      * specialize (Hfresh _ Hin). lia.
      * destruct (proj1 (List.Forall_forall _ _) Hcs _ Hin) as [_ Hnd].
        apply Hnd. eexists. reflexivity.
  - apply no_use_after_dispose_app; [exact I5|].
    eapply List.Forall_impl; [|exact Hcs]. cbn beta. intros c [Hc Hnd].
    split; [exact Hnd|]. intros h Hin. specialize (Hfresh _ Hin). lia.
Qed.

Lemma playNote_sound e now pitch vel duration name :
  sound e -> sound (snd (playNote e now pitch vel duration name)).
Proof.
  intros H. unfold playNote. destruct (isInitialized e); cbn [negb snd]; [|exact H].
  set (e1 := if map_size (activeVoices e) >=? polyphony e
             then stealVoice e now else e).
  assert (H1 : sound e1).
  { subst e1. destruct (map_size (activeVoices e) >=? polyphony e);
      [apply stealVoice_sound|]; exact H. }
  clearbody e1.
  destruct (voices e1 !! name) as [def|]; cbn [snd]; [|exact H1].
  assert (Hnd : forall c, (exists a b c' d, c = TriggerAttack a b c' d) \/
                          (exists a b c' d f, c = TriggerAttackRelease a b c' d f) \/
                          (exists a b, c = Create a b) \/ (exists a, c = Connect a) ->
                          ~ is_dispose c).
  { intros c Hc [h Hh]. subst c.
    destruct Hc as [(?&?&?&?&Hc)|[(?&?&?&?&?&Hc)|[(?&?&Hc)|(?&Hc)]]];
      discriminate Hc. }
  playNote_tail e1 duration;
    (eapply (sound_new_voice e1); [exact H1|reflexivity|reflexivity|reflexivity| |]);
    cbn [backend call_backend setTimeout emit with_activeVoices with_nextVoiceId];
    try (rewrite <- !app_assoc; reflexivity);
    repeat constructor; apply Hnd; eauto 10.
Qed.

Lemma step_sound e now ev : sound e -> sound (step e now ev).
Proof.
  intros H. destruct ev as [n v d name|i r| |k]; cbn [step].
  - apply playNote_sound. exact H.
  - apply stopNote_sound. exact H.
  - apply stopAllNotes_sound. exact H.
  - unfold fire. destruct (nth_error (timers e) k) as [[delay voiceId]|]; [|exact H].
    apply cleanupVoice_sound. exact H.
Qed.

Lemma run_sound evs : forall e, sound e -> sound (run e evs).
Proof.
  induction evs as [|[now ev] evs IH]; intros e H; [exact H|].
  cbn [run fold_left]. apply IH. apply step_sound. exact H.
Qed.

Lemma engine_sound ceiling : sound (engine ceiling).
Proof. repeat split; constructor. Qed.

(** X14.  Along any run of [playNote], [stopNote], [stopAllNotes] and
    timer callbacks, no call is made on a synth after its [dispose()],
    no synth is disposed twice, and no voice of the registry has a
    disposed synth. *)
Theorem run_no_use_after_dispose e evs :
  sound e ->
  no_use_after_dispose (backend (run e evs)) /\
  List.NoDup (disposed (backend (run e evs))) /\
  Forall (fun entry => ~ In (synth (snd entry)) (disposed (backend (run e evs))))
         (activeVoices (run e evs)).
Proof.
  intros H. pose proof (run_sound evs e H) as (_ & _ & _ & I4 & I5).
  split; [exact I5|]. split; [exact (no_use_after_dispose_NoDup _ I5)|].
  eapply List.Forall_impl; [|exact I4]. cbn beta. intros entry Hn Hin.
  apply Hn. apply disposed_In. exact Hin.
Qed.

Lemma run_no_use_after_dispose_witness :
  let evs := [(0, PlayNote 60 default_velocity (Some 500) "synth");
              (10, sustained 64); (20, sustained 67);
              (30, StopNote "voice_0" 100); (700, TimerFires 0);
              (1200, TimerFires 0); (1300, StopAllNotes)] in
  sound (engine 2) /\
  disposed (backend (run (engine 2) evs)) = [0%nat] /\
  no_use_after_dispose (backend (run (engine 2) evs)).
Proof.
  intros evs.
  assert (H : sound (engine 2)) by (repeat split; constructor).
  split; [exact H|]. split; [reflexivity|].
  exact (proj1 (run_no_use_after_dispose (engine 2) evs H)).
Defined.

Lemma step_nextVoiceId e now ev : (nextVoiceId e <= nextVoiceId (step e now ev))%nat.
Proof.
  destruct ev as [n v d name|i r| |k]; cbn [step].
  - apply playNote_frame.
  - unfold stopNote. destruct (map_get (activeVoices e) i); cbn; lia.
  - unfold stopAllNotes. generalize (map fst (activeVoices e)) as ks. intros ks.
    assert (G : forall e0, nextVoiceId (fold_left
                (fun e' voiceId => stopNote e' now voiceId DEFAULT_RELEASE) ks e0)
                = nextVoiceId e0).
    { induction ks as [|k ks IH]; intros e0; [reflexivity|].
      cbn [fold_left]. rewrite IH. unfold stopNote.
      destruct (map_get (activeVoices e0) k); reflexivity. }
    rewrite G. lia.
  - unfold fire. destruct (nth_error (timers e) k) as [[delay voiceId]|]; [|lia].
    unfold cleanupVoice. cbn [activeVoices with_timers].
    destruct (map_get (activeVoices e) voiceId); cbn; lia.
Qed.

Lemma ids_returned_minted evs : forall e s,
  In s (ids_returned e evs) ->
  s = "" \/ exists k, (nextVoiceId e <= k)%nat /\ s = voice_id k.
Proof.
  induction evs as [|[now ev] evs IH]; intros e s; cbn [ids_returned]; [intros []|].
  intros Hin. apply in_app_or in Hin as [Hin|Hin].
  - destruct ev as [n v d name| | |]; cbn [In] in Hin; try contradiction.
    destruct Hin as [<-|[]]. rewrite playNote_id.
    destruct (isInitialized e); [|left; reflexivity].
    destruct (voices e !! name); [|left; reflexivity].
    right. exists (nextVoiceId e). split; [lia|reflexivity].
  - destruct (IH _ _ Hin) as [->|(k & Hk & ->)]; [left; reflexivity|].
    right. exists k. split; [|reflexivity].
    pose proof (step_nextVoiceId e now ev). lia.
Qed.

(** X15.  An id is never handed out twice: the ids [playNote] returns
    along a run, the empty sentinel apart, are pairwise distinct, also
    after their voices were disposed. *)
Theorem voice_ids_never_reused evs : forall e,
  List.NoDup (List.filter (fun s => negb (String.eqb s "")) (ids_returned e evs)).
Proof.
  induction evs as [|[now ev] evs IH]; intros e; cbn [ids_returned]; [constructor|].
  rewrite List.filter_app. specialize (IH (step e now ev)).
  destruct ev as [n v d name|i r| |k]; cbn [List.filter app]; try exact IH.
  destruct (String.eqb_spec (fst (playNote e now n v d name)) "") as [E|E];
    cbn [negb app]; [exact IH|].
  constructor; [|exact IH]. intros Hin. apply List.filter_In in Hin as [Hin _].
  apply ids_returned_minted in Hin as [Hin|(k & Hk & Hin)]; [exact (E Hin)|].
  rewrite playNote_id in Hin, E.
  pose proof (playNote_frame e now n v d name) as (_ & _ & _ & _ & Hn).
  cbn [step] in Hk.
  destruct (isInitialized e); [|exact (E eq_refl)].
  destruct (voices e !! name) as [def|] eqn:Hv; [|exact (E eq_refl)].
  specialize (Hn eq_refl (ex_intro _ def eq_refl)).
  apply voice_id_inj in Hin. lia.
Qed.

(** ** Pending cleanups *)

Lemma map_delete_filter {A} (m : list (string * A)) k :
  map_delete m k = List.filter (fun entry => negb (String.eqb (fst entry) k)) m.
Proof.
  induction m as [|[k' v'] m IH]; [reflexivity|].
  cbn [map_delete List.filter fst]. destruct (String.eqb k' k); cbn [negb];
    rewrite IH; reflexivity.
Qed.

Lemma map_delete_absent {A} (m : list (string * A)) k :
  map_get m k = None -> map_delete m k = m.
Proof.
  induction m as [|[k' v'] m IH]; [reflexivity|].
  cbn [map_get map_delete]. destruct (String.eqb k' k); [discriminate|].
  intros H. rewrite (IH H). reflexivity.
Qed.

Lemma cleanupVoice_activeVoices e k :
  activeVoices (cleanupVoice e k) = map_delete (activeVoices e) k /\
  timers (cleanupVoice e k) = timers e.
Proof.
  unfold cleanupVoice. destruct (map_get (activeVoices e) k) eqn:E.
  - split; reflexivity.
  - rewrite (map_delete_absent _ _ E). split; reflexivity.
Qed.

Lemma fire_first_spec ts : forall e,
  timers e = ts ->
  timers (fire_first (length ts) e) = [] /\
  activeVoices (fire_first (length ts) e) =
  List.filter (fun entry => negb (existsb (fun t => String.eqb (snd t) (fst entry)) ts))
         (activeVoices e).
Proof.
  induction ts as [|[delay k] ts IH]; intros e Ht; cbn [length fire_first].
  - split; [exact Ht|]. cbn [existsb negb].
    induction (activeVoices e) as [|x l IHl]; [reflexivity|].
    cbn [List.filter]. rewrite <- IHl. reflexivity.
  - unfold fire. rewrite Ht. cbn [nth_error firstn skipn app]. change (skipn 0 ts) with ts.
    set (e1 := cleanupVoice (with_timers e ts) k).
    pose proof (cleanupVoice_activeVoices (with_timers e ts) k) as [Ha Htm].
    fold e1 in Ha, Htm. cbn [timers activeVoices with_timers] in Ha, Htm.
    destruct (IH e1 Htm) as [IH1 IH2]. split; [exact IH1|].
    rewrite IH2, Ha, map_delete_filter. clear.
    induction (activeVoices e) as [|x l IHl]; [reflexivity|].
    cbn [List.filter existsb snd].
    rewrite (String.eqb_sym k (fst x)).
    destruct (String.eqb (fst x) k); cbn [negb orb List.filter]; [exact IHl|].
    destruct (existsb _ ts); cbn [negb]; rewrite IHl; reflexivity.
Qed.

(** X16.  When the pending callbacks have all run, none is pending, and
    the registry has lost exactly the voices that had a cleanup
    scheduled: a sustained voice nobody stopped stays. *)
Theorem drain_removes_scheduled e :
  timers (drain e) = [] /\
  activeVoices (drain e) =
  List.filter (fun entry => negb (has_timer e (fst entry))) (activeVoices e).
Proof. unfold drain, has_timer. apply fire_first_spec. reflexivity. Qed.

Lemma map_get_in_some {A} (m : list (string * A)) k :
  In k (map fst m) -> map_get m k <> None.
Proof.
  induction m as [|[k' v'] m IH]; cbn [map fst In map_get]; [intros []|].
  destruct (String.eqb_spec k' k) as [->|Hne]; [discriminate|].
  intros [E|H]; [contradiction|exact (IH H)].
Qed.

Lemma stopAll_fold now ks : forall e,
  (forall k, In k ks -> In k (map fst (activeVoices e))) ->
  let e' := fold_left (fun e' voiceId => stopNote e' now voiceId DEFAULT_RELEASE) ks e in
  activeVoices e' = activeVoices e /\
  timers e' = (timers e ++ map (fun k => (DEFAULT_RELEASE + 1000, k)) ks)%list /\
  backend e' =
  (backend e ++
   flat_map (fun k => match map_get (activeVoices e) k with
                      | Some v => [TriggerRelease (synth v) (now + DEFAULT_RELEASE)]
                      | None => []
                      end) ks)%list.
Proof.
  induction ks as [|k ks IH]; intros e Hks; cbn [fold_left map flat_map].
  - rewrite !app_nil_r. repeat split.
  - assert (Hk : exists v, map_get (activeVoices e) k = Some v).
    { destruct (map_get (activeVoices e) k) eqn:E; [eauto|].
      exfalso. revert E. apply map_get_in_some. apply Hks. left. reflexivity. }
    destruct Hk as [v Hv].
    set (e1 := stopNote e now k DEFAULT_RELEASE).
    assert (H1 : activeVoices e1 = activeVoices e /\
                 timers e1 = (timers e ++ [(DEFAULT_RELEASE + 1000, k)])%list /\
                 backend e1 = (backend e ++
                   [TriggerRelease (synth v) (now + DEFAULT_RELEASE)])%list).
    { subst e1. unfold stopNote. rewrite Hv. repeat split. }
    destruct H1 as (Ha & Ht & Hb).
    destruct (IH e1) as (IHa & IHt & IHb).
    { rewrite Ha. intros k' Hk'. apply Hks. right. exact Hk'. }
    rewrite IHa, IHt, IHb, Ha, Ht, Hb, Hv, <- !app_assoc. repeat split.
Qed.

Lemma map_get_of_In {A} (m : list (string * A)) k v :
  List.NoDup (map fst m) -> In (k, v) m -> map_get m k = Some v.
Proof.
  induction m as [|[k' v'] m IH]; cbn [map fst In map_get]; [intros _ []|].
  intros Hnd [[= -> ->]|Hin]; [rewrite String.eqb_refl; reflexivity|].
  destruct (String.eqb_spec k' k) as [->|Hne].
  - exfalso. apply (proj1 (List.NoDup_cons_iff _ _) Hnd).
    apply in_map_iff. exists (k, v). split; [reflexivity|exact Hin].
  - apply IH; [exact (proj2 (proj1 (List.NoDup_cons_iff _ _) Hnd))|exact Hin].
Qed.

Lemma disposed_app l1 l2 : disposed (l1 ++ l2) = (disposed l1 ++ disposed l2)%list.
Proof. apply flat_map_app. Qed.

(** The cleanups of the whole registry, pending in its order and
    nothing else: each disposes its voice. *)
Lemma fire_first_registry (delay : Z) m : forall e,
  activeVoices e = m -> List.NoDup (map fst m) ->
  timers e = map (fun entry : string * ActiveVoice => (delay, fst entry)) m ->
  backend (fire_first (length (timers e)) e) =
  (backend e ++ map (fun entry => Dispose (synth (snd entry))) m)%list.
Proof.
  induction m as [|[k v] m IH]; intros e Ha Hnd Ht; rewrite Ht;
    cbn [map length fire_first fst snd].
  - rewrite app_nil_r. reflexivity.
  - unfold fire. rewrite Ht. cbn [map nth_error firstn skipn app fst].
    change (skipn 0 ?l) with l.
    unfold cleanupVoice. cbn [activeVoices with_timers]. rewrite Ha.
    cbn [map_get]. rewrite String.eqb_refl.
    cbn [activeVoices call_backend with_activeVoices with_timers]. rewrite Ha.
    cbn [map_delete]. rewrite String.eqb_refl.
    apply List.NoDup_cons_iff in Hnd as [Hk Hnd].
    rewrite (map_delete_absent m k (map_get_not_in m k Hk)).
    match goal with |- backend (fire_first _ ?e1) = _ => set (e' := e1) end.
    specialize (IH e' eq_refl Hnd eq_refl).
    etransitivity; [exact IH|].
    subst e'. cbn [backend call_backend with_activeVoices with_timers].
    rewrite <- app_assoc. reflexivity.
Qed.

(** X17.  [stopAllNotes] releases every voice of the registry once, at
    the default release time, and schedules a cleanup for each: when
    the callbacks have run the registry is empty, and (nothing else
    pending) every voice was disposed once, in the order of the
    registry. *)
Theorem stopAllNotes_then_drain e now :
  List.NoDup (map fst (activeVoices e)) ->
  backend (stopAllNotes e now) =
  (backend e ++ map (fun entry => TriggerRelease (synth (snd entry))
                                                 (now + DEFAULT_RELEASE))
                    (activeVoices e))%list /\
  activeVoices (drain (stopAllNotes e now)) = [] /\
  (timers e = [] ->
   backend (drain (stopAllNotes e now)) =
   (backend (stopAllNotes e now) ++
    map (fun entry => Dispose (synth (snd entry))) (activeVoices e))%list).
Proof.
  intros Hnd.
  destruct (stopAll_fold now (map fst (activeVoices e)) e (fun k H => H))
    as (Ha & Ht & Hb).
  fold (stopAllNotes e now) in Ha, Ht, Hb.
  assert (Hb' : backend (stopAllNotes e now) =
                (backend e ++ map (fun entry => TriggerRelease (synth (snd entry))
                                                  (now + DEFAULT_RELEASE))
                                  (activeVoices e))%list).
  { rewrite Hb. f_equal.
    assert (G : forall l, (forall entry, In entry l -> In entry (activeVoices e)) ->
              flat_map (fun k => match map_get (activeVoices e) k with
                                 | Some v => [TriggerRelease (synth v)
                                                (now + DEFAULT_RELEASE)]
                                 | None => []
                                 end) (map fst l) =
              map (fun entry => TriggerRelease (synth (snd entry))
                                               (now + DEFAULT_RELEASE)) l).
    { induction l as [|[k v] l IHl]; intros Hl; [reflexivity|].
      cbn [map flat_map fst snd].
      rewrite (map_get_of_In _ k v Hnd (Hl _ (or_introl eq_refl))).
      rewrite IHl; [reflexivity|]. intros entry Hin. apply Hl. right. exact Hin. }
    apply G. intros entry H. exact H. }
  split; [exact Hb'|]. split.
  - unfold drain.
    destruct (fire_first_spec (timers (stopAllNotes e now)) (stopAllNotes e now)
                eq_refl) as [_ Hd].
    rewrite Hd, Ha, Ht.
    assert (G : forall (f : string * ActiveVoice -> bool) l,
              (forall x, In x l -> f x = false) -> List.filter f l = []).
    { intros f l. induction l as [|x l IHl]; intros Hl; [reflexivity|].
      cbn [List.filter]. rewrite (Hl x (or_introl eq_refl)).
      apply IHl. intros y Hy. apply Hl. right. exact Hy. }
    apply G. intros entry Hin. apply negb_false_iff. apply existsb_exists.
    exists (DEFAULT_RELEASE + 1000, fst entry). split.
    + apply in_or_app. right.
      apply in_map_iff. exists (fst entry). split; [reflexivity|].
      apply in_map. exact Hin.
    + apply String.eqb_refl.
  - intros Hno. unfold drain.
    apply (fire_first_registry (DEFAULT_RELEASE + 1000)); [exact Ha|exact Hnd|].
    rewrite Ht, Hno, map_map. reflexivity.
Qed.

Lemma stopAllNotes_then_drain_witness :
  List.NoDup (map fst (activeVoices three_requests)) /\
  activeVoices (drain (stopAllNotes three_requests 3000)) = [].
Proof.
  assert (H : List.NoDup (map fst (activeVoices three_requests))).
  { vm_compute. repeat constructor; cbn [In]; intuition discriminate. }
  split; [exact H|].
  exact (proj1 (proj2 (stopAllNotes_then_drain three_requests 3000 H))).
Defined.

End SynthMore.

(** * Properties of the audio chain and of the presets *)

Module MixerFacts.

Import Mixer.
Local Open Scope Q_scope.

Lemma level_call_chain g cs :
  level (call_chain g cs) = fold_left level_after cs (level g).
Proof. unfold level. cbn [chain call_chain]. apply fold_left_app. Qed.

Lemma setVolume_in_step g db : volume_in_step g -> volume_in_step (setVolume g db).
Proof.
  intros [Hn _]. unfold setVolume. cbn [hasNodes with_config]. rewrite Hn.
  split; [exact Hn|]. intros _. rewrite level_call_chain. reflexivity.
Qed.

Lemma setReverbWet_in_step g wet :
  volume_in_step g -> volume_in_step (setReverbWet g wet).
Proof.
  intros [Hn Hl]. unfold setReverbWet. cbn [hasNodes with_config]. rewrite Hn.
  split; [exact Hn|]. intros Hm. rewrite level_call_chain. exact (Hl Hm).
Qed.

Lemma setReverbDecay_in_step g decay :
  volume_in_step g -> volume_in_step (setReverbDecay g decay).
Proof.
  intros [Hn Hl]. unfold setReverbDecay. cbn [hasNodes with_config]. rewrite Hn.
  split; [exact Hn|]. intros Hm. rewrite level_call_chain. exact (Hl Hm).
Qed.

Lemma updateConfig_in_step g c :
  volume_in_step g -> volume_in_step (updateConfig g c).
Proof.
  intros H. unfold updateConfig.
  set (g1 := match p_masterVolume c with Some db => setVolume g db | None => g end).
  assert (H1 : volume_in_step g1).
  { subst g1. destruct (p_masterVolume c); [apply setVolume_in_step|]; exact H. }
  clearbody g1.
  set (g2 := match p_reverbWet c with Some wet => setReverbWet g1 wet | None => g1 end).
  assert (H2 : volume_in_step g2).
  { subst g2. destruct (p_reverbWet c); [apply setReverbWet_in_step|]; exact H1. }
  clearbody g2.
  set (g3 := match p_reverbDecay c with
             | Some decay => setReverbDecay g2 decay
             | None => g2
             end).
  assert (H3 : volume_in_step g3).
  { subst g3. destruct (p_reverbDecay c); [apply setReverbDecay_in_step|]; exact H2. }
  clearbody g3. destruct (p_polyphony c); exact H3.
Qed.

Lemma exec_in_step g c : volume_in_step g -> volume_in_step (exec g c).
Proof.
  intros H. destruct c as [db| | |wet|decay|c]; cbn [exec].
  - apply setVolume_in_step. exact H.
  - destruct H as [Hn Hl]. unfold mute. rewrite Hn.
    destruct (isMuted g) eqn:Hm; cbn [negb andb];
      [split; [exact Hn|rewrite Hm; exact Hl]|].
    split; [exact Hn|]. intros Hm'. discriminate Hm'.
  - destruct H as [Hn Hl]. unfold unmute. rewrite Hn.
    destruct (isMuted g) eqn:Hm; cbn [andb];
      [|split; [exact Hn|rewrite Hm; exact Hl]].
    split; [exact Hn|]. intros _.
    change (level (call_chain g [VolumeRampTo (Db (masterVolume (config g))) (1 # 2)])
            = Some (Db (masterVolume (config g)))).
    rewrite level_call_chain. reflexivity.
  - apply setReverbWet_in_step. exact H.
  - apply setReverbDecay_in_step. exact H.
  - apply updateConfig_in_step. exact H.
Qed.

Lemma run_in_step cs : forall g, volume_in_step g -> volume_in_step (run g cs).
Proof.
  induction cs as [|c cs IH]; intros g H; [exact H|].
  cbn [run fold_left]. apply IH. apply exec_in_step. exact H.
Qed.

Lemma exec_before_init g c : before_init g -> before_init (exec g c).
Proof.
  intros (Hn & Hm & Hi).
  assert (Hv : forall g' db, before_init g' -> before_init (setVolume g' db)).
  { intros g' db (Hn' & Hm' & Hi'). unfold setVolume. cbn [hasNodes with_config].
    rewrite Hn'. repeat split; assumption. }
  assert (Hw : forall g' w, before_init g' -> before_init (setReverbWet g' w)).
  { intros g' w (Hn' & Hm' & Hi'). unfold setReverbWet. cbn [hasNodes with_config].
    rewrite Hn'. repeat split; assumption. }
  assert (Hd : forall g' d, before_init g' -> before_init (setReverbDecay g' d)).
  { intros g' d (Hn' & Hm' & Hi'). unfold setReverbDecay. cbn [hasNodes with_config].
    rewrite Hn'. repeat split; assumption. }
  assert (H : before_init g) by (repeat split; assumption).
  destruct c as [db| | |wet|decay|c]; cbn [exec]; auto.
  - unfold mute. rewrite Hn, andb_false_r. exact H.
  - unfold unmute. rewrite Hn, andb_false_r. exact H.
  - unfold updateConfig.
    set (g1 := match p_masterVolume c with Some db => setVolume g db | None => g end).
    assert (H1 : before_init g1) by (subst g1; destruct (p_masterVolume c); auto).
    clearbody g1.
    set (g2 := match p_reverbWet c with
               | Some wet => setReverbWet g1 wet
               | None => g1
               end).
    assert (H2 : before_init g2) by (subst g2; destruct (p_reverbWet c); auto).
    clearbody g2.
    set (g3 := match p_reverbDecay c with
               | Some decay => setReverbDecay g2 decay
               | None => g2
               end).
    assert (H3 : before_init g3) by (subst g3; destruct (p_reverbDecay c); auto).
    clearbody g3. destruct (p_polyphony c); [|exact H3].
    destruct H3 as (? & ? & ?). repeat split; assumption.
Qed.

Lemma run_before_init cs : forall g, before_init g -> before_init (run g cs).
Proof.
  induction cs as [|c cs IH]; intros g H; [exact H|].
  cbn [run fold_left]. apply IH. apply exec_before_init. exact H.
Qed.

Lemma init_begin_in_step g g1 :
  before_init g -> init_begin g = Some g1 -> volume_in_step g1.
Proof.
  intros (Hn & Hm & Hi). unfold init_begin. rewrite Hi. intros [= <-].
  split; [reflexivity|]. intros _. unfold level. cbn [chain call_chain].
  rewrite fold_left_app. reflexivity.
Qed.

(** X18.  The volume node follows the configuration.  Whatever calls
    are made before [init()], while it waits and after it, an engine
    that is not muted has its volume node at the configured master
    volume (the value [getVolume] returns). *)
Theorem volume_follows_config c before during after g1 :
  init_begin (run (new_SynthEngine c) before) = Some g1 ->
  let g := run (init_end (run g1 during)) after in
  isMuted g = false -> level g = Some (Db (getVolume g)).
Proof.
  intros Hinit g.
  assert (H0 : before_init (new_SynthEngine c)) by (repeat split).
  pose proof (run_before_init before _ H0) as Hb.
  pose proof (init_begin_in_step _ _ Hb Hinit) as H1.
  pose proof (run_in_step during _ H1) as H2.
  assert (H3 : volume_in_step (init_end (run g1 during))) by exact H2.
  exact (proj2 (run_in_step after _ H3)).
Qed.

Lemma volume_follows_config_witness :
  let c := {| p_polyphony := None; p_masterVolume := Some (-6); p_reverbWet := None;
              p_reverbDecay := None |} in
  let g := run (init (run (new_SynthEngine c) [SetVolume (-20); Mute]))
               [Mute; SetReverbWet (1 # 2); Unmute] in
  isMuted g = false /\ level g = Some (Db (-20)).
Proof.
  intros c g. split; [reflexivity|].
  exact (volume_follows_config c [SetVolume (-20); Mute] []
           [Mute; SetReverbWet (1 # 2); Unmute] _ eq_refl eq_refl).
Defined.

(** X19.  [setVolume] on a muted engine ramps the volume node to the new
    level: the engine sounds again though [isMuted] stays set, a
    following [mute()] does nothing, and only [unmute()] then [mute()]
    silences it. *)
Theorem setVolume_while_muted g db :
  hasNodes g = true -> isMuted g = true ->
  let g' := setVolume g db in
  isMuted g' = true /\
  level g' = Some (Db db) /\
  mute g' = g' /\
  level (mute (unmute g')) = Some MinusInfinity.
Proof.
  destruct g as [co cf hn im ch]. cbn [hasNodes isMuted]. intros -> ->.
  unfold setVolume, mute, unmute, level.
  cbn [hasNodes isMuted chain config with_config with_isMuted call_chain negb andb
       masterVolume].
  rewrite !fold_left_app. repeat split.
Qed.

Lemma setVolume_while_muted_witness :
  let g := mute (init (new_SynthEngine
                         {| p_polyphony := None; p_masterVolume := None;
                            p_reverbWet := None; p_reverbDecay := None |})) in
  level g = Some MinusInfinity /\
  isMuted (setVolume g (-3)) = true /\
  level (setVolume g (-3)) = Some (Db (-3)).
Proof.
  intros g. split; [reflexivity|].
  destruct (setVolume_while_muted g (-3) eq_refl eq_refl) as (H1 & H2 & _).
  split; [exact H1|exact H2].
Defined.

Lemma updateConfig_core g c :
  p_polyphony c = None -> core (updateConfig g c) = core g.
Proof.
  intros Hp. unfold updateConfig. rewrite Hp.
  assert (Hv : forall g' db, core (setVolume g' db) = core g').
  { intros g' db. unfold setVolume. destruct (hasNodes _); reflexivity. }
  assert (Hw : forall g' w, core (setReverbWet g' w) = core g').
  { intros g' w. unfold setReverbWet. destruct (hasNodes _); reflexivity. }
  assert (Hd : forall g' d, core (setReverbDecay g' d) = core g').
  { intros g' d. unfold setReverbDecay. destruct (hasNodes _); reflexivity. }
  destruct (p_reverbDecay c); [rewrite Hd|];
    (destruct (p_reverbWet c); [rewrite Hw|]);
    (destruct (p_masterVolume c); [rewrite Hv|]); reflexivity.
Qed.

Lemma updateConfig_all g v w d :
  config (updateConfig g {| p_polyphony := None; p_masterVolume := Some v;
                            p_reverbWet := Some w; p_reverbDecay := Some d |})
  = {| masterVolume := v; reverbWet := w; reverbDecay := d |}.
Proof.
  destruct g as [co cf hn im ch].
  unfold updateConfig, setReverbDecay, setReverbWet, setVolume.
  destruct hn; reflexivity.
Qed.

(** X20.  [setPreset] by the name a preset has: the engine takes the
    volume and reverb of that preset.  By a name no preset has: those
    of [ambient], while [currentPreset] keeps the name given.  By the
    name of a member every object inherits (['constructor'],
    ['toString'], ...): the engine is left as it was.  The polyphony
    and the voices are never touched. *)
Theorem setPreset_settings u n :
  currentPreset (setPreset u n) = n /\
  core (synthEngine (setPreset u n)) = core (synthEngine u) /\
  (forall preset, Js.get_property presets n = Js.Own preset ->
     config (synthEngine (setPreset u n)) =
     {| masterVolume := preset_masterVolume preset;
        reverbWet := preset_reverbWet preset;
        reverbDecay := preset_reverbDecay preset |}) /\
  (Js.get_property presets n = Js.Undefined ->
     synthEngine (setPreset u n) = synthEngine (setPreset u "ambient")) /\
  (Js.get_property presets n = Js.Inherited ->
     synthEngine (setPreset u n) = synthEngine u).
Proof.
  unfold setPreset, applyPreset, getPreset.
  cbn [currentPreset synthEngine isEnabled].
  split; [reflexivity|]. split.
  { apply updateConfig_core. destruct (Js.get_property presets n); reflexivity. }
  split; [|split].
  - intros preset ->. apply updateConfig_all.
  - intros ->. reflexivity.
  - intros ->. reflexivity.
Qed.

Lemma setPreset_settings_witness :
  let u := {| isEnabled := true; currentPreset := "ambient";
              synthEngine := init (new_SynthEngine
                                     {| p_polyphony := None; p_masterVolume := None;
                                        p_reverbWet := None; p_reverbDecay := None |}) |} in
  Js.get_property presets "toString" = Js.Inherited /\
  synthEngine (setPreset u "toString") = synthEngine u /\
  Js.get_property presets "dramatic" = Js.Own dramatic /\
  getVolume (synthEngine (setPreset u "dramatic")) = -8.
Proof.
  intros u.
  destruct (setPreset_settings u "toString") as (_ & _ & _ & _ & H).
  destruct (setPreset_settings u "dramatic") as (_ & _ & H' & _).
  split; [reflexivity|]. split; [exact (H eq_refl)|]. split; [reflexivity|].
  unfold getVolume. rewrite (H' dramatic eq_refl). reflexivity.
Defined.

(** X27.  Choosing a preset while sound is disabled turns the sound
    back on: after [disable()] the volume node is at minus infinity, and
    [setPreset] with the name of a preset ramps it to the volume of the
    preset, while [isEnabled] stays false and the engine still counts
    as muted, so that a second [disable()] changes nothing. *)
Theorem setPreset_while_disabled u n preset :
  hasNodes (synthEngine u) = true ->
  isMuted (synthEngine u) = false ->
  Js.get_property presets n = Js.Own preset ->
  let u' := setPreset (disable u) n in
  level (synthEngine (disable u)) = Some MinusInfinity /\
  isEnabled u' = false /\
  isMuted (synthEngine u') = true /\
  level (synthEngine u') = Some (Db (preset_masterVolume preset)) /\
  synthEngine (disable u') = synthEngine u'.
Proof.
  destruct u as [en cur [co cf hn im ch]]. cbn [synthEngine hasNodes isMuted].
  intros -> -> Hown.
  unfold setPreset, applyPreset, getPreset, disable. rewrite Hown.
  cbn [synthEngine isEnabled currentPreset].
  unfold updateConfig, setReverbDecay, setReverbWet, setVolume, mute, level.
  cbn [p_polyphony p_masterVolume p_reverbWet p_reverbDecay hasNodes isMuted chain
       config with_config with_isMuted call_chain negb andb].
  rewrite !fold_left_app. repeat split.
Qed.

Lemma setPreset_while_disabled_witness :
  let u := {| isEnabled := true; currentPreset := "ambient";
              synthEngine := init (new_SynthEngine
                                     {| p_polyphony := None; p_masterVolume := None;
                                        p_reverbWet := None; p_reverbDecay := None |}) |} in
  level (synthEngine (disable u)) = Some MinusInfinity /\
  level (synthEngine (setPreset (disable u) "playful")) = Some (Db (-10)).
Proof.
  intros u.
  destruct (setPreset_while_disabled u "playful" playful eq_refl eq_refl eq_refl)
    as (H1 & _ & _ & H2 & _).
  split; [exact H1|exact H2].
Defined.

End MixerFacts.

(** * Properties of the rounding of doubles *)

Module RoundingFacts.

Import Js Continuous.
Local Open Scope Z_scope.

Lemma round_half_even_bounds a k :
  0 <= a -> 0 < k ->
  a / 2 ^ k <= round_half_even a k <= a / 2 ^ k + 1 /\
  (a mod 2 ^ k = 0 -> round_half_even a k = a / 2 ^ k).
Proof.
  intros Ha Hk. unfold round_half_even. rewrite Z.shiftr_div_pow2 by lia.
  assert (Hh : 0 < 2 ^ (k - 1)) by (apply Z.pow_pos_nonneg; lia).
  split.
  - destruct (_ || _); lia.
  - intros ->. destruct (Z.ltb_spec (2 ^ (k - 1)) 0); [lia|].
    destruct (Z.eqb_spec 0 (2 ^ (k - 1))); [lia|]. reflexivity.
Qed.

Lemma round_half_even_mono a b k :
  0 <= a <= b -> 0 < k -> round_half_even a k <= round_half_even b k.
Proof.
  intros Hab Hk.
  assert (Hp : 0 < 2 ^ k) by (apply Z.pow_pos_nonneg; lia).
  pose proof (Z.div_le_mono a b (2 ^ k) Hp ltac:(lia)) as Hq.
  destruct (Z.eq_dec (a / 2 ^ k) (b / 2 ^ k)) as [E|N].
  - pose proof (Z.div_mod a (2 ^ k) ltac:(lia)) as Ea.
    pose proof (Z.div_mod b (2 ^ k) ltac:(lia)) as Eb.
    assert (Hr : a mod 2 ^ k <= b mod 2 ^ k) by (rewrite E in Ea; lia).
    unfold round_half_even. rewrite !Z.shiftr_div_pow2 by lia. rewrite <- E.
    destruct (Z.ltb_spec (2 ^ (k - 1)) (a mod 2 ^ k));
      destruct (Z.ltb_spec (2 ^ (k - 1)) (b mod 2 ^ k));
      destruct (Z.eqb_spec (a mod 2 ^ k) (2 ^ (k - 1)));
      destruct (Z.eqb_spec (b mod 2 ^ k) (2 ^ (k - 1)));
      destruct (Z.odd (a / 2 ^ k)); cbn [orb andb]; lia.
  - pose proof (round_half_even_bounds a k ltac:(lia) Hk) as [Ha _].
    pose proof (round_half_even_bounds b k ltac:(lia) Hk) as [Hb _]. lia.
Qed.

(** For [P >= 2^53]: the quotient by [2^k] has 53 bits. *)
Lemma significand_range P :
  2 ^ 53 <= P ->
  let k := Z.log2 P - 52 in
  0 < k /\ 2 ^ 52 <= P / 2 ^ k < 2 ^ 53 /\ 2 ^ Z.log2 P = 2 ^ 52 * 2 ^ k.
Proof.
  intros HP k.
  assert (Hl : 53 <= Z.log2 P).
  { apply Z.log2_le_pow2; lia. }
  destruct (Z.log2_spec P ltac:(lia)) as [Hlo Hhi].
  assert (Hk : 0 < k) by (subst k; lia).
  assert (Hp : 0 < 2 ^ k) by (apply Z.pow_pos_nonneg; lia).
  assert (E : 2 ^ Z.log2 P = 2 ^ 52 * 2 ^ k).
  { rewrite <- Z.pow_add_r by lia. f_equal. subst k. lia. }
  assert (E' : 2 ^ Z.succ (Z.log2 P) = 2 ^ 53 * 2 ^ k).
  { rewrite <- Z.pow_add_r by lia. f_equal. subst k. lia. }
  split; [exact Hk|]. split; [|exact E]. split.
  - apply Z.div_le_lower_bound; [exact Hp|]. lia.
  - apply Z.div_lt_upper_bound; [exact Hp|]. lia.
Qed.

Lemma nearest53_bounds P :
  2 ^ 53 <= P ->
  2 ^ Z.log2 P <= nearest53 P <= 2 ^ (Z.log2 P + 1) /\
  exists c, 2 ^ 52 <= c <= 2 ^ 53 /\ nearest53 P = c * 2 ^ (Z.log2 P - 52).
Proof.
  intros HP. destruct (significand_range P HP) as (Hk & Hq & E).
  unfold nearest53. destruct (Z.ltb_spec P (2 ^ 53)); [lia|].
  set (k := Z.log2 P - 52) in *.
  assert (Hp : 0 < 2 ^ k) by (apply Z.pow_pos_nonneg; lia).
  pose proof (round_half_even_bounds P k ltac:(lia) Hk) as [Hb _].
  assert (Hl : 53 <= Z.log2 P) by (apply Z.log2_le_pow2; lia).
  assert (E' : 2 ^ (Z.log2 P + 1) = 2 ^ 53 * 2 ^ k).
  { rewrite <- Z.pow_add_r by lia. f_equal. subst k. lia. }
  split.
  - rewrite E, E'. split; apply Z.mul_le_mono_nonneg_r; lia.
  - exists (round_half_even P k). split; [lia|reflexivity].
Qed.

Lemma nearest53_mono P P' : 0 <= P <= P' -> nearest53 P <= nearest53 P'.
Proof.
  intros H.
  destruct (Z.lt_ge_cases P (2 ^ 53)) as [Hs|Hb];
    destruct (Z.lt_ge_cases P' (2 ^ 53)) as [Hs'|Hb']; try lia.
  - unfold nearest53. destruct (Z.ltb_spec P (2 ^ 53)); [|lia].
    destruct (Z.ltb_spec P' (2 ^ 53)); lia.
  - pose proof (nearest53_bounds P' Hb') as [[Hlo _] _].
    assert (2 ^ 53 <= 2 ^ Z.log2 P').
    { apply Z.pow_le_mono_r; [lia|]. apply Z.log2_le_pow2; lia. }
    unfold nearest53 at 1. destruct (Z.ltb_spec P (2 ^ 53)); lia.
  - pose proof (Z.log2_le_mono P P' ltac:(lia)) as Hl.
    destruct (Z.eq_dec (Z.log2 P) (Z.log2 P')) as [E|N].
    + destruct (significand_range P Hb) as (Hk & _ & _).
      unfold nearest53. destruct (Z.ltb_spec P (2 ^ 53)); [lia|].
      destruct (Z.ltb_spec P' (2 ^ 53)); [lia|]. rewrite <- E.
      apply Z.mul_le_mono_nonneg_r; [apply Z.pow_nonneg; lia|].
      apply round_half_even_mono; lia.
    + pose proof (nearest53_bounds P Hb) as [[_ Hhi] _].
      pose proof (nearest53_bounds P' Hb') as [[Hlo _] _].
      assert (2 ^ (Z.log2 P + 1) <= 2 ^ Z.log2 P') by (apply Z.pow_le_mono_r; lia).
      lia.
Qed.

Lemma ltb_mul_r a b t : 0 < t -> (a * t <? b * t) = (a <? b).
Proof.
  intros Ht. destruct (Z.ltb_spec a b) as [H|H].
  - apply Z.ltb_lt. apply Z.mul_lt_mono_pos_r; assumption.
  - apply Z.ltb_ge. apply Z.mul_le_mono_nonneg_r; lia.
Qed.

Lemma eqb_mul_r a b t : 0 < t -> (a * t =? b * t) = (a =? b).
Proof.
  intros Ht. destruct (Z.eqb_spec a b) as [->|H].
  - apply Z.eqb_refl.
  - apply Z.eqb_neq. intros E. apply Z.mul_cancel_r in E; lia.
Qed.

Lemma nearest53_scale P j :
  0 <= P -> 0 <= j -> nearest53 (P * 2 ^ j) = nearest53 P * 2 ^ j.
Proof.
  intros HP Hj.
  assert (Hpj : 0 < 2 ^ j) by (apply Z.pow_pos_nonneg; lia).
  destruct (Z.eq_dec P 0) as [->|Hn0]; [reflexivity|].
  assert (Hlog : Z.log2 (P * 2 ^ j) = j + Z.log2 P) by (apply Z.log2_mul_pow2; lia).
  destruct (Z.lt_ge_cases P (2 ^ 53)) as [Hs|Hb].
  - unfold nearest53 at 2. destruct (Z.ltb_spec P (2 ^ 53)); [|lia].
    unfold nearest53. destruct (Z.ltb_spec (P * 2 ^ j) (2 ^ 53)); [reflexivity|].
    destruct (significand_range (P * 2 ^ j) ltac:(lia)) as (Hk & _ & _).
    set (k := Z.log2 (P * 2 ^ j) - 52) in *.
    assert (Hl52 : Z.log2 P <= 52).
    { assert (Z.log2 P < 53); [|lia]. apply Z.log2_lt_pow2; lia. }
    assert (Hkj : k <= j) by (subst k; lia).
    assert (Hpk : 0 < 2 ^ k) by (apply Z.pow_pos_nonneg; lia).
    assert (Ej : 2 ^ j = 2 ^ (j - k) * 2 ^ k).
    { rewrite <- Z.pow_add_r by lia. f_equal. lia. }
    pose proof (round_half_even_bounds (P * 2 ^ j) k ltac:(lia) Hk) as [_ Hex].
    rewrite Hex.
    + rewrite Ej, Z.mul_assoc, Z.div_mul by lia. reflexivity.
    + rewrite Ej, Z.mul_assoc. apply Z.mod_mul. lia.
  - assert (Hb' : 2 ^ 53 <= P * 2 ^ j) by nia.
    destruct (significand_range P Hb) as (Hk & _ & _).
    unfold nearest53. destruct (Z.ltb_spec P (2 ^ 53)); [lia|].
    destruct (Z.ltb_spec (P * 2 ^ j) (2 ^ 53)); [lia|].
    rewrite Hlog. set (k := Z.log2 P - 52) in *.
    replace (j + Z.log2 P - 52) with (k + j) by (subst k; lia).
    assert (Hpk : 0 < 2 ^ k) by (apply Z.pow_pos_nonneg; lia).
    assert (Hh : 0 < 2 ^ (k - 1)) by (apply Z.pow_pos_nonneg; lia).
    rewrite Z.pow_add_r by lia.
    assert (Er : round_half_even (P * 2 ^ j) (k + j) = round_half_even P k).
    { unfold round_half_even. rewrite !Z.shiftr_div_pow2 by lia.
      rewrite Z.pow_add_r by lia. rewrite Z.div_mul_cancel_r by lia.
      rewrite Z.mul_mod_distr_r by lia.
      replace (k + j - 1) with ((k - 1) + j) by lia. rewrite Z.pow_add_r by lia.
      rewrite ltb_mul_r, eqb_mul_r by lia. reflexivity. }
    rewrite Er. ring.
Qed.

(** A value of 53 bits or fewer, shifted: it is kept. *)
Lemma nearest53_exact c j :
  0 <= c <= 2 ^ 53 -> 0 <= j -> nearest53 (c * 2 ^ j) = c * 2 ^ j.
Proof.
  intros Hc Hj. destruct (Z.eq_dec c (2 ^ 53)) as [->|Hn].
  - replace (2 ^ 53 * 2 ^ j) with (2 ^ 52 * 2 ^ (j + 1)).
    + rewrite nearest53_scale by lia. reflexivity.
    + rewrite Z.pow_add_r by lia. change (2 ^ 53) with (2 ^ 52 * 2). ring.
  - rewrite nearest53_scale by lia. unfold nearest53.
    destruct (Z.ltb_spec c (2 ^ 53)); [reflexivity|lia].
Qed.

Lemma nearest53_form P :
  0 <= P -> exists c j, 0 <= c <= 2 ^ 53 /\ 0 <= j /\ nearest53 P = c * 2 ^ j.
Proof.
  intros HP. destruct (Z.lt_ge_cases P (2 ^ 53)) as [Hs|Hb].
  - exists P, 0. unfold nearest53. destruct (Z.ltb_spec P (2 ^ 53)); [|lia].
    split; [lia|]. split; [lia|]. rewrite Z.mul_1_r. reflexivity.
  - destruct (nearest53_bounds P Hb) as [_ (c & Hc & E)].
    destruct (significand_range P Hb) as (Hk & _ & _).
    exists c, (Z.log2 P - 52). split; [lia|]. split; [lia|exact E].
Qed.

Lemma round53_value p e E :
  0 <= p -> E <= e ->
  e <= snd (round53 p e) /\ 0 <= fst (round53 p e) /\
  fst (round53 p e) * 2 ^ (snd (round53 p e) - E) = nearest53 (p * 2 ^ (e - E)).
Proof.
  intros Hp HE. rewrite nearest53_scale by lia.
  unfold round53, nearest53. rewrite (Z.abs_eq p) by lia.
  destruct (Z.ltb_spec p (2 ^ 53)); cbn [fst snd].
  - split; [lia|]. split; [lia|reflexivity].
  - destruct (significand_range p ltac:(lia)) as (Hk & _ & _).
    set (k := Z.log2 p - 52) in *.
    pose proof (round_half_even_bounds p k Hp Hk) as [Hb _].
    assert (0 <= p / 2 ^ k) by (apply Z.div_pos; [lia|apply Z.pow_pos_nonneg; lia]).
    rewrite (Z.sgn_pos p) by lia. rewrite Z.mul_1_l.
    split; [lia|]. split; [lia|].
    replace (e + k - E) with (k + (e - E)) by lia.
    rewrite Z.pow_add_r by lia. ring.
Qed.

Lemma shiftl_scaled q e E :
  E <= e -> E <= 0 -> Z.shiftl q e = (q * 2 ^ (e - E)) / 2 ^ (- E).
Proof.
  intros He H0. destruct (Z.le_gt_cases 0 e) as [Hpos|Hneg].
  - rewrite Z.shiftl_mul_pow2 by lia.
    replace (e - E) with (e + - E) by lia. rewrite Z.pow_add_r by lia.
    rewrite Z.mul_assoc, Z.div_mul; [reflexivity|].
    apply Z.pow_nonzero; lia.
  - rewrite Z.shiftl_div_pow2 by lia.
    replace (- E) with ((- e) + (e - E)) by lia. rewrite Z.pow_add_r by lia.
    rewrite Z.div_mul_cancel_r; [reflexivity| |]; apply Z.pow_nonzero; lia.
Qed.

(** The product of a double that is not negative and an integer, when
    the exact product is at most [B]: it is finite, and its value is the
    exact product rounded. *)
Lemma times_value m e n B E :
  0 <= m -> 0 <= n -> E <= e -> E <= 0 -> 0 <= B < 2 ^ 53 ->
  m * 2 ^ (e - E) * n <= B * 2 ^ (- E) ->
  exists q e',
    times (Finite m e) n = Finite q e' /\ 0 <= q /\ e <= e' /\
    q * 2 ^ (e' - E) = nearest53 (m * 2 ^ (e - E) * n) /\
    q * 2 ^ (e' - E) <= B * 2 ^ (- E).
Proof.
  intros Hm Hn He H0 HB Hle.
  assert (Hs : 0 < 2 ^ (e - E)) by (apply Z.pow_pos_nonneg; lia).
  destruct (round53_value (m * n) e E ltac:(nia) He) as (He' & Hq & Hv).
  replace (m * n * 2 ^ (e - E)) with (m * 2 ^ (e - E) * n) in Hv by ring.
  assert (Hbound : nearest53 (m * 2 ^ (e - E) * n) <= B * 2 ^ (- E)).
  { rewrite <- (nearest53_exact B (- E)) by lia.
    apply nearest53_mono. split; [nia|exact Hle]. }
  unfold times. destruct (round53 (m * n) e) as [q e'] eqn:Er. cbn [fst snd] in *.
  exists q, e'.
  assert (Hno : negb (q =? 0) && (1024 <=? Z.log2 (Z.abs q) + e') = false).
  { destruct (Z.eqb_spec q 0) as [->|Hq0]; [reflexivity|]. cbn [negb andb].
    apply Z.leb_gt. rewrite Z.abs_eq by lia.
    assert (HBpos : 0 < B).
    { assert (0 < q * 2 ^ (e' - E)); [|nia].
      apply Z.mul_pos_pos; [lia|apply Z.pow_pos_nonneg; lia]. }
    assert (Hl : Z.log2 (q * 2 ^ (e' - E)) <= Z.log2 (B * 2 ^ (- E))).
    { apply Z.log2_le_mono. lia. }
    rewrite !Z.log2_mul_pow2 in Hl by lia.
    assert (Z.log2 B < 53) by (apply Z.log2_lt_pow2; lia). lia. }
  rewrite Hno. split; [reflexivity|]. split; [exact Hq|]. split; [exact He'|].
  split; [exact Hv|]. rewrite Hv. exact Hbound.
Qed.

(** [Math.floor(x * n * 2)] for a double [0 <= x <= 1] and an integer
    [0 <= n < 2^32], with [X = x * 2^-E] an integer. *)
Lemma position_degree m e n E :
  0 <= m -> 0 <= n < 2 ^ 32 -> E <= e -> E <= 0 ->
  m * 2 ^ (e - E) <= 2 ^ (- E) ->
  Math_floor (times (times (Finite m e) n) 2)
  = Num ((2 * nearest53 (m * 2 ^ (e - E) * n)) / 2 ^ (- E)).
Proof.
  intros Hm Hn He H0 Hx.
  assert (Hs : 0 < 2 ^ (- E)) by (apply Z.pow_pos_nonneg; lia).
  destruct (times_value m e n n E Hm ltac:(lia) He H0) as (q1 & e1 & -> & Hq1 & He1 & Hv1 & Hb1).
  { change (2 ^ 53) with 9007199254740992. change (2 ^ 32) with 4294967296 in Hn. lia. }
  { rewrite (Z.mul_comm n). apply Z.mul_le_mono_nonneg_r; lia. }
  destruct (times_value q1 e1 2 (2 * n) E Hq1 ltac:(lia) ltac:(lia) H0)
    as (q2 & e2 & -> & Hq2 & He2 & Hv2 & Hb2).
  { change (2 ^ 53) with 9007199254740992. change (2 ^ 32) with 4294967296 in Hn. lia. }
  { lia. }
  cbn [Math_floor]. f_equal. rewrite (shiftl_scaled q2 e2 E) by lia.
  f_equal. rewrite Hv2, Hv1.
  destruct (nearest53_form (m * 2 ^ (e - E) * n)) as (c & j & Hc & Hj & ->).
  { assert (0 < 2 ^ (e - E)) by (apply Z.pow_pos_nonneg; lia). nia. }
  replace (c * 2 ^ j * 2) with (c * 2 ^ (j + 1)).
  - rewrite nearest53_exact by lia. rewrite Z.pow_add_r by lia. ring.
  - rewrite Z.pow_add_r by lia. ring.
Qed.

Lemma nearest53_nonneg P : 0 <= P -> 0 <= nearest53 P.
Proof. intros H. change 0 with (nearest53 0) at 1. apply nearest53_mono. lia. Qed.

(** An order between two doubles, brought to a common unit. *)
Lemma double_le_scaled mx ex my ey E :
  double_le (Finite mx ex) (Finite my ey) ->
  E <= ex -> E <= ey ->
  mx * 2 ^ (ex - E) <= my * 2 ^ (ey - E).
Proof.
  cbn [double_le]. intros H Hx Hy. set (E1 := Z.min ex ey) in *.
  assert (Ht : 0 < 2 ^ (E1 - E)) by (apply Z.pow_pos_nonneg; lia).
  replace (ex - E) with ((ex - E1) + (E1 - E)) by lia.
  replace (ey - E) with ((ey - E1) + (E1 - E)) by lia.
  rewrite !Z.pow_add_r by lia. rewrite !Z.mul_assoc.
  apply Z.mul_le_mono_nonneg_r; lia.
Qed.

End RoundingFacts.

(** * Properties of the behaviours that pick notes *)

Module PluckFacts.

Import Js Harmony Pluck Continuous HarmonyFacts.
Local Open Scope Z_scope.


Section Scale.

Variables (m : HarmonyManager) (r : Z) (sc : list Z).
Hypothesis Hroot : rootNote m = Num r.
Hypothesis Hscale : scale (state m) = Some sc.
Hypothesis Hne : sc <> [].

Let len := Z.of_nat (length sc).

Lemma scale_len_pos : 0 < len.
Proof. subst len. destruct sc; [congruence|cbn [length]; lia]. Qed.






(** X23.  A pointer moving from the left edge of the element to the
    right edge sweeps two octaves of an ascending scale and never
    lowers the pitch: for doubles [0 <= x <= y <= 1], a pitch class
    as the root, fewer than 2^32 intervals and an octave of magnitude
    below 2^32, the notes are numbers, ordered as the positions, from
    the first degree of the octave to two octaves above it.  The degree
    is the floor of the product as the doubles round it. *)
Theorem calculateNoteFromPosition_two_octaves x y octave :
  ascending_in_octave sc = true ->
  len < 2 ^ 32 -> 0 <= r < 12 -> small octave = true ->
  representable x -> representable y ->
  double_le (Finite 0 0) x -> double_le x y -> double_le y (Finite 1 0) ->
  exists nx ny,
    calculateNoteFromPosition m x octave = Return (Num nx) /\
    calculateNoteFromPosition m y octave = Return (Num ny) /\
    MIDDLE_C + (octave - 4) * 12 + r + nth 0 sc 0 <= nx /\
    nx <= ny /\
    ny <= MIDDLE_C + (octave - 4) * 12 + r + nth 0 sc 0 + 24.
Proof.
  intros Hasc Hn _ _ _ _ H0 Hxy H1. pose proof scale_len_pos as Hlen.
  destruct x as [mx ex|]; [|destruct H0].
  destruct y as [my ey|]; [|destruct Hxy].
  set (E := Z.min (Z.min ex ey) 0).
  assert (Hs : 0 < 2 ^ (- E)) by (apply Z.pow_pos_nonneg; lia).
  pose proof (RoundingFacts.double_le_scaled 0 0 mx ex E H0 ltac:(lia) ltac:(lia)) as HX0.
  pose proof (RoundingFacts.double_le_scaled mx ex my ey E Hxy ltac:(lia) ltac:(lia))
    as HXY.
  pose proof (RoundingFacts.double_le_scaled my ey 1 0 E H1 ltac:(lia) ltac:(lia)) as HY1.
  rewrite Z.mul_0_l in HX0. rewrite Z.mul_1_l, Z.sub_0_l in HY1.
  set (X := mx * 2 ^ (ex - E)) in *. set (Y := my * 2 ^ (ey - E)) in *.
  assert (Hmx : 0 <= mx).
  { assert (0 < 2 ^ (ex - E)) by (apply Z.pow_pos_nonneg; lia). subst X. nia. }
  assert (Hmy : 0 <= my).
  { assert (0 < 2 ^ (ey - E)) by (apply Z.pow_pos_nonneg; lia). subst Y. nia. }
  unfold calculateNoteFromPosition, getCurrentScale. rewrite Hscale. fold len.
  rewrite (RoundingFacts.position_degree mx ex len E) by (fold X; lia).
  rewrite (RoundingFacts.position_degree my ey len E) by (fold Y; lia).
  fold X Y.
  set (dx := 2 * nearest53 (X * len) / 2 ^ (- E)).
  set (dy := 2 * nearest53 (Y * len) / 2 ^ (- E)).
  assert (Hdx : 0 <= dx).
  { subst dx. apply Z.div_pos; [|exact Hs].
    pose proof (RoundingFacts.nearest53_nonneg (X * len) ltac:(nia)). lia. }
  assert (Hdxy : dx <= dy).
  { subst dx dy. apply Z.div_le_mono; [exact Hs|].
    pose proof (RoundingFacts.nearest53_mono (X * len) (Y * len) ltac:(nia)). lia. }
  assert (Hdy : dy <= 2 * len).
  { subst dy.
    pose proof (RoundingFacts.nearest53_mono (Y * len) (len * 2 ^ (- E)) ltac:(nia))
      as Hm.
    rewrite (RoundingFacts.nearest53_exact len (- E)) in Hm
      by (change (2 ^ 53) with 9007199254740992;
          change (2 ^ 32) with 4294967296 in Hn; lia).
    rewrite <- (Z.div_mul (2 * len) (2 ^ (- E))) by lia.
    apply Z.div_le_mono; [exact Hs|]. lia. }
  rewrite !(getScaleNote_nonneg m r sc Hroot Hscale Hne) by lia.
  exists (getScaleNote_spec r sc dx octave), (getScaleNote_spec r sc dy octave).
  split; [reflexivity|]. split; [reflexivity|].
  pose proof (HarmonyMore.getScaleNote_spec_increasing m r sc Hscale Hne Hasc) as Hinc.
  assert (E0 : getScaleNote_spec r sc 0 octave
               = MIDDLE_C + (octave - 4) * 12 + r + nth 0 sc 0).
  { unfold getScaleNote_spec. fold len. rewrite Z.mod_0_l, Z.div_0_l by lia.
    unfold MIDDLE_C. change (Z.to_nat 0) with 0%nat. ring. }
  assert (E2 : getScaleNote_spec r sc (2 * len) octave
               = MIDDLE_C + (octave - 4) * 12 + r + nth 0 sc 0 + 24).
  { unfold getScaleNote_spec. fold len.
    rewrite Z.mod_mul, Z.div_mul by lia. unfold MIDDLE_C.
    change (Z.to_nat 0) with 0%nat. ring. }
  rewrite <- E2, <- E0. repeat split.
  - destruct (Z.eq_dec dx 0) as [->|Hn0]; [lia|].
    specialize (Hinc 0 dx octave ltac:(lia)). lia.
  - destruct (Z.eq_dec dx dy) as [->|Hnxy]; [lia|].
    specialize (Hinc dx dy octave ltac:(lia)). lia.
  - destruct (Z.eq_dec dy (2 * len)) as [->|Hn2]; [lia|].
    specialize (Hinc dy (2 * len) octave ltac:(lia)). lia.
Qed.

End Scale.



Lemma calculateNoteFromPosition_two_octaves_witness :
  calculateNoteFromPosition C_major one_seventh 4 = Return (Num 64) /\
  calculateNoteFromPosition C_major three_quarters 4 = Return (Num 77) /\
  exists nx ny,
    calculateNoteFromPosition C_major one_seventh 4 = Return (Num nx) /\
    calculateNoteFromPosition C_major three_quarters 4 = Return (Num ny) /\
    MIDDLE_C + (4 - 4) * 12 + 0 + nth 0 [0; 2; 4; 5; 7; 9; 11] 0 <= nx /\
    nx <= ny /\
    ny <= MIDDLE_C + (4 - 4) * 12 + 0 + nth 0 [0; 2; 4; 5; 7; 9; 11] 0 + 24.
Proof.
  split; [reflexivity|]. split; [reflexivity|].
  apply (calculateNoteFromPosition_two_octaves C_major 0 [0; 2; 4; 5; 7; 9; 11]
           eq_refl eq_refl ltac:(discriminate) one_seventh three_quarters 4).
  - reflexivity.
  - reflexivity.
  - lia.
  - reflexivity.
  - split; [reflexivity|split; apply Z.leb_le; reflexivity].
  - split; [reflexivity|split; apply Z.leb_le; reflexivity].
  - apply Z.leb_le. reflexivity.
  - apply Z.leb_le. reflexivity.
  - apply Z.leb_le. reflexivity.
Defined.

End PluckFacts.

(** * Properties of the chord pad *)

Module ChordPadFacts.

Import Synth SynthFacts SynthMore ChordPad.
Local Open Scope Z_scope.

Lemma playNote_sustained_timers e now pitch vel name :
  map_size (activeVoices e) < polyphony e ->
  timers (snd (playNote e now pitch vel None name)) = timers e.
Proof.
  intros Hroom. unfold playNote. destruct (isInitialized e); cbn [negb snd];
    [|reflexivity].
  rewrite Z.geb_leb. destruct (Z.leb_spec (polyphony e) (map_size (activeVoices e)));
    [lia|].
  destruct (voices e !! name); [|reflexivity].
  cbn [onNotePlayCallback call_backend with_activeVoices with_nextVoiceId].
  destruct (onNotePlayCallback e); reflexivity.
Qed.

Lemma minted_later_absent e k :
  ids_minted e -> (nextVoiceId e <= k)%nat ->
  map_get (activeVoices e) (voice_id k) = None.
Proof.
  intros H Hk. apply map_get_not_in. intros Hin.
  apply in_map_iff in Hin as (entry & Hkey & Hin).
  destruct (proj1 (List.Forall_forall _ _) H entry Hin) as (j & Hlt & Hid).
  rewrite Hid in Hkey. apply voice_id_inj in Hkey. lia.
Qed.

Section Chord.

Variables (now : Z) (volume : Q) (voice : string) (definition : VoiceDefinition).

(** The loop of [onEnter], from any list of ids collected so far. *)
Lemma play_chord_fold chordNotes : forall ids0 e,
  isInitialized e = true -> voices e !! voice = Some definition -> ids_minted e ->
  let r := fold_left
             (fun acc note =>
                let '(voiceId, e') := playNote (snd acc) now note volume None voice in
                ((fst acc ++ [voiceId])%list, e'))
             chordNotes (ids0, e) in
  fst r = (ids0 ++ map voice_id (seq (nextVoiceId e) (length chordNotes)))%list /\
  map fst (activeVoices (snd r)) =
  (map fst (activeVoices e)
   ++ map voice_id (seq (nextVoiceId e) (length chordNotes)))%list /\
  isInitialized (snd r) = true /\
  voices (snd r) !! voice = Some definition /\
  ids_minted (snd r) /\
  nextVoiceId (snd r) = (nextVoiceId e + length chordNotes)%nat /\
  polyphony (snd r) = polyphony e /\
  (map_size (activeVoices e) + Z.of_nat (length chordNotes) <= polyphony e ->
   timers (snd r) = timers e).
Proof.
  induction chordNotes as [|n notes IH]; intros ids0 e Hinit Hvoice Hids;
    cbn [fold_left length seq map].
  - cbn [fst snd]. rewrite !app_nil_r, Nat.add_0_r. repeat split; assumption.
  - cbn [fst snd].
    pose proof (playNote_id e now n volume None voice) as Hid.
    pose proof (playNote_appends e now n volume None voice definition
                  Hinit Hvoice Hids) as (Ha & Hi' & Hv' & Hids').
    pose proof (playNote_frame e now n volume None voice)
      as (_ & _ & Hp & _ & Hn).
    specialize (Hn Hinit (ex_intro _ definition Hvoice)).
    pose proof (playNote_sustained_timers e now n volume voice) as Ht.
    rewrite Hinit, Hvoice in Hid.
    destruct (playNote e now n volume None voice) as [vid e'].
    cbn [fst snd] in Hid, Ha, Hi', Hv', Hids', Hp, Hn, Ht. subst vid.
    destruct (IH (ids0 ++ [voice_id (nextVoiceId e)])%list e' Hi' Hv' Hids')
      as (I1 & I2 & I3 & I4 & I5 & I6 & I7 & I8).
    rewrite I1, I2, I6, I7, Hn, Hp, Ha, map_app, <- !app_assoc.
    cbn [map fst app].
    split; [reflexivity|]. split; [reflexivity|]. split; [exact I3|].
    split; [exact I4|]. split; [exact I5|]. split; [lia|]. split; [reflexivity|].
    intros Hroom. rewrite I8.
    + apply Ht. unfold map_size in *. lia.
    + rewrite Ha, Hp. unfold map_size in *. rewrite length_app. cbn [length]. lia.
Qed.

End Chord.

(** The loop of [onLeave] and of [cleanup]. *)
Lemma stop_chord_spec now fadeOut voiceIds : forall e,
  activeVoices (stop_chord e now voiceIds fadeOut) = activeVoices e /\
  (forall k, has_timer (stop_chord e now voiceIds fadeOut) k = true <->
             has_timer e k = true \/
             (In k voiceIds /\ map_get (activeVoices e) k <> None)).
Proof.
  induction voiceIds as [|v ids IH]; intros e; cbn [stop_chord fold_left].
  - split; [reflexivity|]. intros k. split; [auto|]. intros [H|[[] _]]. exact H.
  - fold (stop_chord (stopNote e now v fadeOut) now ids fadeOut).
    destruct (IH (stopNote e now v fadeOut)) as [Ha Ht].
    assert (H1 : activeVoices (stopNote e now v fadeOut) = activeVoices e).
    { unfold stopNote. destruct (map_get (activeVoices e) v); reflexivity. }
    assert (H2 : forall k, has_timer (stopNote e now v fadeOut) k = true <->
                           has_timer e k = true \/
                           (k = v /\ map_get (activeVoices e) k <> None)).
    { intros k. unfold stopNote.
      destruct (map_get (activeVoices e) v) as [rec|] eqn:E.
      - unfold has_timer. cbn [timers setTimeout call_backend].
        rewrite existsb_app. cbn [existsb snd]. rewrite orb_false_r, orb_true_iff.
        split; (intros [H|H]; [left; exact H|right]).
        + apply String.eqb_eq in H. subst k. split; [reflexivity|congruence].
        + destruct H as [-> _]. apply String.eqb_refl.
      - split; [auto|]. intros [H|[-> H]]; [exact H|contradiction]. }
    rewrite Ha, H1. split; [reflexivity|]. intros k. rewrite Ht, H2, H1.
    cbn [In]. intuition (subst; auto).
Qed.

Lemma map_get_filter_key {A} (p : string -> bool) (m : list (string * A)) k :
  map_get (List.filter (fun entry => p (fst entry)) m) k =
  if p k then map_get m k else None.
Proof.
  induction m as [|[k' v'] m IH]; cbn [List.filter map_get fst].
  - destruct (p k); reflexivity.
  - destruct (p k') eqn:Ek'; cbn [map_get]; destruct (String.eqb_spec k' k) as [->|Hne].
    + rewrite Ek'. reflexivity.
    + exact IH.
    + rewrite IH, Ek'. reflexivity.
    + exact IH.
Qed.

Lemma drain_lookup e k :
  map_get (activeVoices (drain e)) k =
  if has_timer e k then None else map_get (activeVoices e) k.
Proof.
  unfold drain. destruct (fire_first_spec (timers e) e eq_refl) as [_ H].
  rewrite H.
  rewrite (map_get_filter_key
             (fun key => negb (existsb (fun t => String.eqb (snd t) key) (timers e)))).
  unfold has_timer. destruct (existsb _ (timers e)); reflexivity.
Qed.

(** X24.  Entering a pad plays one sustained voice per note of the
    chord, under ids that are new and distinct, and stores them for the
    element; leaving stops each of them, forgets the element, and once
    the cleanups have run none of them is left in the registry. *)
Theorem chord_enter_leave b e now now' element chordNotes volume voice fadeOut
    definition :
  isInitialized e = true -> voices e !! voice = Some definition -> ids_minted e ->
  let entered := onEnter b e now element chordNotes volume voice in
  let left := onLeave (fst entered) (snd entered) now' element fadeOut in
  exists voiceIds,
    activeChords (fst entered) !! element = Some voiceIds /\
    length voiceIds = length chordNotes /\
    List.NoDup voiceIds /\
    (forall k, In k voiceIds ->
       map_get (activeVoices e) k = None /\
       map_get (activeVoices (snd entered)) k <> None /\
       map_get (activeVoices (drain (snd left))) k = None) /\
    activeChords (fst left) !! element = None.
Proof.
  intros Hinit Hvoice Hids entered left.
  pose proof (play_chord_fold now volume voice definition chordNotes [] e
                Hinit Hvoice Hids) as (I1 & I2 & _).
  fold (play_chord e now chordNotes volume voice) in I1, I2.
  subst left entered. unfold onEnter.
  destruct (play_chord e now chordNotes volume voice) as [ids e1].
  cbn [fst snd app] in *. subst ids.
  set (ids := map voice_id (seq (nextVoiceId e) (length chordNotes))) in *.
  unfold onLeave. cbn [activeChords]. rewrite lookup_insert_eq. cbn [fst snd activeChords].
  exists ids. split; [reflexivity|].
  split; [subst ids; rewrite length_map, length_seq; reflexivity|].
  split.
  { subst ids. apply Finite.Injective_map_NoDup; [|apply List.seq_NoDup].
    intros x y. apply voice_id_inj. }
  split; [|apply lookup_delete_eq].
  intros k Hk. destruct (stop_chord_spec now' fadeOut ids e1) as [Ha Ht].
  assert (Hin : map_get (activeVoices e1) k <> None).
  { apply map_get_in_some. rewrite I2. apply in_or_app. right. exact Hk. }
  split; [|split; [exact Hin|]].
  - subst ids. apply in_map_iff in Hk as (j & <- & Hj). apply in_seq in Hj.
    apply minted_later_absent; [exact Hids|lia].
  - rewrite drain_lookup.
    rewrite (proj2 (Ht k) (or_intror (conj Hk Hin))). reflexivity.
Qed.

Lemma chord_enter_leave_witness :
  let entered := onEnter {| activeChords := ∅ |} (engine 2) 0 7%nat [48; 52; 55]
                         (4 # 10) "synth" in
  let left := onLeave (fst entered) (snd entered) 900 7%nat 500 in
  exists voiceIds,
    activeChords (fst entered) !! 7%nat = Some voiceIds /\
    length voiceIds = 3%nat /\
    List.NoDup voiceIds /\
    (forall k, In k voiceIds ->
       map_get (activeVoices (engine 2)) k = None /\
       map_get (activeVoices (snd entered)) k <> None /\
       map_get (activeVoices (drain (snd left))) k = None) /\
    activeChords (fst left) !! 7%nat = None.
Proof.
  apply (chord_enter_leave {| activeChords := ∅ |} (engine 2) 0 900 7%nat
           [48; 52; 55] (4 # 10) "synth" 500 0%nat);
    [reflexivity|reflexivity|apply List.Forall_nil].
Defined.

(** X25.  Entering a pad twice without leaving it, as when two handlers
    are attached to the element, overwrites the ids stored for it:
    leaving then stops the second chord only.  With room under the
    ceiling and no cleanup pending, the voices of the first chord are
    still in the registry when all callbacks have run, and the pad no
    longer knows them. *)
Theorem chord_reentry_leaks b e now1 now2 now3 element notes1 notes2 volume voice
    fadeOut definition :
  isInitialized e = true -> voices e !! voice = Some definition -> ids_minted e ->
  timers e = [] ->
  map_size (activeVoices e) + Z.of_nat (length notes1) + Z.of_nat (length notes2)
  <= polyphony e ->
  let first := onEnter b e now1 element notes1 volume voice in
  let second := onEnter (fst first) (snd first) now2 element notes2 volume voice in
  let left := onLeave (fst second) (snd second) now3 element fadeOut in
  exists voiceIds,
    activeChords (fst first) !! element = Some voiceIds /\
    length voiceIds = length notes1 /\
    activeChords (fst left) !! element = None /\
    timers (drain (snd left)) = [] /\
    forall k, In k voiceIds ->
      map_get (activeVoices (drain (snd left))) k <> None.
Proof.
  intros Hinit Hvoice Hids Hno Hroom first second left.
  pose proof (play_chord_fold now1 volume voice definition notes1 [] e
                Hinit Hvoice Hids) as (I1 & I2 & I3 & I4 & I5 & I6 & I7 & I8).
  fold (play_chord e now1 notes1 volume voice) in I1, I2, I3, I4, I5, I6, I7, I8.
  subst left second first. unfold onEnter.
  destruct (play_chord e now1 notes1 volume voice) as [ids1 e1].
  cbn [fst snd app] in *. subst ids1.
  set (ids1 := map voice_id (seq (nextVoiceId e) (length notes1))) in *.
  assert (Hsize : map_size (activeVoices e1) =
                  map_size (activeVoices e) + Z.of_nat (length notes1)).
  { unfold map_size. rewrite <- (length_map fst (activeVoices e1)), I2.
    subst ids1. rewrite length_app, !length_map, length_seq. lia. }
  specialize (I8 ltac:(lia)).
  pose proof (play_chord_fold now2 volume voice definition notes2 [] e1
                I3 I4 I5) as (J1 & J2 & _ & _ & _ & _ & _ & J8).
  fold (play_chord e1 now2 notes2 volume voice) in J1, J2, J8.
  specialize (J8 ltac:(lia)).
  destruct (play_chord e1 now2 notes2 volume voice) as [ids2 e2].
  cbn [fst snd app activeChords] in *. subst ids2.
  set (ids2 := map voice_id (seq (nextVoiceId e1) (length notes2))) in *.
  unfold onLeave. cbn [activeChords]. rewrite !lookup_insert_eq.
  cbn [fst snd activeChords].
  exists ids1. split; [reflexivity|].
  split; [subst ids1; rewrite length_map, length_seq; reflexivity|].
  split; [apply lookup_delete_eq|].
  split; [apply (fire_first_spec _ _ eq_refl)|].
  intros k Hk. destruct (stop_chord_spec now3 fadeOut ids2 e2) as [Ha Ht].
  rewrite drain_lookup.
  destruct (has_timer (stop_chord e2 now3 ids2 fadeOut) k) eqn:Etimer.
  - exfalso. apply Ht in Etimer as [Hold|[Hin2 _]].
    + unfold has_timer in Hold. rewrite J8, I8, Hno in Hold. discriminate Hold.
    + subst ids1 ids2.
      apply in_map_iff in Hk as (i & <- & Hi). apply in_seq in Hi.
      apply in_map_iff in Hin2 as (j & Hj & Hin2). apply in_seq in Hin2.
      apply voice_id_inj in Hj. lia.
  - rewrite Ha. apply map_get_in_some. rewrite J2, I2.
    apply in_or_app. left. apply in_or_app. right. exact Hk.
Qed.

Lemma chord_reentry_leaks_witness :
  let first := onEnter {| activeChords := ∅ |} (engine 16) 0 7%nat [48; 52; 55]
                       (4 # 10) "synth" in
  let second := onEnter (fst first) (snd first) 10 7%nat [53; 57; 60]
                        (4 # 10) "synth" in
  let left := onLeave (fst second) (snd second) 900 7%nat 500 in
  exists voiceIds,
    activeChords (fst first) !! 7%nat = Some voiceIds /\
    length voiceIds = 3%nat /\
    activeChords (fst left) !! 7%nat = None /\
    timers (drain (snd left)) = [] /\
    forall k, In k voiceIds ->
      map_get (activeVoices (drain (snd left))) k <> None.
Proof.
  apply (chord_reentry_leaks {| activeChords := ∅ |} (engine 16) 0 10 900 7%nat
           [48; 52; 55] [53; 57; 60] (4 # 10) "synth" 500 0%nat);
    [reflexivity|reflexivity|apply List.Forall_nil|reflexivity
    |apply Z.leb_le; reflexivity].
Defined.

End ChordPadFacts.

(** * Properties of the event emitter *)

Module EmitterFacts.

Import Emitter.

Lemma existsb_eqb_In (members : list nat) x :
  existsb (Nat.eqb x) members = true <-> In x members.
Proof.
  rewrite existsb_exists. split.
  - intros (y & Hy & E). apply Nat.eqb_eq in E. subst y. exact Hy.
  - intros H. exists x. split; [exact H|apply Nat.eqb_refl].
Qed.

Lemma set_add_In members x y : In y (set_add members x) <-> y = x \/ In y members.
Proof.
  unfold set_add. destruct (existsb (Nat.eqb x) members) eqn:E.
  - apply existsb_eqb_In in E. split; [auto|]. intros [->|H]; assumption.
  - rewrite in_app_iff. cbn [In]. intuition congruence.
Qed.

Lemma set_add_NoDup members x : List.NoDup members -> List.NoDup (set_add members x).
Proof.
  intros H. unfold set_add. destruct (existsb (Nat.eqb x) members) eqn:E; [exact H|].
  assert (Hn : ~ In x members).
  { intros Hin. apply existsb_eqb_In in Hin. congruence. }
  apply List.NoDup_app; [exact H|repeat constructor; intros []|].
  intros y Hy [<-|[]]. exact (Hn Hy).
Qed.

Lemma set_add_idem members x : set_add (set_add members x) x = set_add members x.
Proof.
  unfold set_add at 1.
  rewrite (proj2 (existsb_eqb_In _ x) (proj2 (set_add_In members x x)
                                          (or_introl eq_refl))).
  reflexivity.
Qed.

Lemma set_delete_In members x y :
  In y (set_delete members x) <-> y <> x /\ In y members.
Proof.
  unfold set_delete. rewrite List.filter_In, negb_true_iff, Nat.eqb_neq. tauto.
Qed.

Lemma emit_on t event callback event' :
  emit (on t event callback) event' =
  if String.eqb event event' then set_add (emit t event) callback else emit t event'.
Proof.
  unfold emit, on. cbn [events].
  destruct (String.eqb_spec event event') as [<-|Hne].
  - rewrite lookup_insert_eq. reflexivity.
  - rewrite lookup_insert_ne by exact Hne. reflexivity.
Qed.

Lemma emit_off t event callback event' :
  emit (off t event callback) event' =
  if String.eqb event event' then set_delete (emit t event) callback
  else emit t event'.
Proof.
  unfold emit, off. destruct (events t !! event) as [members|] eqn:E; cbn [events].
  - destruct (String.eqb_spec event event') as [<-|Hne].
    + rewrite lookup_insert_eq. reflexivity.
    + rewrite lookup_insert_ne by exact Hne. reflexivity.
  - destruct (String.eqb_spec event event') as [<-|Hne]; [|reflexivity].
    rewrite E. reflexivity.
Qed.

(** X26.  A callback registered twice for an event is called once when
    the event is emitted; after [off] it is not called; the other
    callbacks of the event and the other events are not affected, and
    no set of the emitter ever lists a callback twice. *)
Theorem on_off_emit t event callback :
  sets_ok t ->
  count_occ Nat.eq_dec (emit (on (on t event callback) event callback) event) callback
  = 1%nat /\
  ~ In callback (emit (off (on t event callback) event callback) event) /\
  (forall other, other <> callback ->
     (In other (emit (on t event callback) event) <-> In other (emit t event)) /\
     (In other (emit (off t event callback) event) <-> In other (emit t event))) /\
  (forall event', event' <> event ->
     emit (on t event callback) event' = emit t event' /\
     emit (off t event callback) event' = emit t event') /\
  sets_ok (on t event callback) /\
  sets_ok (off t event callback).
Proof.
  intros Hok.
  assert (Hnd : List.NoDup (emit t event)).
  { unfold emit. destruct (events t !! event) eqn:E; [exact (Hok _ _ E)|constructor]. }
  split; [|split; [|split; [|split; [|split]]]].
  - rewrite !emit_on, String.eqb_refl, set_add_idem.
    apply (proj1 (List.NoDup_count_occ' Nat.eq_dec _)).
    + apply set_add_NoDup. exact Hnd.
    + apply set_add_In. left. reflexivity.
  - rewrite emit_off, String.eqb_refl, set_delete_In. intros [H _]. exact (H eq_refl).
  - intros other Hne. rewrite emit_on, emit_off, String.eqb_refl.
    rewrite set_add_In, set_delete_In. tauto.
  - intros event' Hne. rewrite emit_on, emit_off.
    destruct (String.eqb_spec event event') as [E|_]; [congruence|]. split; reflexivity.
  - intros event' members. unfold on. cbn [events].
    destruct (String.eqb_spec event event') as [<-|Hne].
    + rewrite lookup_insert_eq. intros [= <-]. apply set_add_NoDup.
      destruct (events t !! event) eqn:E; [exact (Hok _ _ E)|constructor].
    + rewrite lookup_insert_ne by exact Hne. apply Hok.
  - intros event' members. unfold off.
    destruct (events t !! event) as [ms|] eqn:E; [|apply Hok]. cbn [events].
    destruct (String.eqb_spec event event') as [<-|Hne].
    + rewrite lookup_insert_eq. intros [= <-]. unfold set_delete.
      apply List.NoDup_filter. exact (Hok _ _ E).
    + rewrite lookup_insert_ne by exact Hne. apply Hok.
Qed.

Lemma on_off_emit_witness :
  let t := on (on {| events := ∅ |} "notePlay" 1) "notePlay" 2 in
  sets_ok t /\
  emit (on (on t "notePlay" 1) "notePlay" 1) "notePlay" = [1; 2]%nat /\
  count_occ Nat.eq_dec (emit (on (on t "notePlay" 1) "notePlay" 1) "notePlay") 1
  = 1%nat.
Proof.
  intros t.
  assert (H : sets_ok t).
  { intros event members. subst t. unfold on. cbn [events].
    destruct (String.eqb_spec "notePlay" event) as [<-|Hne].
    - rewrite lookup_insert_eq. intros [= <-]. vm_compute.
      repeat constructor; cbn [In]; intuition discriminate.
    - rewrite !lookup_insert_ne by exact Hne. rewrite lookup_empty. discriminate. }
  split; [exact H|]. split; [reflexivity|].
  exact (proj1 (on_off_emit t "notePlay" 1%nat H)).
Defined.

End EmitterFacts.
